(** * Replicated part lifecycle of StorageReplicatedMergeTree

    A shallow embedding of the parts of
    [src/Storages/StorageReplicatedMergeTree.cpp] that drive the replicated
    part-lifecycle state machine: replay of log entries, quorum tracking,
    repair of a lost replica, merge and mutation selection, the drop range of
    a partition and the checksum check at commit.

    The coordination service is a finite map from paths to nodes; requests
    are pure functions on it.  A method of the storage object is a function
    from the state of the object (and of the coordination tree) to a result
    and a new state.  What other clients and the network do between two
    requests of this replica is read from an explicit schedule. *)

From stdpp Require Import gmap strings list fin_maps.
From Stdlib Require Import ZArith DecimalString Ascii.

#[local] Open Scope Z_scope.

(** ** Part names *)

(** Modelled from the spec: [MergeTreePartInfo] is declared in
    MergeTreePartInfo.h, which is not among the sources.  The spec (section 3)
    gives its fields: partition_id, min_block, max_block, level, mutation. *)
Record MergeTreePartInfo := {
  partition_id : string;
  min_block : Z;
  max_block : Z;
  level : Z;
  mutation : Z;
}.

#[global] Instance MergeTreePartInfo_eq_dec : EqDecision MergeTreePartInfo.
Proof. solve_decision. Defined.

#[global] Instance MergeTreePartInfo_countable : Countable MergeTreePartInfo.
Proof.
  apply (inj_countable'
    (fun i => (partition_id i, min_block i, max_block i, level i, mutation i))
    (fun t => match t with
              | (p, lo, hi, lv, mu) =>
                  {| partition_id := p; min_block := lo; max_block := hi;
                     level := lv; mutation := mu |}
              end)).
  by intros [].
Defined.

(** A part name is kept in parsed form: [MergeTreePartInfo::fromPartName] and
    [getPartName] are outside the sources and, for the custom partitioning
    format, inverse to each other.  An entry that names no part carries
    [no_part_name] where the source has the empty string. *)
Abbreviation PartName := MergeTreePartInfo (only parsing).

Definition no_part_name : PartName :=
  {| partition_id := ""; min_block := 0; max_block := 0; level := 0; mutation := 0 |}.

(** Modelled from the spec: the constants [MergeTreePartInfo::MAX_LEVEL] and
    [MergeTreePartInfo::MAX_BLOCK_NUMBER] are declared in MergeTreePartInfo.h.
    No result below depends on their value. *)
Definition MAX_LEVEL : Z := 999999999.
Definition MAX_BLOCK_NUMBER : Z := 999999999.

(** Modelled from the spec: [MergeTreePartInfo::contains] is declared in
    MergeTreePartInfo.h.  Spec, section 3: part A covers part B iff A's block
    range contains B's and A's level and mutation are consistent with having
    absorbed B. *)
Definition contains (a b : MergeTreePartInfo) : bool :=
  bool_decide (partition_id a = partition_id b)
  && (min_block a <=? min_block b)
  && (max_block b <=? max_block a)
  && (level b <=? level a)
  && (mutation b <=? mutation a).

(** Modelled from the spec: [MergeTreePartInfo::getBlocksCount] is declared in
    MergeTreePartInfo.h: the number of block numbers in the closed range
    from min_block to max_block. *)
Definition getBlocksCount (i : MergeTreePartInfo) : Z :=
  max_block i - min_block i + 1.

(** ** Log entries *)

Inductive LogEntryType :=
  | EMPTY | GET_PART | ATTACH_PART | MERGE_PARTS | DROP_RANGE | CLEAR_COLUMN
  | CLEAR_INDEX | REPLACE_RANGE | MUTATE_PART | ALTER_METADATA
  | SYNC_PINNED_PART_UUIDS | CLONE_PART_FROM_SHARD.

#[global] Instance LogEntryType_eq_dec : EqDecision LogEntryType.
Proof. solve_decision. Defined.

Record ReplaceRangeEntry := {
  drop_range_part_name : PartName;
  from_database : string;
  from_table : string;
  src_part_names : list PartName;
  new_part_names : list PartName;
  part_names_checksums : list string;
  columns_version : Z;
}.

Inductive MergeType := MERGE_REGULAR | MERGE_TTL_DELETE | MERGE_TTL_RECOMPRESS.

(** A segment of a path of the coordination tree: a plain name, a sequential
    name (the prefix followed by the counter the service appended), or the
    name of a part. *)
Inductive Segment :=
  | Name (s : string)
  | Sequential (prefix : string) (n : N)
  | Part (p : PartName).

#[global] Instance Segment_eq_dec : EqDecision Segment.
Proof. solve_decision. Defined.

#[global] Instance Segment_countable : Countable Segment.
Proof.
  apply (inj_countable'
    (fun s => match s with
              | Name s => inl s
              | Sequential p n => inr (inl (p, n))
              | Part p => inr (inr p)
              end)
    (fun t => match t with
              | inl s => Name s
              | inr (inl (p, n)) => Sequential p n
              | inr (inr p) => Part p
              end)).
  by intros [].
Defined.

Abbreviation Path := (list Segment) (only parsing).

Record LogEntry := {
  znode_name : option Segment;
  type : LogEntryType;
  source_replica : string;
  new_part_name : PartName;
  part_checksum : string;
  source_parts : list PartName;
  merge_type : MergeType;
  deduplicate : bool;
  quorum : N;
  detach : bool;
  create_time : Z;
  alter_version : Z;
  block_id : string;
  metadata_str : string;
  columns_str : string;
  replace_range_entry : option ReplaceRangeEntry;
}.

(** The default-constructed entry of the source. *)
Definition LogEntry_default : LogEntry :=
  {| znode_name := None; type := EMPTY; source_replica := "";
     new_part_name := no_part_name; part_checksum := ""; source_parts := [];
     merge_type := MERGE_REGULAR; deduplicate := false; quorum := 0%N;
     detach := false; create_time := 0; alter_version := -1; block_id := "";
     metadata_str := ""; columns_str := ""; replace_range_entry := None |}.

(** ** Contents of the nodes *)

Record ReplicatedMergeTreeQuorumEntry := {
  part_name : PartName;
  required_number_of_replicas : nat;
  replicas : gset string;
}.

(** The header of a part as a replica records it: the hash of its columns
    and its checksums. *)
Record ReplicatedMergeTreePartHeader := {
  columns_hash : string;
  checksums : string;
}.

#[global] Instance ReplicatedMergeTreePartHeader_eq_dec :
  EqDecision ReplicatedMergeTreePartHeader.
Proof. solve_decision. Defined.

(** The serialised forms ([toString], [fromString]) are outside the sources;
    a node holds its content in parsed form, tagged with what it is. *)
Inductive Data :=
  | Text (s : string)
  | QuorumStatus (q : ReplicatedMergeTreeQuorumEntry)
  | AddedParts (added_parts : gmap string PartName)
  | Entry (e : LogEntry)
  | Header (h : ReplicatedMergeTreePartHeader)
  | PartNameText (p : PartName)
  | PathText (p : Path).

(** ** The coordination service *)

Module Coordination.

Inductive Error :=
  | ZOK | ZNONODE | ZBADVERSION | ZNODEEXISTS | ZNOTEMPTY
  | ZRUNTIMEINCONSISTENCY | ZCONNECTIONLOSS | ZSESSIONEXPIRED
  | ZOPERATIONTIMEOUT.

#[global] Instance Error_eq_dec : EqDecision Error.
Proof. solve_decision. Defined.

Record Stat := {
  version : Z;
  cversion : N;
  ctime : Z;
  numChildren : nat;
}.

(** The clock of the service is not modelled: a node keeps the creation
    time it has in the tree, and a node made by a request has ctime 0. *)
Record ZNode := {
  data : Data;
  node_version : Z;
  node_cversion : N;
  node_ctime : Z;
}.

Inductive CreateMode :=
  | Persistent | Ephemeral | PersistentSequential | EphemeralSequential.

Inductive Request :=
  | CreateRequest (path : Path) (d : Data) (mode : CreateMode)
  | RemoveRequest (path : Path) (v : Z)
  | SetRequest (path : Path) (d : Data) (v : Z)
  | CheckRequest (path : Path) (v : Z).

(** The outcome of one request: its error code and, for a create, the
    path the service made. *)
Record Response := {
  error : Error;
  path_created : Path;
}.

Abbreviation Tree := (gmap (list Segment) ZNode) (only parsing).

Definition parent (p : Path) : Path := removelast p.

Definition is_child_of (p q : Path) : bool :=
  bool_decide (q ≠ [] ∧ parent q = p).

Definition children (t : Tree) (p : Path) : list Segment :=
  omap (fun q => if is_child_of p q then last q else None) (elements (dom t)).

Definition stat_of (t : Tree) (p : Path) (n : ZNode) : Stat :=
  {| version := node_version n; cversion := node_cversion n;
     ctime := node_ctime n; numChildren := length (children t p) |}.

Definition version_ok (n : ZNode) (v : Z) : bool :=
  (v =? -1) || (v =? node_version n).

(** A change of the set of children moves the parent's cversion, from
    which the service takes the counter of sequential names. *)
Definition bump_cversion (p : Path) (t : Tree) : Tree :=
  alter (fun n => {| data := data n; node_version := node_version n;
                     node_cversion := N.succ (node_cversion n);
                     node_ctime := node_ctime n |}) p t.

Definition new_node (d : Data) : ZNode :=
  {| data := d; node_version := 0; node_cversion := 0; node_ctime := 0 |}.

Definition actual_path (t : Tree) (p : Path) (mode : CreateMode) : Path :=
  match mode, last p, t !! parent p with
  | (PersistentSequential | EphemeralSequential), Some (Name prefix), Some par =>
      parent p ++ [Sequential prefix (node_cversion par)]
  | _, _, _ => p
  end.

Definition apply_request (t : Tree) (r : Request) : Response * Tree :=
  match r with
  | CreateRequest p d mode =>
      let q := actual_path t p mode in
      match t !! parent p, t !! q with
      | None, _ => ({| error := ZNONODE; path_created := [] |}, t)
      | Some _, Some _ => ({| error := ZNODEEXISTS; path_created := [] |}, t)
      | Some _, None =>
          ({| error := ZOK; path_created := q |},
           <[q := new_node d]> (bump_cversion (parent p) t))
      end
  | RemoveRequest p v =>
      match t !! p with
      | None => ({| error := ZNONODE; path_created := [] |}, t)
      | Some n =>
          if negb (version_ok n v) then
            ({| error := ZBADVERSION; path_created := [] |}, t)
          else if bool_decide (children t p ≠ []) then
            ({| error := ZNOTEMPTY; path_created := [] |}, t)
          else
            ({| error := ZOK; path_created := [] |},
             bump_cversion (parent p) (delete p t))
      end
  | SetRequest p d v =>
      match t !! p with
      | None => ({| error := ZNONODE; path_created := [] |}, t)
      | Some n =>
          if negb (version_ok n v) then
            ({| error := ZBADVERSION; path_created := [] |}, t)
          else
            ({| error := ZOK; path_created := [] |},
             <[p := {| data := d; node_version := node_version n + 1;
                       node_cversion := node_cversion n;
                       node_ctime := node_ctime n |}]> t)
      end
  | CheckRequest p v =>
      match t !! p with
      | None => ({| error := ZNONODE; path_created := [] |}, t)
      | Some n =>
          if negb (version_ok n v) then
            ({| error := ZBADVERSION; path_created := [] |}, t)
          else ({| error := ZOK; path_created := [] |}, t)
      end
  end.

Definition not_reached : Response :=
  {| error := ZRUNTIMEINCONSISTENCY; path_created := [] |}.

(** The requests of a multi are applied in order to a working copy.  The
    result is the first error, the responses, the index of the request
    that failed and the tree, which is the working copy only if every
    request succeeded. *)
Fixpoint apply_requests (t : Tree) (ops : list Request)
  : Error * list Response * Tree :=
  match ops with
  | [] => (ZOK, [], t)
  | r :: ops' =>
      let '(resp, t1) := apply_request t r in
      match error resp with
      | ZOK =>
          let '(code, resps, t2) := apply_requests t1 ops' in
          (code, resp :: resps, t2)
      | code => (code, resp :: map (fun _ => not_reached) ops', t)
      end
  end.

Definition multi (t : Tree) (ops : list Request) : Error * list Response * Tree :=
  let '(code, resps, t') := apply_requests t ops in
  match code with
  | ZOK => (ZOK, resps, t')
  | _ => (code, resps, t)
  end.

Fixpoint failed_op_index (resps : list Response) : nat :=
  match resps with
  | [] => 0%nat
  | r :: resps' =>
      if bool_decide (error r = ZOK) then S (failed_op_index resps') else 0%nat
  end.

End Coordination.

Import Coordination.

(** Errors of the connection, as opposed to answers of the service. *)
Definition isHardwareError (e : Error) : bool :=
  match e with
  | ZCONNECTIONLOSS | ZSESSIONEXPIRED | ZOPERATIONTIMEOUT => true
  | _ => false
  end.

Definition path_of (r : Request) : Path :=
  match r with
  | CreateRequest p _ _ | RemoveRequest p _ | SetRequest p _ _ | CheckRequest p _ => p
  end.

(** ** The storage object *)

Inductive ErrorCode :=
  | LOGICAL_ERROR | CHECKSUM_DOESNT_MATCH | CANNOT_ASSIGN_ALTER
  | ALL_REPLICAS_LOST | REPLICA_STATUS_CHANGED | NO_REPLICA_HAS_PART
  | NOT_FOUND_NODE | KEEPER_EXCEPTION | NOT_A_LEADER
  | CANNOT_PARSE_INPUT_ASSERTION_FAILED.

#[global] Instance ErrorCode_eq_dec : EqDecision ErrorCode.
Proof. solve_decision. Defined.

Inductive Exception :=
  | DBException (code : ErrorCode)
  | KeeperException (e : Error)
  | KeeperMultiException (e : Error) (failed_op : nat)
  | std_out_of_range.

#[global] Instance Exception_eq_dec : EqDecision Exception.
Proof. solve_decision. Defined.

(** The states of a part of the working set (spec, section 9). *)
Inductive DataPartState :=
  | Temporary | PreCommitted | Committed | Outdated | Deleting.

#[global] Instance DataPartState_eq_dec : EqDecision DataPartState.
Proof. solve_decision. Defined.

Record DataPart := {
  name : PartName;
  state : DataPartState;
  columns : string;
  part_checksums : string;
  modification_time : Z;
}.

(** A directory under detached/: the part name it parses to, if any, whether
    its columns, checksums and indexes load, and what they are. *)
Record DetachedPart := {
  detached_name : option PartName;
  loads : bool;
  detached_columns : string;
  detached_checksums : string;
  total_checksum_hex : string;
  last_modified : Z;
}.

(** What happens before a request of this replica reaches the service:
    nothing, another client commits a change, or the request fails (the
    connection is lost, the session has expired). *)
Inductive Event :=
  | Quiet
  | Interfere (f : Tree -> Tree)
  | Fail (e : Error).

(** The object and its surroundings.  [committed] is a history: the write
    requests of this replica that the service has carried out, oldest
    first.  No method reads it. *)
Record Storage := {
  zookeeper : Tree;
  schedule : list Event;
  committed : list Request;
  data_parts : list DataPart;
  detached : list DetachedPart;
  queue : list LogEntry;
  parts_to_check : list PartName;
  cancelled_merges : list (string * Z);
  existing_nodes_cache : list Path;
  now : Z;
}.

Definition set_zookeeper (t : Tree) (s : Storage) : Storage :=
  {| zookeeper := t; schedule := schedule s; committed := committed s;
     data_parts := data_parts s; detached := detached s; queue := queue s;
     parts_to_check := parts_to_check s;
     cancelled_merges := cancelled_merges s;
     existing_nodes_cache := existing_nodes_cache s; now := now s |}.

Definition set_schedule (sch : list Event) (s : Storage) : Storage :=
  {| zookeeper := zookeeper s; schedule := sch; committed := committed s;
     data_parts := data_parts s; detached := detached s; queue := queue s;
     parts_to_check := parts_to_check s;
     cancelled_merges := cancelled_merges s;
     existing_nodes_cache := existing_nodes_cache s; now := now s |}.

Definition set_committed (c : list Request) (s : Storage) : Storage :=
  {| zookeeper := zookeeper s; schedule := schedule s; committed := c;
     data_parts := data_parts s; detached := detached s; queue := queue s;
     parts_to_check := parts_to_check s;
     cancelled_merges := cancelled_merges s;
     existing_nodes_cache := existing_nodes_cache s; now := now s |}.

Definition set_data_parts (ps : list DataPart) (s : Storage) : Storage :=
  {| zookeeper := zookeeper s; schedule := schedule s; committed := committed s;
     data_parts := ps; detached := detached s; queue := queue s;
     parts_to_check := parts_to_check s;
     cancelled_merges := cancelled_merges s;
     existing_nodes_cache := existing_nodes_cache s; now := now s |}.

Definition set_detached (ds : list DetachedPart) (s : Storage) : Storage :=
  {| zookeeper := zookeeper s; schedule := schedule s; committed := committed s;
     data_parts := data_parts s; detached := ds; queue := queue s;
     parts_to_check := parts_to_check s;
     cancelled_merges := cancelled_merges s;
     existing_nodes_cache := existing_nodes_cache s; now := now s |}.

Definition set_queue (q : list LogEntry) (s : Storage) : Storage :=
  {| zookeeper := zookeeper s; schedule := schedule s; committed := committed s;
     data_parts := data_parts s; detached := detached s; queue := q;
     parts_to_check := parts_to_check s;
     cancelled_merges := cancelled_merges s;
     existing_nodes_cache := existing_nodes_cache s; now := now s |}.

Definition set_parts_to_check (ps : list PartName) (s : Storage) : Storage :=
  {| zookeeper := zookeeper s; schedule := schedule s; committed := committed s;
     data_parts := data_parts s; detached := detached s; queue := queue s;
     parts_to_check := ps;
     cancelled_merges := cancelled_merges s;
     existing_nodes_cache := existing_nodes_cache s; now := now s |}.

Definition set_cancelled_merges (c : list (string * Z)) (s : Storage) : Storage :=
  {| zookeeper := zookeeper s; schedule := schedule s; committed := committed s;
     data_parts := data_parts s; detached := detached s; queue := queue s;
     parts_to_check := parts_to_check s;
     cancelled_merges := c;
     existing_nodes_cache := existing_nodes_cache s; now := now s |}.

Definition set_existing_nodes_cache (c : list Path) (s : Storage) : Storage :=
  {| zookeeper := zookeeper s; schedule := schedule s; committed := committed s;
     data_parts := data_parts s; detached := detached s; queue := queue s;
     parts_to_check := parts_to_check s;
     cancelled_merges := cancelled_merges s;
     existing_nodes_cache := c; now := now s |}.

(** ** Methods: state, exceptions, bounded loops *)

Inductive Result (A : Type) :=
  | Ok (a : A)
  | Throw (e : Exception)
  | OutOfFuel.

Arguments Ok {A} a.
Arguments Throw {A} e.
Arguments OutOfFuel {A}.

Definition M (A : Type) : Type := Storage -> Result A * Storage.

Definition ret {A} (a : A) : M A := fun s => (Ok a, s).

Definition throw {A} (e : Exception) : M A := fun s => (Throw e, s).

Definition bind {A B} (m : M A) (k : A -> M B) : M B := fun s =>
  match m s with
  | (Ok a, s') => k a s'
  | (Throw e, s') => (Throw e, s')
  | (OutOfFuel, s') => (OutOfFuel, s')
  end.

Definition try_catch {A} (m : M A) (handler : Exception -> M A) : M A := fun s =>
  match m s with
  | (Throw e, s') => handler e s'
  | r => r
  end.

Definition gets {A} (f : Storage -> A) : M A := fun s => (Ok (f s), s).

Definition modify (f : Storage -> Storage) : M unit := fun s => (Ok tt, f s).

Notation "'let*' x ':=' m 'in' k" := (bind m (fun x => k))
  (at level 10, x pattern, m at level 100, k at level 200).

Notation "m ';;' k" := (bind m (fun _ => k))
  (at level 100, k at level 200, right associativity).

Definition when (b : bool) (m : M unit) : M unit := if b then m else ret tt.

Fixpoint for_each {A} (l : list A) (body : A -> M unit) : M unit :=
  match l with
  | [] => ret tt
  | x :: l' => body x ;; for_each l' body
  end.

Fixpoint map_m {A B} (f : A -> M B) (l : list A) : M (list B) :=
  match l with
  | [] => ret []
  | x :: l' => let* y := f x in let* ys := map_m f l' in ret (y :: ys)
  end.

(** A [while (true)] whose body ends in [break] (or [return]) or in
    [continue].  The fuel bounds the number of iterations. *)
Inductive LoopStep (A : Type) :=
  | Break (a : A)
  | Continue.

Arguments Break {A} a.
Arguments Continue {A}.

Fixpoint while_true {A} (fuel : nat) (body : M (LoopStep A)) : M A :=
  match fuel with
  | O => fun s => (OutOfFuel, s)
  | S fuel' =>
      let* step := body in
      match step with
      | Break a => ret a
      | Continue => while_true fuel' body
      end
  end.

(** A retry loop repeats only after a conflict, and a conflict needs another
    client to have committed since the last read: an iteration that repeats
    consumes an event of the schedule. *)
Definition retry_loop {A} (body : M (LoopStep A)) : M A := fun s =>
  while_true (S (length (schedule s))) body s.

(** ** Requests of the client *)

(** Every request first takes the next event of the schedule. *)
Definition request {A} (f : Tree -> A * Tree) : M A := fun s =>
  let run t sch :=
    let '(a, t') := f t in (Ok a, set_schedule sch (set_zookeeper t' s)) in
  match schedule s with
  | [] => run (zookeeper s) []
  | Quiet :: sch => run (zookeeper s) sch
  | Interfere g :: sch => run (g (zookeeper s)) sch
  | Fail e :: sch => (Throw (KeeperException e), set_schedule sch s)
  end.

(** The requests the service has carried out. *)
Definition record (code : Error) (ops : list Request) : M unit :=
  match code with
  | ZOK => modify (fun s => set_committed (committed s ++ ops) s)
  | _ => ret tt
  end.

(** An asynchronous request: the future holds the answer or the exception
    that [get] will throw. *)
Definition async {A} (m : M A) : M (Result A) := fun s =>
  let '(r, s') := m s in (Ok r, s').

Definition future_get {A} (r : Result A) : M A := fun s => (r, s).

Definition zk_exists_stat (p : Path) : M (option Stat) :=
  request (fun t => (stat_of t p <$> t !! p, t)).

Definition zk_exists (p : Path) : M bool :=
  let* st := zk_exists_stat p in ret (bool_decide (is_Some st)).

Definition zk_tryGet (p : Path) : M (option (Data * Stat)) :=
  request (fun t => ((fun n => (data n, stat_of t p n)) <$> t !! p, t)).

Definition zk_get (p : Path) : M (Data * Stat) :=
  let* r := zk_tryGet p in
  match r with
  | Some x => ret x
  | None => throw (KeeperException ZNONODE)
  end.

(** A multi without requests is answered by the client itself. *)
Definition zk_tryMulti (ops : list Request) : M (Error * list Response) :=
  match ops with
  | [] => ret (ZOK, [])
  | _ =>
      let* (code, resps) :=
        request (fun t => let '(code, resps, t') := multi t ops in ((code, resps), t')) in
      record code ops ;;
      ret (code, resps)
  end.

(** [asyncTryMultiNoThrow]: an error of the connection is the code of the
    answer. *)
Definition zk_tryMultiNoThrow (ops : list Request) : M Error :=
  try_catch (let* (code, _) := zk_tryMulti ops in ret code)
    (fun e => match e with
              | KeeperException code => ret code
              | _ => throw e
              end).

(** [KeeperMultiException::check]. *)
Definition check_multi (code : Error) (resps : list Response) : M unit :=
  match code with
  | ZOK => ret tt
  | _ => throw (KeeperMultiException code (failed_op_index resps))
  end.

Definition zk_multi (ops : list Request) : M (list Response) :=
  let* (code, resps) := zk_tryMulti ops in
  check_multi code resps ;;
  ret resps.

Definition zk_trySet (p : Path) (d : Data) (v : Z) : M Error :=
  let* code :=
    request (fun t => let '(r, t') := apply_request t (SetRequest p d v) in (error r, t')) in
  record code [SetRequest p d v] ;;
  ret code.

Definition zk_set (p : Path) (d : Data) : M unit :=
  let* code := zk_trySet p d (-1) in
  match code with
  | ZOK => ret tt
  | _ => throw (KeeperException code)
  end.

Definition zk_create (p : Path) (d : Data) (mode : CreateMode) : M Path :=
  let* r := request (fun t => apply_request t (CreateRequest p d mode)) in
  record (error r) [CreateRequest p d mode] ;;
  match error r with
  | ZOK => ret (path_created r)
  | code => throw (KeeperException code)
  end.

Definition zk_tryGetChildren (p : Path) : M (option (list Segment)) :=
  request (fun t => ((fun _ => children t p) <$> t !! p, t)).

Definition zk_getChildren (p : Path) : M (list Segment) :=
  let* r := zk_tryGetChildren p in
  match r with
  | Some l => ret l
  | None => throw (KeeperException ZNONODE)
  end.

(** [ZooKeeper::removeChildren] removes the children of a node, none of which
    has children of its own. *)
Definition zk_removeChildren (p : Path) : M unit :=
  let* l := zk_getChildren p in
  match l with
  | [] => ret tt
  | _ => zk_multi (map (fun c => RemoveRequest (p ++ [c]) (-1)) l) ;; ret tt
  end.

(** The text a node holds. *)
Definition text_of (d : Data) : string :=
  match d with
  | Text s => s
  | _ => ""
  end.

(** [String::empty] of what a node holds. *)
Definition is_empty (d : Data) : bool :=
  match d with
  | Text "" => true
  | _ => false
  end.

(** The tree after the changes of other clients in a run of events. *)
Fixpoint after_events (l : list Event) (t : Tree) : Tree :=
  match l with
  | [] => t
  | Interfere f :: l' => after_events l' (f t)
  | _ :: l' => after_events l' t
  end.

(** ** The local working set *)

(** Modelled from the spec: the working set of parts belongs to MergeTreeData,
    which is not among the sources.  Spec, sections 3, 4.4 and 9: a part is
    Temporary, PreCommitted, Committed, Outdated or Deleting; the active
    parts are the Committed ones; a part covered by an active part is already
    present; a transaction renames the temporary part into the working set
    (PreCommitted) and commits it (Committed), which makes the parts it covers
    Outdated. *)
Definition getPartIfExists (n : PartName) (valid_states : list DataPartState)
  : M (option DataPart) :=
  gets (fun s =>
    find (fun d => bool_decide (name d = n) && bool_decide (state d ∈ valid_states))
      (data_parts s)).

Definition getActiveContainingPart (n : PartName) : M (option DataPart) :=
  gets (fun s =>
    find (fun d => bool_decide (state d = Committed) && contains (name d) n)
      (data_parts s)).

Definition with_state (st : DataPartState) (d : DataPart) : DataPart :=
  {| name := name d; state := st; columns := columns d;
     part_checksums := part_checksums d;
     modification_time := modification_time d |}.

(** A transaction is the list of the parts it has put into the working set. *)
Abbreviation Transaction := (list PartName) (only parsing).

(** Modelled from the spec: [MergeTreeData::renameTempPartAndReplace].  A part
    that an active part covers is obsolete and is not added. *)
Definition renameTempPartAndReplace (part : DataPart) (transaction : Transaction)
  : M (bool * Transaction) :=
  let* covering := getActiveContainingPart (name part) in
  match covering with
  | Some _ => ret (false, transaction)
  | None =>
      modify (fun s => set_data_parts (data_parts s ++ [with_state PreCommitted part]) s) ;;
      ret (true, transaction ++ [name part])
  end.

Definition covered_by (transaction : Transaction) (d : DataPart) : bool :=
  bool_decide (state d = Committed)
  && existsb (fun n => contains n (name d) && bool_decide (n ≠ name d)) transaction.

(** Modelled from the spec: [MergeTreeData::Transaction::commit]; the value is
    the list of the parts the commit made obsolete. *)
Definition Transaction_commit (transaction : Transaction) : M (list DataPart) :=
  let* parts := gets data_parts in
  let covered := filter (fun d => covered_by transaction d = true) parts in
  modify (fun s => set_data_parts
    (map (fun d =>
       if bool_decide (state d = PreCommitted) && bool_decide (name d ∈ transaction)
       then with_state Committed d
       else if covered_by transaction d then with_state Outdated d
       else d) (data_parts s)) s) ;;
  ret covered.

(** Modelled from the spec: the destructor of a transaction that was not
    committed takes its parts out of the working set. *)
Definition Transaction_rollback (transaction : Transaction) : M unit :=
  modify (fun s => set_data_parts
    (map (fun d =>
       if bool_decide (state d = PreCommitted) && bool_decide (name d ∈ transaction)
       then with_state Outdated d else d) (data_parts s)) s).

(** Modelled from the spec: [MergeTreeData::removePartsFromWorkingSet]. *)
Definition removePartsFromWorkingSet (remove : list PartName) : M unit :=
  modify (fun s => set_data_parts
    (map (fun d => if bool_decide (name d ∈ remove) then with_state Outdated d else d)
       (data_parts s)) s).

(** Modelled from the spec: [MergeTreeData::removePartsInRangeFromWorkingSet];
    the active parts the range covers leave the working set. *)
Definition removePartsInRangeFromWorkingSet (drop_range : MergeTreePartInfo)
  : M (list DataPart) :=
  let* parts := gets data_parts in
  let covered := filter (fun d => bool_decide (state d = Committed)
                                  && contains drop_range (name d) = true) parts in
  removePartsFromWorkingSet (map name covered) ;;
  ret covered.

(** Modelled from the spec: [ActiveDataPartSet] keeps, of a list of part
    names, those that no other name of the list covers. *)
Definition ActiveDataPartSet_getParts (names : list PartName) : list PartName :=
  filter (fun p => forallb (fun q => bool_decide (q = p) || negb (contains q p)) names = true)
    (remove_dups names).

Definition ActiveDataPartSet_getContainingPart (names : list PartName) (p : PartName)
  : option PartName :=
  find (fun q => contains q p) (ActiveDataPartSet_getParts names).

(** Modelled from the spec: [MergeList::cancelInPartition]; the calls are
    kept. *)
Definition cancelInPartition (pid : string) (delimiting_block_number : Z) : M unit :=
  modify (fun s =>
    set_cancelled_merges (cancelled_merges s ++ [(pid, delimiting_block_number)]) s).

(** Modelled from the spec: [ReplicatedMergeTreePartCheckThread::enqueuePart];
    spec, section 7 (c): the part is scheduled for a consistency re-check. *)
Definition enqueuePartForCheck (n : PartName) : M unit :=
  modify (fun s => set_parts_to_check (parts_to_check s ++ [n]) s).

(** [time(nullptr)]. *)
Definition time : M Z := gets now.

Module CreateMergeEntryResult.
Inductive t := Ok | MissingPart | LogUpdated | Other.
End CreateMergeEntryResult.

(** Modelled from the spec: [EphemeralLockInZooKeeper] is outside the sources.
    Spec, section 3: a block number lock is an ephemeral sequential node that
    stands for a reserved number of the partition's sequence. *)
Record EphemeralLockInZooKeeper := {
  lock_path : Path;
  holder_path : Path;
}.

(** The counter of a sequential name; [parse<UInt64>] of what follows the
    prefix. *)
Definition sequence_number (seg : option Segment) : N :=
  match seg with
  | Some (Sequential _ n) => n
  | _ => 0%N
  end.

Definition getNumber (lock : EphemeralLockInZooKeeper) : N :=
  sequence_number (last (lock_path lock)).

Definition getUnlockOps (lock : EphemeralLockInZooKeeper) : list Request :=
  [RemoveRequest (lock_path lock) (-1); RemoveRequest (holder_path lock) (-1)].

(** [parse<UInt64>] and [parse<Int32>] of a decimal text. *)
Definition parse_number (s : string) : option N :=
  N.of_uint <$> NilEmpty.uint_of_string s.

(** Arithmetic of [size_t]. *)
Definition size_t_max : Z := 2 ^ 64 - 1.
Definition wrap (z : Z) : Z := z mod 2 ^ 64.

(** [std::sort] of sequential names: by their counters. *)
Fixpoint insert_sorted (x : Segment) (l : list Segment) : list Segment :=
  match l with
  | [] => [x]
  | y :: l' =>
      if (sequence_number (Some x) <=? sequence_number (Some y))%N then x :: l
      else y :: insert_sorted x l'
  end.

Definition sort_names (l : list Segment) : list Segment :=
  foldr insert_sorted [] l.

Section Replica.

(** The name of this replica.  Paths are relative to the node of the table,
    so [zookeeper_path] is the root. *)
Variable replica_name : string.

(** Settings of the table. *)
Variable use_minimalistic_part_header_in_zookeeper : bool.
Variable detach_old_local_parts_when_cloning_replica : bool.

(** The flag [are_restoring_replica] of the object. *)
Variable are_restoring_replica : bool.

(** A constant of the header of the class, which is not among the sources. *)
Variable MAX_AGE_OF_LOCAL_PART_THAT_WASNT_ADDED_TO_ZOOKEEPER : Z.

(** The default of [max_retries] in the header of the class. *)
Variable max_retries : nat.

(** The hash of the text of the columns of a part, outside the sources. *)
Variable getColumnsHash : string -> string.

(** [std::shuffle] of a list of replicas with the generator of the thread. *)
Variable shuffle : list Segment -> list Segment.

Definition zookeeper_path : Path := [].
Definition replicas_path : Path := zookeeper_path ++ [Name "replicas"].
Definition replica_path : Path := replicas_path ++ [Name replica_name].
Definition log_path : Path := zookeeper_path ++ [Name "log"].

(** ** Quorum tracking: [updateQuorum] *)

Definition quorum_status_path (p : PartName) (is_parallel : bool) : Path :=
  if is_parallel then zookeeper_path ++ [Name "quorum"; Name "parallel"; Part p]
  else zookeeper_path ++ [Name "quorum"; Name "status"].

Definition quorum_last_part_path : Path :=
  zookeeper_path ++ [Name "quorum"; Name "last_part"].

Definition CANNOT_PARSE : Exception := DBException CANNOT_PARSE_INPUT_ASSERTION_FAILED.

(** [ReplicatedMergeTreeQuorumEntry(value)]. *)
Definition parse_quorum_entry (d : Data) : M ReplicatedMergeTreeQuorumEntry :=
  match d with
  | QuorumStatus q => ret q
  | _ => throw CANNOT_PARSE
  end.

(** [ReplicatedMergeTreeQuorumAddedParts]: empty, unless the node has text. *)
Definition parse_added_parts (d : Data) : M (gmap string PartName) :=
  match d with
  | Text "" => ret ∅
  | AddedParts m => ret m
  | _ => throw CANNOT_PARSE
  end.

Definition add_replica (r : string) (q : ReplicatedMergeTreeQuorumEntry)
  : ReplicatedMergeTreeQuorumEntry :=
  {| part_name := part_name q;
     required_number_of_replicas := required_number_of_replicas q;
     replicas := {[r]} ∪ replicas q |}.

Definition after_write (code : Error) : M (LoopStep unit) :=
  match code with
  | ZOK => ret (Break tt)
  | ZNONODE => ret (Break tt)
  | ZBADVERSION => ret Continue
  | _ => throw (KeeperException code)
  end.

Definition updateQuorum_body (p : PartName) (is_parallel : bool) : M (LoopStep unit) :=
  let status := quorum_status_path p is_parallel in
  let* r := zk_tryGet status in
  match r with
  | None => ret (Break tt)
  | Some (value, stat) =>
      let* quorum_entry := parse_quorum_entry value in
      if bool_decide (part_name quorum_entry ≠ p) then ret (Break tt)
      else
        let quorum_entry := add_replica replica_name quorum_entry in
        if bool_decide (required_number_of_replicas quorum_entry
                        ≤ size (replicas quorum_entry))%nat
        then
          let* ops :=
            if negb is_parallel then
              let* (old_added_parts, added_parts_stat) := zk_get quorum_last_part_path in
              let* parts_with_quorum := parse_added_parts old_added_parts in
              let new_added_parts := <[partition_id p := p]> parts_with_quorum in
              ret [RemoveRequest status (version stat);
                   SetRequest quorum_last_part_path (AddedParts new_added_parts)
                     (version added_parts_stat)]
            else ret [RemoveRequest status (version stat)] in
          let* (code, _) := zk_tryMulti ops in
          after_write code
        else
          let* code := zk_trySet status (QuorumStatus quorum_entry) (version stat) in
          after_write code
  end.

Definition updateQuorum (p : PartName) (is_parallel : bool) : M unit :=
  retry_loop (updateQuorum_body p is_parallel).

(** ** The checksum check at commit *)

Definition fromColumnsAndChecksums (cols sums : string) : ReplicatedMergeTreePartHeader :=
  {| columns_hash := getColumnsHash cols; checksums := sums |}.

(** [ReplicatedMergeTreePartHeader::fromString]. *)
Definition parse_header (d : Data) : M ReplicatedMergeTreePartHeader :=
  match d with
  | Header h => ret h
  | _ => throw CANNOT_PARSE
  end.

(** Modelled from the spec: [MinimalisticDataPartChecksums::checkEqual] is
    outside the sources.  Spec, section 4.4: checksums recorded by another
    replica that mismatch are a hard correctness error. *)
Definition checkEqual (theirs ours : string) : M unit :=
  if bool_decide (theirs = ours) then ret tt
  else throw (DBException CHECKSUM_DOESNT_MATCH).

(** The header a replica has recorded for the part under [current_part_path],
    whose node holds [part_zk_str]; [None] when the part has gone. *)
Definition read_replica_part_header (current_part_path : Path) (part_zk_str : Data)
  : M (option ReplicatedMergeTreePartHeader) :=
  if is_empty part_zk_str then
    let gone :=
      let* e := zk_exists current_part_path in
      if e then throw (DBException LOGICAL_ERROR) else ret None in
    let* cols := zk_tryGet (current_part_path ++ [Name "columns"]) in
    match cols with
    | Some (columns_str, _) =>
        let* sums := zk_tryGet (current_part_path ++ [Name "checksums"]) in
        match sums with
        | Some (checksums_str, _) =>
            ret (Some (fromColumnsAndChecksums (text_of columns_str) (text_of checksums_str)))
        | None => gone
        end
    | None => gone
    end
  else
    let* h := parse_header part_zk_str in ret (Some h).

(** The loop over the replicas of [checkPartChecksumsAndAddCommitOps].
    [sequential] says that [absent_replicas_paths] was given; the value is
    [has_been_already_added] and the absent paths. *)
Fixpoint check_replicas (local_part_header : ReplicatedMergeTreePartHeader)
    (part_name : PartName) (sequential : bool) (replicas : list Segment)
    (has_been_already_added : bool) (absent_replicas_paths : list Path)
  : M (bool * list Path) :=
  match replicas with
  | [] => ret (has_been_already_added, absent_replicas_paths)
  | replica :: rest =>
      let current_part_path := replicas_path ++ [replica; Name "parts"; Part part_name] in
      let* r := zk_tryGet current_part_path in
      match r with
      | None =>
          check_replicas local_part_header part_name sequential rest
            has_been_already_added
            (if sequential then absent_replicas_paths ++ [current_part_path]
             else absent_replicas_paths)
      | Some (part_zk_str, _) =>
          let* h := read_replica_part_header current_part_path part_zk_str in
          match h with
          | None =>
              check_replicas local_part_header part_name sequential rest
                has_been_already_added absent_replicas_paths
          | Some replica_part_header =>
              if bool_decide (columns_hash replica_part_header
                              ≠ columns_hash local_part_header)
              then throw (DBException CHECKSUM_DOESNT_MATCH)
              else
                checkEqual (checksums replica_part_header)
                  (checksums local_part_header) ;;
                let added :=
                  has_been_already_added || bool_decide (replica = Name replica_name) in
                if sequential then ret (added, [])
                else check_replicas local_part_header part_name sequential rest
                       added absent_replicas_paths
          end
      end
  end.

Definition commit_ops (part : DataPart) (part_name : PartName) : list Request :=
  let part_path := replica_path ++ [Name "parts"; Part part_name] in
  if use_minimalistic_part_header_in_zookeeper then
    [CreateRequest part_path
       (Header (fromColumnsAndChecksums (columns part) (part_checksums part))) Persistent]
  else
    [CreateRequest part_path (Text "") Persistent;
     CreateRequest (part_path ++ [Name "columns"]) (Text (columns part)) Persistent;
     CreateRequest (part_path ++ [Name "checksums"]) (Text (part_checksums part)) Persistent].

(** The value is the requests added to [ops] and the absent paths. *)
Definition checkPartChecksumsAndAddCommitOps (part : DataPart) (part_name : PartName)
    (sequential : bool) : M (list Request * list Path) :=
  let local_part_header := fromColumnsAndChecksums (columns part) (part_checksums part) in
  let* replicas := zk_getChildren replicas_path in
  let replicas := shuffle replicas in
  let* (has_been_already_added, absent) :=
    check_replicas local_part_header part_name sequential replicas false [] in
  if negb has_been_already_added then ret (commit_ops part part_name, absent)
  else ret ([], absent).

Definition checkPartChecksumsAndCommit_body (transaction : Transaction) (part : DataPart)
  : M (LoopStep (list DataPart)) :=
  let* (ops, absent_part_paths_on_replicas) :=
    checkPartChecksumsAndAddCommitOps part (name part) true in
  if bool_decide (transaction = []) then ret (Break [])
  else
    let new_ops :=
      flat_map (fun part_path => [CreateRequest part_path (Text "") Persistent;
                                  RemoveRequest part_path (-1)])
        absent_part_paths_on_replicas in
    let ops := new_ops ++ ops in
    try_catch
      (zk_multi ops ;;
       let* replaced := Transaction_commit transaction in
       ret (Break replaced))
      (fun e =>
         match e with
         | KeeperMultiException code failed_op_index =>
             let num_check_ops := (2 * length absent_part_paths_on_replicas)%nat in
             if bool_decide (failed_op_index < num_check_ops)%nat
                && bool_decide (code = ZNODEEXISTS)
             then ret Continue
             else throw e
         | _ => throw e
         end).

Definition checkPartChecksumsAndCommit (transaction : Transaction) (part : DataPart)
  : M (list DataPart) :=
  retry_loop (checkPartChecksumsAndCommit_body transaction part).


(** ** Removal of parts from the coordination tree *)

Definition removePartFromZooKeeper (part_name : PartName) (has_children : bool)
  : list Request :=
  let part_path := replica_path ++ [Name "parts"; Part part_name] in
  (if has_children then
     [RemoveRequest (part_path ++ [Name "checksums"]) (-1);
      RemoveRequest (part_path ++ [Name "columns"]) (-1)]
   else []) ++ [RemoveRequest part_path (-1)].

(** One pass of the loop of [tryRemovePartsFromZooKeeperWithRetries]; the
    value is [success]. *)
Definition tryRemoveParts_attempt (part_names : list PartName) : M bool :=
  try_catch
    (let* exists_futures :=
       map_m (fun part_name =>
                async (zk_exists_stat (replica_path ++ [Name "parts"; Part part_name])))
         part_names in
     let* remove_futures :=
       map_m (fun '(part_name, future) =>
                let* exists_resp := future_get future in
                match exists_resp with
                | Some stat =>
                    let ops := removePartFromZooKeeper part_name
                                 (bool_decide (0 < numChildren stat)%nat) in
                    let* response := zk_tryMultiNoThrow ops in
                    ret (Some response)
                | None => ret None
                end)
         (zip part_names exists_futures) in
     let* failures :=
       map_m (fun response =>
                match response with
                | None | Some ZOK | Some ZNONODE => ret false
                | Some code =>
                    if isHardwareError code then ret true
                    else throw (KeeperException code)
                end) remove_futures in
     ret (negb (existsb id failures)))
    (fun e =>
       match e with
       | KeeperException code | KeeperMultiException code _ =>
           if isHardwareError code then ret false else throw e
       | _ => throw e
       end).

Fixpoint tryRemoveParts_loop (tries : nat) (part_names : list PartName) : M bool :=
  match tries with
  | O => ret false
  | S tries' =>
      let* success := tryRemoveParts_attempt part_names in
      if success then ret true else tryRemoveParts_loop tries' part_names
  end.

(** With [max_retries] zero the loop goes on until a pass succeeds; a pass
    that fails has met an error of the connection. *)
Definition tryRemovePartsFromZooKeeperWithRetries (part_names : list PartName) : M bool :=
  match max_retries with
  | O =>
      retry_loop
        (let* success := tryRemoveParts_attempt part_names in
         ret (if success then Break true else Continue))
  | _ => tryRemoveParts_loop max_retries part_names
  end.

(** ** Drop ranges *)


(** Modelled from the spec: [ReplaceRangeEntry::isMovePartitionOrAttachFrom] is
    declared in ReplicatedMergeTreeLogEntry.h, which is not among the
    sources.  The spec (section 9) says that a special drop range
    distinguishes MOVE and ATTACH from REPLACE; the sources say which at
    every use: "Range with only one block has special meaning: it's ATTACH
    PARTITION or MOVE PARTITION" (executeReplaceRange), "if drop_range
    contains only one block it means that nothing to drop"
    (replacePartitionFrom). *)
Definition isMovePartitionOrAttachFrom (drop_range_info : MergeTreePartInfo) : bool :=
  getBlocksCount drop_range_info =? 1.

(** The default-constructed [MergeTreePartInfo]. *)
Definition MergeTreePartInfo_default : MergeTreePartInfo := no_part_name.

(** What is left of [executeReplaceRange] when there are parts to add: find
    where each part can be had, clone or fetch it, commit.  It is given
    [replace], [drop_range] and the new parts that are missing. *)
Variable executeReplaceRange_parts :
  LogEntry -> bool -> MergeTreePartInfo -> list PartName -> M bool.

(** [ReplicatedMergeTreeQueue::removePartProducingOpsInRange], outside the
    sources. *)
Variable removePartProducingOpsInRange : MergeTreePartInfo -> LogEntry -> M unit.

(** [executeReplaceRange] from the point where [replace] and [drop_range]
    are known. *)
Definition executeReplaceRange_rest (entry : LogEntry) (entry_replace : ReplaceRangeEntry)
    (replace : bool) (drop_range : MergeTreePartInfo) : M bool :=
  let n := length (new_part_names entry_replace) in
  if bool_decide (length (src_part_names entry_replace) < n)%nat
     || bool_decide (length (part_names_checksums entry_replace) < n)%nat
  then throw std_out_of_range
  else
    let* parts_to_add :=
      map_m (fun new_part_info =>
               let* found := getActiveContainingPart new_part_info in
               ret (match found with
                    | Some _ => []
                    | None => [new_part_info]
                    end))
        (new_part_names entry_replace) in
    let parts_to_add := concat parts_to_add in
    let* parts_to_remove :=
      if bool_decide (parts_to_add = []) && replace
      then removePartsInRangeFromWorkingSet drop_range
      else ret [] in
    if bool_decide (parts_to_add = []) then
      tryRemovePartsFromZooKeeperWithRetries (map name parts_to_remove) ;;
      ret true
    else executeReplaceRange_parts entry replace drop_range parts_to_add.

Definition executeReplaceRange (entry : LogEntry) : M bool :=
  match replace_range_entry entry with
  | None => throw (DBException LOGICAL_ERROR)
  | Some entry_replace =>
      let drop_range := drop_range_part_name entry_replace in
      let replace := negb (isMovePartitionOrAttachFrom drop_range) in
      let* drop_range :=
        if replace then
          cancelInPartition (partition_id drop_range) (max_block drop_range) ;;
          removePartProducingOpsInRange drop_range entry ;;
          ret drop_range
        else ret MergeTreePartInfo_default in
      executeReplaceRange_rest entry entry_replace replace drop_range
  end.
(** ** Replay of a log entry: [executeLogEntry] *)

(** The executors of the other kinds of entry.  The results below say which
    entries reach them, not what they do. *)
Variable executeDropRange : LogEntry -> M unit.
Variable executeFetch : LogEntry -> M bool.
Variable executeMetadataAlter : LogEntry -> M bool.
Variable syncPinnedPartUUIDs : M unit.
Variable executeClonePartFromShard : LogEntry -> M unit.

(** What the loop of [attachPartHelperFoundValidPart] asks of a directory
    under detached/: a name that parses, of the partition of the entry, a
    part that loads, and the checksum of the entry. *)
Definition valid_detached_part (entry : LogEntry) (d : DetachedPart) : bool :=
  match detached_name d with
  | None => false
  | Some part_info =>
      bool_decide (partition_id part_info = partition_id (new_part_name entry))
      && loads d
      && bool_decide (part_checksum entry = total_checksum_hex d)
  end.

Definition attachPartHelperFoundValidPart (entry : LogEntry) : M (option DataPart) :=
  let actual_part_info := new_part_name entry in
  let* dirs := gets detached in
  match find (valid_detached_part entry) dirs with
  | Some d =>
      ret (Some {| name := actual_part_info; state := Temporary;
                   columns := detached_columns d;
                   part_checksums := detached_checksums d;
                   modification_time := last_modified d |})
  | None => ret None
  end.

(** A scope that owns a transaction: an exception that leaves it rolls the
    transaction back. *)
Definition transaction_scope {A} (transaction : Transaction) (body : M A) : M A :=
  try_catch body (fun e => Transaction_rollback transaction ;; throw e).

(** Whether a part-producing entry can be skipped: the part, or a part that
    covers it, is in the working set and is registered under the parts of
    this replica. *)
Definition already_present (entry : LogEntry) : M bool :=
  let* existing_part := getPartIfExists (new_part_name entry) [PreCommitted] in
  let* existing_part :=
    match existing_part with
    | Some d => ret (Some d)
    | None => getActiveContainingPart (new_part_name entry)
    end in
  match existing_part with
  | Some d => zk_exists (replica_path ++ [Name "parts"; Part (name d)])
  | None => ret false
  end.

Definition failed_parts_path (p : PartName) : Path :=
  zookeeper_path ++ [Name "quorum"; Name "failed_parts"; Part p].

(** What [executeLogEntry] does with an entry it has not skipped. *)
Definition executeLogEntry_execute (entry : LogEntry) : M bool :=
  let is_get_or_attach :=
    bool_decide (type entry = GET_PART) || bool_decide (type entry = ATTACH_PART) in
  let* attached :=
    if bool_decide (type entry = ATTACH_PART) then
      let* found := attachPartHelperFoundValidPart entry in
      match found with
      | Some part =>
          let* (_, transaction) := renameTempPartAndReplace part [] in
          transaction_scope transaction
            (checkPartChecksumsAndCommit transaction part) ;;
          ret true
      | None => ret false
      end
    else ret false in
  if attached then ret true
  else
    let* quorum_failed :=
      if bool_decide (quorum entry ≠ 0%N) then
        zk_exists (failed_parts_path (new_part_name entry))
      else ret false in
    if quorum_failed then ret true
    else
      match type entry with
      | ATTACH_PART | GET_PART => executeFetch entry
      | MERGE_PARTS => throw (DBException LOGICAL_ERROR)
      | MUTATE_PART => throw (DBException LOGICAL_ERROR)
      | ALTER_METADATA => executeMetadataAlter entry
      | SYNC_PINNED_PART_UUIDS => syncPinnedPartUUIDs ;; ret true
      | CLONE_PART_FROM_SHARD => executeClonePartFromShard entry ;; ret true
      | _ => throw (DBException LOGICAL_ERROR)
      end.

Definition executeLogEntry (entry : LogEntry) : M bool :=
  if bool_decide (type entry = DROP_RANGE) then
    executeDropRange entry ;; ret true
  else if bool_decide (type entry = REPLACE_RANGE) then
    executeReplaceRange entry ;; ret true
  else
    let is_get_or_attach :=
      bool_decide (type entry = GET_PART) || bool_decide (type entry = ATTACH_PART) in
    let* skip :=
      if is_get_or_attach || bool_decide (type entry = MERGE_PARTS)
         || bool_decide (type entry = MUTATE_PART)
      then already_present entry
      else ret false in
    if skip then ret true else executeLogEntry_execute entry.

(** ** Merge and mutation selection: the log entry *)

Definition set_znode_name (seg : option Segment) (e : LogEntry) : LogEntry :=
  {| znode_name := seg; type := type e; source_replica := source_replica e;
     new_part_name := new_part_name e; part_checksum := part_checksum e;
     source_parts := source_parts e; merge_type := merge_type e;
     deduplicate := deduplicate e; quorum := quorum e; detach := detach e;
     create_time := create_time e; alter_version := alter_version e;
     block_id := block_id e; metadata_str := metadata_str e;
     columns_str := columns_str e;
     replace_range_entry := replace_range_entry e |}.

(** The second half of [createLogEntryToMergeParts]: the entry and the multi
    that appends it under a check of the version of the log. *)
Definition merge_entry (parts : list DataPart) (merged_name : PartName) (dedup : bool)
    (mtype : MergeType) (t : Z) : LogEntry :=
  {| znode_name := None; type := MERGE_PARTS; source_replica := replica_name;
     new_part_name := merged_name; part_checksum := "";
     source_parts := map name parts; merge_type := mtype;
     deduplicate := dedup; quorum := 0%N; detach := false;
     create_time := t; alter_version := -1; block_id := "";
     metadata_str := ""; columns_str := "";
     replace_range_entry := None |}.

(** The entry is made and the version of the log is checked and moved. *)
Definition log_append_ops (entry : LogEntry) (log_version : Z) : list Request :=
  [CreateRequest (log_path ++ [Name "log-"]) (Entry entry) PersistentSequential;
   SetRequest log_path (Text "") log_version].

Definition createLogEntryToMergeParts_append (parts : list DataPart)
    (merged_name : PartName) (dedup : bool) (log_version : Z) (mtype : MergeType)
  : M (CreateMergeEntryResult.t * option LogEntry) :=
  let* t := time in
  let entry := merge_entry parts merged_name dedup mtype t in
  let ops := log_append_ops entry log_version in
  let* (code, responses) := zk_tryMulti ops in
  match code with
  | ZOK =>
      let path_created := default [] (path_created <$> head responses) in
      ret (CreateMergeEntryResult.Ok, Some (set_znode_name (last path_created) entry))
  | ZBADVERSION => ret (CreateMergeEntryResult.LogUpdated, None)
  | _ =>
      check_multi code responses ;;
      ret (CreateMergeEntryResult.Ok, Some entry)
  end.

(** What the loop over the answers does with one part. *)
Definition check_part_in_zk (part_future : DataPart * Result bool) : M bool :=
  let '(part, future) := part_future in
  let* found := future_get future in
  (if negb found then
     let* t := time in
     when (modification_time part
           + MAX_AGE_OF_LOCAL_PART_THAT_WASNT_ADDED_TO_ZOOKEEPER <? t)
       (enqueuePartForCheck (name part))
   else ret tt) ;;
  ret found.

(** The value is the result and, where the source assigns it, the entry
    written to [out_log_entry]. *)
Definition createLogEntryToMergeParts (parts : list DataPart) (merged_name : PartName)
    (dedup : bool) (log_version : Z) (mtype : MergeType)
  : M (CreateMergeEntryResult.t * option LogEntry) :=
  let* exists_futures :=
    map_m (fun part =>
             async (zk_exists (replica_path ++ [Name "parts"; Part (name part)])))
      parts in
  let* in_zk := map_m check_part_in_zk (zip parts exists_futures) in
  let all_in_zk := forallb id in_zk in
  if negb all_in_zk then ret (CreateMergeEntryResult.MissingPart, None)
  else createLogEntryToMergeParts_append parts merged_name dedup log_version mtype.

Definition with_mutation (mutation_version : Z) (i : MergeTreePartInfo)
  : MergeTreePartInfo :=
  {| partition_id := partition_id i; min_block := min_block i;
     max_block := max_block i; level := level i; mutation := mutation_version |}.

Definition mutate_entry (part : DataPart) (mutation_version : Z) (alter_ver : Z) (t : Z)
  : LogEntry :=
  let new_part_info := with_mutation mutation_version (name part) in
  {| znode_name := None; type := MUTATE_PART; source_replica := replica_name;
     new_part_name := new_part_info; part_checksum := "";
     source_parts := [name part]; merge_type := MERGE_REGULAR;
     deduplicate := false; quorum := 0%N; detach := false;
     create_time := t; alter_version := alter_ver; block_id := "";
     metadata_str := ""; columns_str := "";
     replace_range_entry := None |}.

(** The second half of [createLogEntryToMutatePart]. *)
Definition createLogEntryToMutatePart_append (part : DataPart) (mutation_version : Z)
    (alter_ver : Z) (log_version : Z) : M CreateMergeEntryResult.t :=
  let* t := time in
  let entry := mutate_entry part mutation_version alter_ver t in
  let ops := log_append_ops entry log_version in
  let* (code, responses) := zk_tryMulti ops in
  if bool_decide (code = ZBADVERSION) then ret CreateMergeEntryResult.LogUpdated
  else
    check_multi code responses ;;
    ret CreateMergeEntryResult.Ok.

Definition createLogEntryToMutatePart (part : DataPart) (mutation_version : Z)
    (alter_ver : Z) (log_version : Z) : M CreateMergeEntryResult.t :=
  let* found := zk_exists (replica_path ++ [Name "parts"; Part (name part)]) in
  if negb found then
    let* t := time in
    when (modification_time part
          + MAX_AGE_OF_LOCAL_PART_THAT_WASNT_ADDED_TO_ZOOKEEPER <? t)
      (enqueuePartForCheck (name part)) ;;
    ret CreateMergeEntryResult.MissingPart
  else createLogEntryToMutatePart_append part mutation_version alter_ver log_version.

(** ** Block numbers *)

Definition existsNodeCached (p : Path) : M bool :=
  let* cache := gets existing_nodes_cache in
  if bool_decide (p ∈ cache) then ret true
  else
    let* res := zk_exists p in
    when res (modify (fun s => set_existing_nodes_cache (existing_nodes_cache s ++ [p]) s)) ;;
    ret res.

(** Modelled from the spec: the constructor of [EphemeralLockInZooKeeper].
    It makes a holder node under temp/ (together with the checks given, if
    any) and then the sequential node of the lock, whose counter is the
    number. *)
Definition EphemeralLockInZooKeeper_create (path_prefix temp_path : Path)
    (precheck_ops : list Request) : M EphemeralLockInZooKeeper :=
  let holder_path_prefix := temp_path ++ [Name "abandonable_lock-"] in
  let* holder :=
    match precheck_ops with
    | [] => zk_create holder_path_prefix (Text "") EphemeralSequential
    | _ =>
        let* responses :=
          zk_multi (precheck_ops ++
                    [CreateRequest holder_path_prefix (Text "") EphemeralSequential]) in
        ret (default [] (path_created <$> last responses))
    end in
  let* path := zk_create path_prefix (PathText holder) EphemeralSequential in
  ret {| lock_path := path; holder_path := holder |}.

Definition block_numbers_path : Path := zookeeper_path ++ [Name "block_numbers"].
Definition partition_path (pid : string) : Path := block_numbers_path ++ [Name pid].

Definition allocateBlockNumber (pid : string) (zookeeper_block_id_path : option Path)
  : M (option EphemeralLockInZooKeeper) :=
  let deduplication_check_ops :=
    match zookeeper_block_id_path with
    | Some p => [CreateRequest p (Text "") Persistent; RemoveRequest p (-1)]
    | None => []
    end in
  let* cached := existsNodeCached (partition_path pid) in
  (if negb cached then
     let ops := [CreateRequest (partition_path pid) (Text "") Persistent;
                 SetRequest block_numbers_path (Text "") (-1)] in
     let* (code, responses) := zk_tryMulti ops in
     if bool_decide (code ≠ ZOK) && bool_decide (code ≠ ZNODEEXISTS)
     then check_multi code responses
     else ret tt
   else ret tt) ;;
  let ops_of_lock :=
    deduplication_check_ops ++
    [CreateRequest (zookeeper_path ++ [Name "temp"; Name "abandonable_lock-"])
       (Text "") EphemeralSequential] in
  try_catch
    (let* lock :=
       EphemeralLockInZooKeeper_create (partition_path pid ++ [Name "block-"])
         (zookeeper_path ++ [Name "temp"]) deduplication_check_ops in
     ret (Some lock))
    (fun e =>
       match e with
       | KeeperMultiException code failed_op_index =>
           if bool_decide (code = ZNODEEXISTS)
              && bool_decide (is_Some zookeeper_block_id_path
                              ∧ path_of <$> ops_of_lock !! failed_op_index
                                = zookeeper_block_id_path)
           then ret None
           else throw (DBException KEEPER_EXCEPTION)
       | KeeperException _ => throw (DBException KEEPER_EXCEPTION)
       | _ => throw e
       end).

(** The value is the result, [part_info] (the argument, where the source does
    not assign it) and the lock. *)
Definition getFakePartCoveringAllPartsInPartition (pid : string)
    (part_info : MergeTreePartInfo) (for_replace_range : bool)
  : M (bool * MergeTreePartInfo * EphemeralLockInZooKeeper) :=
  let left := 0 in
  let* delimiting_block_lock := allocateBlockNumber pid None in
  match delimiting_block_lock with
  | None => throw (DBException LOGICAL_ERROR)
  | Some lock =>
      let right := Z.of_N (getNumber lock) in
      let mutation_version := MAX_BLOCK_NUMBER in
      if for_replace_range then
        ret (negb (right =? 0),
             {| partition_id := pid; min_block := left; max_block := right;
                level := MAX_LEVEL; mutation := mutation_version |}, lock)
      else if right =? 0 then ret (false, part_info, lock)
      else
        let right := right - 1 in
        ret (true,
             {| partition_id := pid; min_block := left; max_block := right;
                level := MAX_LEVEL; mutation := mutation_version |}, lock)
  end.

(** [MergeTreePartInfo::tryParsePartName] of what a node holds. *)
Definition tryParsePartName (d : Data) : option MergeTreePartInfo :=
  match d with
  | PartNameText p => Some p
  | _ => None
  end.

Definition startsWith (seg : Segment) (prefix : string) : bool :=
  match seg with
  | Name s => String.prefix prefix s
  | _ => false
  end.

Definition getClearBlocksInPartitionOps (pid : string) (min_block_num max_block_num : Z)
  : M (list Request) :=
  let blocks_path := zookeeper_path ++ [Name "blocks"] in
  let* blocks := zk_tryGetChildren blocks_path in
  match blocks with
  | None => throw (DBException NOT_FOUND_NODE)
  | Some blocks =>
      let partition_prefix := pid +:+ "_" in
      let* get_futures :=
        map_m (fun block_id =>
                 let* future := async (zk_tryGet (blocks_path ++ [block_id])) in
                 ret (blocks_path ++ [block_id], future))
          (filter (fun block_id => startsWith block_id partition_prefix = true) blocks) in
      let* ops :=
        map_m (fun '(path, future) =>
                 let* result := future_get future in
                 match result with
                 | None => ret []
                 | Some (d, _) =>
                     match tryParsePartName d with
                     | Some part_info =>
                         if (min_block_num <=? min_block part_info)
                            && (max_block part_info <=? max_block_num)
                         then ret [RemoveRequest path (-1)]
                         else ret []
                     | None => ret [RemoveRequest path (-1)]
                     end
                 end)
          get_futures in
      ret (concat ops)
  end.

Definition clearBlocksInPartition (pid : string) (min_block_num max_block_num : Z)
  : M unit :=
  let* delete_requests := getClearBlocksInPartitionOps pid min_block_num max_block_num in
  zk_tryMulti delete_requests ;;
  ret tt.

(** ** Partition operations *)

Definition alter_partition_version_path : Path :=
  zookeeper_path ++ [Name "alter_partition_version"].

Definition drop_range_entry (entry : LogEntry) (drop_range_fake_part_name : PartName)
    (dtch : bool) (t : Z) : LogEntry :=
  {| znode_name := znode_name entry; type := DROP_RANGE;
     source_replica := replica_name;
     new_part_name := drop_range_fake_part_name;
     part_checksum := part_checksum entry;
     source_parts := source_parts entry; merge_type := merge_type entry;
     deduplicate := deduplicate entry; quorum := quorum entry;
     detach := dtch; create_time := t;
     alter_version := alter_version entry; block_id := block_id entry;
     metadata_str := metadata_str entry; columns_str := columns_str entry;
     replace_range_entry := replace_range_entry entry |}.

(** The multi of [dropAllPartsInPartition]: the entry is made, the version
    of alter_partition_version is checked and moved, the version of the log
    is moved and the lock of the delimiting block number is released. *)
Definition drop_range_ops (entry : LogEntry) (alter_partition_version : Z)
    (delimiting_block_lock : EphemeralLockInZooKeeper) : list Request :=
  [CreateRequest (log_path ++ [Name "log-"]) (Entry entry) PersistentSequential;
   SetRequest alter_partition_version_path (Text "") alter_partition_version;
   SetRequest log_path (Text "") (-1)]
  ++ getUnlockOps delimiting_block_lock.

(** The end of [dropAllPartsInPartition], from the multi on. *)
Definition dropAllPartsInPartition_assign (pid : string) (entry : LogEntry)
    (alter_partition_version : Z) (drop_range_info : MergeTreePartInfo)
    (delimiting_block_lock : EphemeralLockInZooKeeper) : M (bool * LogEntry) :=
  let ops := drop_range_ops entry alter_partition_version delimiting_block_lock in
  let* (code, responses) := zk_tryMulti ops in
  (match code with
   | ZOK => ret tt
   | ZBADVERSION => throw (DBException CANNOT_ASSIGN_ALTER)
   | _ => check_multi code responses
   end) ;;
  let log_znode_path := default [] (path_created <$> head responses) in
  let entry := set_znode_name (last log_znode_path) entry in
  cancelInPartition pid (max_block drop_range_info) ;;
  ret (true, entry).

(** The value is the result and [entry]. *)
Definition dropAllPartsInPartition (pid : string) (entry : LogEntry) (dtch : bool)
  : M (bool * LogEntry) :=
  let* (_, alter_partition_version_stat) := zk_get alter_partition_version_path in
  let* (found, drop_range_info, delimiting_block_lock) :=
    getFakePartCoveringAllPartsInPartition pid MergeTreePartInfo_default false in
  if negb found then ret (false, entry)
  else
    clearBlocksInPartition pid (min_block drop_range_info) (max_block drop_range_info) ;;
    let drop_range_fake_part_name := drop_range_info in
    let* t := time in
    let entry := drop_range_entry entry drop_range_fake_part_name dtch t in
    dropAllPartsInPartition_assign pid entry (version alter_partition_version_stat)
      drop_range_info delimiting_block_lock.


(** ** Repair of a lost replica *)

(** The version of the metadata this replica has applied. *)
Variable metadata_version : Z.

Definition is_lost_path : Path := replica_path ++ [Name "is_lost"].
Definition queue_path : Path := replica_path ++ [Name "queue"].

Definition cloneMetadataIfNeeded (source_replica : Segment) (source_path : Path)
  : M unit :=
  let* r := zk_tryGet (source_path ++ [Name "metadata_version"]) in
  match r with
  | None => ret tt
  | Some (source_metadata_version_str, _) =>
      match parse_number (text_of source_metadata_version_str) with
      | None => throw CANNOT_PARSE
      | Some v =>
          let source_metadata_version := Z.of_N v in
          if metadata_version =? source_metadata_version then ret tt
          else
            let* (source_metadata, source_columns) :=
              retry_loop
                (let* (source_metadata, metadata_stat) :=
                   zk_get (source_path ++ [Name "metadata"]) in
                 let* (source_columns, columns_stat) :=
                   zk_get (source_path ++ [Name "columns"]) in
                 let ops :=
                   [CheckRequest (source_path ++ [Name "metadata"]) (version metadata_stat);
                    CheckRequest (source_path ++ [Name "columns"]) (version columns_stat)] in
                 let* (code, responses) := zk_tryMulti ops in
                 match code with
                 | ZOK => ret (Break (source_metadata, source_columns))
                 | ZBADVERSION => ret Continue
                 | _ => check_multi code responses ;; ret Continue
                 end) in
            let* t := time in
            let dummy_alter :=
              {| znode_name := None; type := ALTER_METADATA;
                 source_replica :=
                   match source_replica with Name r => r | _ => "" end;
                 new_part_name := no_part_name; part_checksum := "";
                 source_parts := []; merge_type := MERGE_REGULAR;
                 deduplicate := false; quorum := 0%N; detach := false;
                 create_time := t; alter_version := source_metadata_version;
                 block_id := ""; metadata_str := text_of source_metadata;
                 columns_str := text_of source_columns;
                 replace_range_entry := None |} in
            zk_create (queue_path ++ [Name "queue-"]) (Entry dummy_alter)
              PersistentSequential ;;
            ret tt
      end
  end.

Definition part_name_of (seg : Segment) : PartName :=
  match seg with
  | Part p => p
  | _ => no_part_name
  end.

Definition tryGetPartCreateTime (replica : Path) (part_name : PartName) : M Z :=
  let* r := zk_tryGet (replica ++ [Name "parts"; Part part_name]) in
  match r with
  | Some (_, stat) => ret (ctime stat ÷ 1000)
  | None => ret 0
  end.

(** The checksum an ATTACH_PART entry asks for: that of the header the source
    replica recorded, or of its checksums node. *)
Definition desired_checksum (source_path : Path) (part_name : PartName) : M string :=
  let part_path := source_path ++ [Name "parts"; Part part_name] in
  let* (part_znode, _) := zk_get part_path in
  if negb (is_empty part_znode) then
    let* h := parse_header part_znode in ret (checksums h)
  else
    let* (desired_checksums_str, _) := zk_get (part_path ++ [Name "checksums"]) in
    ret (text_of desired_checksums_str).

Definition cloneReplica (source_replica : Segment) (source_is_lost_stat : Stat)
  : M unit :=
  let source_path := replicas_path ++ [source_replica] in
  let* source_queue_names :=
    retry_loop
      (let* (raw_log_pointer, log_pointer_stat) :=
         zk_get (source_path ++ [Name "log_pointer"]) in
       let ops :=
         [SetRequest (replica_path ++ [Name "log_pointer"]) raw_log_pointer (-1)]
         ++ (if version source_is_lost_stat =? -1 then
               [CreateRequest (source_path ++ [Name "is_lost"]) (Text "0") Persistent;
                RemoveRequest (source_path ++ [Name "is_lost"]) (-1)]
             else
               [CheckRequest (source_path ++ [Name "is_lost"])
                  (version source_is_lost_stat)]) in
       let* source_queue_names := zk_getChildren (source_path ++ [Name "queue"]) in
       let ops :=
         ops ++ [CheckRequest (source_path ++ [Name "log_pointer"])
                   (version log_pointer_stat)] in
       let* (rc, responses) := zk_tryMulti ops in
       if bool_decide (rc = ZOK) then ret (Break source_queue_names)
       else if bool_decide (rc = ZNODEEXISTS) then
         throw (DBException REPLICA_STATUS_CHANGED)
       else if bool_decide (error <$> responses !! 1%nat = Some ZBADVERSION) then
         throw (DBException REPLICA_STATUS_CHANGED)
       else if bool_decide (error <$> last responses = Some ZBADVERSION) then
         ret Continue
       else check_multi rc responses ;; ret Continue) in
  let source_queue_names := sort_names source_queue_names in
  let* source_queue :=
    map_m (fun entry_name =>
             let* r := zk_tryGet (source_path ++ [Name "queue"; entry_name]) in
             ret (match r with
                  | Some (entry, _) => [entry]
                  | None => []
                  end))
      source_queue_names in
  let source_queue := concat source_queue in
  cloneMetadataIfNeeded source_replica source_path ;;
  let* source_replica_parts := zk_getChildren (source_path ++ [Name "parts"]) in
  let source_names := map part_name_of source_replica_parts in
  let active_parts := ActiveDataPartSet_getParts source_names in
  let* local_parts_in_zk := zk_getChildren (replica_path ++ [Name "parts"]) in
  let parts_to_remove_from_zk :=
    filter (fun part => ActiveDataPartSet_getContainingPart source_names part = None)
      (map part_name_of local_parts_in_zk) in
  let* (_, is_lost_stat_new) := zk_get (source_path ++ [Name "is_lost"]) in
  if bool_decide (version is_lost_stat_new ≠ version source_is_lost_stat) then
    throw (DBException REPLICA_STATUS_CHANGED)
  else
    tryRemovePartsFromZooKeeperWithRetries parts_to_remove_from_zk ;;
    let* local_active_parts :=
      gets (fun s => filter (fun d => state d = Committed) (data_parts s)) in
    let parts_to_remove_from_working_set :=
      filter (fun d => ActiveDataPartSet_getContainingPart source_names (name d) = None)
        local_active_parts in
    (* makeCloneInDetached("clone"): the name of the directory has a prefix
       and does not parse as a part name *)
    when detach_old_local_parts_when_cloning_replica
      (for_each parts_to_remove_from_working_set (fun part =>
         modify (fun s => set_detached
           (detached s ++
            [{| detached_name := None; loads := true;
                detached_columns := columns part;
                detached_checksums := part_checksums part;
                total_checksum_hex := part_checksums part;
                last_modified := now s |}]) s))) ;;
    removePartsFromWorkingSet (map name parts_to_remove_from_working_set) ;;
    for_each active_parts (fun part_name =>
      let* checksum :=
        if negb are_restoring_replica then ret ""
        else desired_checksum source_path part_name in
      let* created := tryGetPartCreateTime source_path part_name in
      let log_entry :=
        {| znode_name := None;
           type := if negb are_restoring_replica then GET_PART else ATTACH_PART;
           source_replica := ""; new_part_name := part_name;
           part_checksum := checksum; source_parts := [];
           merge_type := MERGE_REGULAR; deduplicate := false; quorum := 0%N;
           detach := false; create_time := created; alter_version := -1;
           block_id := ""; metadata_str := ""; columns_str := "";
           replace_range_entry := None |} in
      zk_create (queue_path ++ [Name "queue-"]) (Entry log_entry) PersistentSequential ;;
      ret tt) ;;
    for_each source_queue (fun entry =>
      zk_create (queue_path ++ [Name "queue-"]) entry PersistentSequential ;;
      ret tt).

(** The loop of [cloneReplicaIfNeeded] that chooses the replica to clone:
    not lost, with the least lag. *)
Fixpoint choose_source_replica
    (answers : list (Segment * Result (option (Data * Stat))
                     * Result (option (Data * Stat))
                     * Result (option (Data * Stat))))
    (max_log_entry : Z) (min_replication_lag : Z)
    (source_replica : option Segment) (source_is_lost_stat : Stat)
  : M (option Segment * Stat) :=
  match answers with
  | [] => ret (source_replica, source_is_lost_stat)
  | (source_replica_name, f_is_lost, f_log_pointer, f_queue) :: rest =>
      let* get_is_lost := future_get f_is_lost in
      let* get_log_pointer := future_get f_log_pointer in
      let* get_queue := future_get f_queue in
      let skip :=
        choose_source_replica rest max_log_entry min_replication_lag
          source_replica source_is_lost_stat in
      match get_is_lost, get_log_pointer, get_queue with
      | Some (is_lost_data, is_lost_stat), Some (log_pointer_data, _), Some (_, queue_stat) =>
          if negb (String.eqb (text_of is_lost_data) "0") then skip
          else
            let* source_log_pointer :=
              if is_empty log_pointer_data then ret 0
              else match parse_number (text_of log_pointer_data) with
                   | Some n => ret (Z.of_N n)
                   | None => throw CANNOT_PARSE
                   end in
            let replica_queue_lag := wrap (max_log_entry - source_log_pointer) in
            let replica_queue_size := Z.of_nat (numChildren queue_stat) in
            let replication_lag := wrap (replica_queue_lag + replica_queue_size) in
            if replication_lag <? min_replication_lag then
              choose_source_replica rest max_log_entry replication_lag
                (Some source_replica_name) is_lost_stat
            else skip
      | _, _, _ => skip
      end
  end.

Definition default_stat : Stat :=
  {| version := 0; cversion := 0; ctime := 0; numChildren := 0 |}.

Definition cloneReplicaIfNeeded : M unit :=
  let* r := zk_tryGet is_lost_path in
  match r with
  | None =>
      zk_create is_lost_path (Text "0") Persistent ;;
      ret tt
  | Some (res, is_lost_stat) =>
      if String.eqb (text_of res) "0" then ret tt
      else
        let* replicas := zk_getChildren replicas_path in
        let others :=
          filter (fun source_replica_name => source_replica_name ≠ Name replica_name)
            replicas in
        let* futures :=
          map_m (fun source_replica_name =>
                   let source_replica_path := replicas_path ++ [source_replica_name] in
                   let* a := async (zk_tryGet (source_replica_path ++ [Name "is_lost"])) in
                   let* b := async (zk_tryGet (source_replica_path ++ [Name "log_pointer"])) in
                   let* c := async (zk_tryGet (source_replica_path ++ [Name "queue"])) in
                   ret (source_replica_name, a, b, c))
            others in
        let* log_entries := zk_getChildren log_path in
        let max_log_entry :=
          wrap (Z.of_N (foldr N.max 0%N (map (fun e => sequence_number (Some e)) log_entries))
                + 1) in
        let* (source_replica, source_is_lost_stat) :=
          choose_source_replica futures max_log_entry size_t_max None default_stat in
        match source_replica with
        | None => throw (DBException ALL_REPLICAS_LOST)
        | Some source_replica =>
            zk_removeChildren queue_path ;;
            modify (set_queue []) ;;
            cloneReplica source_replica source_is_lost_stat ;;
            zk_set is_lost_path (Text "0")
        end
  end.

End Replica.


(** * The path of the table in the coordination service *)

(** [std::string::front], [back] and [resize(size() - 1)]. *)
Definition front (s : string) : option Ascii.ascii :=
  match s with
  | EmptyString => None
  | String c _ => Some c
  end.

Fixpoint back (s : string) : option Ascii.ascii :=
  match s with
  | EmptyString => None
  | String c EmptyString => Some c
  | String _ s' => back s'
  end.

Fixpoint pop_back (s : string) : string :=
  match s with
  | EmptyString => EmptyString
  | String c EmptyString => EmptyString
  | String c s' => String c (pop_back s')
  end.

(** [std::string::find] of a character: the first position, if any. *)
Fixpoint string_find (c : Ascii.ascii) (s : string) : option nat :=
  match s with
  | EmptyString => None
  | String a s' => if Ascii.eqb a c then Some 0%nat else S <$> string_find c s'
  end.

Definition normalizeZooKeeperPath (zookeeper_path : string) : string :=
  let zookeeper_path :=
    if bool_decide (zookeeper_path <> EmptyString)
       && bool_decide (back zookeeper_path = Some "/"%char)
    then pop_back zookeeper_path
    else zookeeper_path in
  if bool_decide (zookeeper_path <> EmptyString)
     && bool_decide (front zookeeper_path <> Some "/"%char)
  then String "/" zookeeper_path
  else zookeeper_path.

(** Both functions throw ILLEGAL_TYPE_OF_ARGUMENT, which is [None] here. *)
Definition extractZooKeeperName (path : string) : option string :=
  if bool_decide (path = EmptyString) then None
  else
    match string_find ":" path with
    | Some pos =>
        let zookeeper_name := String.substring 0 pos path in
        if bool_decide (zookeeper_name = EmptyString) then None
        else Some zookeeper_name
    | None => Some "default"%string
    end.

Definition extractZooKeeperPath (path : string) : option string :=
  if bool_decide (path = EmptyString) then None
  else
    match string_find ":" path with
    | Some pos =>
        Some (normalizeZooKeeperPath (String.substring (pos + 1) (String.length path) path))
    | None => Some (normalizeZooKeeperPath path)
    end.



(** * The delay of the replica *)

(** [time_t] is a signed integer of 64 bits; the times here are not
    negative and the differences are taken of a time and a time that is
    not later, so nothing wraps and [Z] is used as it is. *)

(** [getAbsoluteDelay], of the times it reads: the insert time of the
    oldest entry of the queue that is not processed (0: none), the start
    and the end of the last update of the queue (0: never) and the
    clock. *)
Definition getAbsoluteDelay (min_unprocessed_insert_time queue_update_start_time
    queue_update_finish_time current_time : Z) : Z :=
  if queue_update_finish_time =? 0 then current_time
  else if negb (min_unprocessed_insert_time =? 0) then
    (if min_unprocessed_insert_time <? current_time
     then current_time - min_unprocessed_insert_time else 0)
  else if queue_update_finish_time <? queue_update_start_time then
    (if queue_update_start_time <? current_time
     then current_time - queue_update_start_time else 0)
  else 0.

(** [parse<time_t>]: a decimal number with a sign or without, wrapped into
    64 bits. *)
Definition to_time_t (z : Z) : Z := (z + 2 ^ 63) mod 2 ^ 64 - 2 ^ 63.

Definition parse_time_t (s : string) : option Z :=
  match s with
  | String "-" digits => (fun n => to_time_t (- Z.of_N n)) <$> parse_number digits
  | String "+" digits => (fun n => to_time_t (Z.of_N n)) <$> parse_number digits
  | _ => (fun n => to_time_t (Z.of_N n)) <$> parse_number s
  end.

Section Delays.

Variable replica_name : string.
(** The setting is a UInt64; the source casts it to [time_t] where it
    compares. *)
Variable min_relative_delay_to_measure : N.
Variable min_unprocessed_insert_time queue_update_start_time queue_update_finish_time : Z.

(** [assertNotReadonly] throws TABLE_IS_READ_ONLY for a replica that is
    read-only. *)
Variable assertNotReadonly : M unit.

(** The loop of [getReplicaDelays] over the replicas; the value is
    [max_replicas_unprocessed_insert_time] and
    [have_replica_with_nothing_unprocessed]. *)
Fixpoint replicas_unprocessed_insert_time (replicas : list Segment)
    (max_replicas_unprocessed_insert_time : Z) : M (Z * bool) :=
  match replicas with
  | [] => ret (max_replicas_unprocessed_insert_time, false)
  | replica :: rest =>
      if bool_decide (replica = Name replica_name) then
        replicas_unprocessed_insert_time rest max_replicas_unprocessed_insert_time
      else
        let* active := zk_exists (replicas_path ++ [replica; Name "is_active"]) in
        if negb active then
          replicas_unprocessed_insert_time rest max_replicas_unprocessed_insert_time
        else
          let* r :=
            zk_tryGet (replicas_path ++ [replica; Name "min_unprocessed_insert_time"]) in
          match r with
          | None =>
              replicas_unprocessed_insert_time rest max_replicas_unprocessed_insert_time
          | Some (value, _) =>
              let* replica_time :=
                if is_empty value then ret 0
                else match parse_time_t (text_of value) with
                     | Some t => ret t
                     | None => throw CANNOT_PARSE
                     end in
              if replica_time =? 0 then ret (max_replicas_unprocessed_insert_time, true)
              else
                replicas_unprocessed_insert_time rest
                  (if max_replicas_unprocessed_insert_time <? replica_time
                   then replica_time else max_replicas_unprocessed_insert_time)
          end
  end.

(** The value is [out_absolute_delay] and [out_relative_delay]. *)
Definition getReplicaDelays : M (Z * Z) :=
  assertNotReadonly ;;
  let* current_time := time in
  let* clock := time in
  let out_absolute_delay :=
    getAbsoluteDelay min_unprocessed_insert_time queue_update_start_time
      queue_update_finish_time clock in
  if out_absolute_delay <? to_time_t (Z.of_N min_relative_delay_to_measure) then
    ret (out_absolute_delay, 0)
  else
    let* replicas := zk_getChildren replicas_path in
    let* (max_replicas_unprocessed_insert_time, have_replica_with_nothing_unprocessed) :=
      replicas_unprocessed_insert_time replicas 0 in
    if have_replica_with_nothing_unprocessed then
      ret (out_absolute_delay, out_absolute_delay)
    else
      let max_replicas_unprocessed_insert_time :=
        Z.min current_time max_replicas_unprocessed_insert_time in
      let min_replicas_delay := current_time - max_replicas_unprocessed_insert_time in
      if min_replicas_delay <? out_absolute_delay then
        ret (out_absolute_delay, out_absolute_delay - min_replicas_delay)
      else ret (out_absolute_delay, 0).

End Delays.



(** * The last parts written with a quorum *)

Definition cleanLastPartNode_body (partition_id : string) : M (LoopStep unit) :=
  let* (old_added_parts, added_parts_stat) := zk_get quorum_last_part_path in
  let* parts_with_quorum := parse_added_parts old_added_parts in
  if bool_decide (parts_with_quorum !! partition_id = None) then ret (Break tt)
  else
    let new_added_parts := delete partition_id parts_with_quorum in
    let* code :=
      zk_trySet quorum_last_part_path (AddedParts new_added_parts)
        (version added_parts_stat) in
    match code with
    | ZOK => ret (Break tt)
    | ZNONODE => ret (Break tt)
    | ZBADVERSION => ret Continue
    | _ => throw (KeeperException code)
    end.

Definition cleanLastPartNode (partition_id : string) : M unit :=
  retry_loop (cleanLastPartNode_body partition_id).

Definition partIsInsertingWithParallelQuorum (part_info : MergeTreePartInfo) : M bool :=
  zk_exists (zookeeper_path ++ [Name "quorum"; Name "parallel"; Part part_info]).

Definition partIsLastQuorumPart (part_info : MergeTreePartInfo) : M bool :=
  let* (parts_with_quorum_str, _) := zk_get quorum_last_part_path in
  if is_empty parts_with_quorum_str then ret false
  else
    let* parts_with_quorum := parse_added_parts parts_with_quorum_str in
    match parts_with_quorum !! partition_id part_info with
    | None => ret false
    | Some p => ret (bool_decide (p = part_info))
    end.


(** * The replica to fetch a part from *)

Section FindReplica.

Variable replica_name : string.
Variable shuffle : list Segment -> list Segment.

Definition checkReplicaHavePart (replica : Segment) (part_name : PartName) : M bool :=
  zk_exists (replicas_path ++ [replica; Name "parts"; Part part_name]).

(** The loop of [findReplicaHavingPart]; [None] is the empty name the
    source answers when no replica is found. *)
Fixpoint findReplicaHavingPart_loop (part_name : PartName) (active : bool)
    (replicas : list Segment) : M (option Segment) :=
  match replicas with
  | [] => ret None
  | replica :: rest =>
      if bool_decide (replica = Name replica_name) then
        findReplicaHavingPart_loop part_name active rest
      else
        let* have := checkReplicaHavePart replica part_name in
        let* found :=
          if have then
            if negb active then ret true
            else zk_exists (replicas_path ++ [replica; Name "is_active"])
          else ret false in
        if found then ret (Some replica)
        else findReplicaHavingPart_loop part_name active rest
  end.

Definition findReplicaHavingPart (part_name : PartName) (active : bool)
  : M (option Segment) :=
  let* replicas := zk_getChildren replicas_path in
  let replicas := shuffle replicas in
  findReplicaHavingPart_loop part_name active replicas.

End FindReplica.


(** * The removal of a part that is to be fetched again *)

Section RemovePart.

Variable replica_name : string.

(** [ReplicatedMergeTreeQueue::insert], outside the sources. *)
Variable queue_insert : LogEntry -> M unit.

(** [removePartFromZooKeeper(part_name)]. *)
Definition removePartFromZooKeeper_by_name (part_name : PartName) : M unit :=
  let part_path := replica_path replica_name ++ [Name "parts"; Part part_name] in
  let* stat := zk_exists_stat part_path in
  match stat with
  | None => ret tt
  | Some stat =>
      let ops := removePartFromZooKeeper replica_name part_name
                   (bool_decide (0 < numChildren stat)%nat) in
      zk_multi ops ;;
      ret tt
  end.

Definition fetch_entry (part_name : PartName) (part_create_time : Z) : LogEntry :=
  {| znode_name := None; type := GET_PART; source_replica := "";
     new_part_name := part_name; part_checksum := ""; source_parts := [];
     merge_type := MERGE_REGULAR; deduplicate := false; quorum := 0%N;
     detach := false; create_time := part_create_time; alter_version := -1;
     block_id := ""; metadata_str := ""; columns_str := "";
     replace_range_entry := None |}.

(** [removePartAndEnqueueFetch] up to the call of [queue.insert]; the value
    is the entry that is handed to it. *)
Definition removePartAndEnqueueFetch_multi (part_name : PartName) : M LogEntry :=
  let part_path := replica_path replica_name ++ [Name "parts"; Part part_name] in
  let* stat := zk_exists_stat part_path in
  let '(part_create_time, ops) :=
    match stat with
    | Some stat =>
        (ctime stat ÷ 1000,
         removePartFromZooKeeper replica_name part_name
           (bool_decide (0 < numChildren stat)%nat))
    | None => (0, [])
    end in
  let log_entry := fetch_entry part_name part_create_time in
  let ops :=
    ops ++ [CreateRequest (replica_path replica_name ++ [Name "queue"; Name "queue-"])
              (Entry log_entry) PersistentSequential] in
  let* results := zk_multi ops in
  let path_created := default [] (path_created <$> last results) in
  ret (set_znode_name (last path_created) log_entry).

Definition removePartAndEnqueueFetch (part_name : PartName) : M unit :=
  let* log_entry := removePartAndEnqueueFetch_multi part_name in
  queue_insert log_entry.

End RemovePart.

(** * Properties *)

(** ** Reasoning about methods *)

Definition wp {A} (m : M A) (Q : Result A -> Storage -> Prop) (s : Storage) : Prop :=
  Q (m s).1 (m s).2.

Definition lift_post {A B} (k : A -> M B) (Q : Result B -> Storage -> Prop)
  : Result A -> Storage -> Prop :=
  fun r s' =>
    match r with
    | Ok a => wp (k a) Q s'
    | Throw e => Q (Throw e) s'
    | OutOfFuel => Q OutOfFuel s'
    end.

Lemma wp_bind {A B} (m : M A) (k : A -> M B) Q s :
  wp m (lift_post k Q) s -> wp (bind m k) Q s.
Proof. unfold wp, bind, lift_post. destruct (m s) as [[a|e|] s']; simpl; auto. Qed.

Lemma wp_ret {A} (a : A) (Q : Result A -> Storage -> Prop) s : Q (Ok a) s -> wp (ret a) Q s.
Proof. auto. Qed.

Lemma wp_throw {A} e (Q : Result A -> Storage -> Prop) s :
  Q (Throw e) s -> wp (throw e) Q s.
Proof. auto. Qed.

Lemma wp_gets {A} (f : Storage -> A) (Q : Result A -> Storage -> Prop) s :
  Q (Ok (f s)) s -> wp (gets f) Q s.
Proof. auto. Qed.

Lemma wp_modify f (Q : Result unit -> Storage -> Prop) s :
  Q (Ok tt) (f s) -> wp (modify f) Q s.
Proof. auto. Qed.

Lemma wp_mono {A} (m : M A) (Q Q' : Result A -> Storage -> Prop) s :
  (forall r s', Q r s' -> Q' r s') -> wp m Q s -> wp m Q' s.
Proof. unfold wp. auto. Qed.

Lemma wp_eq {A} (m : M A) (Q : Result A -> Storage -> Prop) s r s' :
  m s = (r, s') -> Q r s' -> wp m Q s.
Proof. unfold wp. by intros ->. Qed.

Lemma after_events_app l1 l2 t :
  after_events (l1 ++ l2) t = after_events l2 (after_events l1 t).
Proof. revert t. induction l1 as [|[] l1 IH]; intros t; simpl; auto. Qed.

(** The state after [n] requests that only read. *)
Definition run_events (n : nat) (s : Storage) : Storage :=
  set_schedule (drop n (schedule s))
    (set_zookeeper (after_events (take n (schedule s)) (zookeeper s)) s).

Lemma run_events_0 s : run_events 0 s = s.
Proof. destruct s. unfold run_events. simpl. by rewrite drop_0. Qed.

Lemma run_events_add n m s : run_events m (run_events n s) = run_events (n + m) s.
Proof.
  destruct s as [t sch ? ? ? ? ? ? ? ?].
  unfold run_events, set_schedule, set_zookeeper. simpl.
  rewrite drop_drop. f_equal.
  rewrite <- (take_take_drop sch n m). by rewrite after_events_app.
Qed.

Lemma run_events_nil n s : schedule s = [] -> run_events n s = s.
Proof.
  destruct s. unfold run_events. simpl. intros ->.
  by rewrite drop_nil, take_nil.
Qed.

Lemma length_schedule_run_events k s :
  length (schedule (run_events k s)) = (length (schedule s) - k)%nat.
Proof. unfold run_events. cbn. apply length_drop. Qed.

Lemma set_zookeeper_id s : set_zookeeper (zookeeper s) s = s.
Proof. by destruct s. Qed.

(** The first event of the schedule is not a failure of the request. *)
Definition served (s : Storage) : Prop :=
  forall e, head (schedule s) <> Some (Fail e).

Lemma request_served {A} (f : Tree -> A * Tree) s :
  served s ->
  request f s = (Ok (f (zookeeper (run_events 1 s))).1,
                 set_zookeeper (f (zookeeper (run_events 1 s))).2 (run_events 1 s)).
Proof.
  unfold served, request, run_events. destruct s as [t sch ? ? ? ? ? ? ? ?]; simpl.
  intros Hs.
  destruct sch as [|[| g | e] sch]; simpl in *; try (by destruct (f _)).
  by destruct (Hs e).
Qed.

Lemma request_failed {A} (f : Tree -> A * Tree) s e :
  head (schedule s) = Some (Fail e) ->
  request f s = (Throw (KeeperException e), set_schedule (drop 1 (schedule s)) s).
Proof.
  unfold request. destruct s as [t sch ? ? ? ? ? ? ? ?]; simpl.
  destruct sch as [|[| g | e'] sch]; simpl; try done. by intros [= ->].
Qed.

Lemma served_dec s : served s \/ exists e, head (schedule s) = Some (Fail e).
Proof.
  unfold served. destruct (schedule s) as [|[| g | e] sch]; simpl; eauto; left; congruence.
Qed.

Lemma wp_request {A} (f : Tree -> A * Tree) (Q : Result A -> Storage -> Prop) s :
  (forall e, head (schedule s) = Some (Fail e) ->
     Q (Throw (KeeperException e)) (set_schedule (drop 1 (schedule s)) s)) ->
  (served s ->
   Q (Ok (f (zookeeper (run_events 1 s))).1)
     (set_zookeeper (f (zookeeper (run_events 1 s))).2 (run_events 1 s))) ->
  wp (request f) Q s.
Proof.
  intros Hfail Hok. destruct (served_dec s) as [Hs | [e He]].
  - eapply wp_eq; [by apply request_served|]. by apply Hok.
  - eapply wp_eq; [by apply request_failed|]. by apply Hfail.
Qed.

Lemma wp_tryGet p (Q : Result (option (Data * Stat)) -> Storage -> Prop) s :
  (forall e, head (schedule s) = Some (Fail e) ->
     Q (Throw (KeeperException e)) (set_schedule (drop 1 (schedule s)) s)) ->
  (served s ->
   Q (Ok ((fun n => (data n, stat_of (zookeeper (run_events 1 s)) p n))
            <$> zookeeper (run_events 1 s) !! p))
     (run_events 1 s)) ->
  wp (zk_tryGet p) Q s.
Proof.
  intros Hfail Hok. apply wp_request; [done|]. cbn [fst snd].
  by rewrite set_zookeeper_id.
Qed.

Lemma wp_exists_stat p (Q : Result (option Stat) -> Storage -> Prop) s :
  (forall e, head (schedule s) = Some (Fail e) ->
     Q (Throw (KeeperException e)) (set_schedule (drop 1 (schedule s)) s)) ->
  (served s ->
   Q (Ok (stat_of (zookeeper (run_events 1 s)) p <$> zookeeper (run_events 1 s) !! p))
     (run_events 1 s)) ->
  wp (zk_exists_stat p) Q s.
Proof.
  intros Hfail Hok. apply wp_request; [done|]. cbn [fst snd].
  by rewrite set_zookeeper_id.
Qed.

Lemma wp_exists p (Q : Result bool -> Storage -> Prop) s :
  (forall e, head (schedule s) = Some (Fail e) ->
     Q (Throw (KeeperException e)) (set_schedule (drop 1 (schedule s)) s)) ->
  (served s ->
   Q (Ok (bool_decide (is_Some (zookeeper (run_events 1 s) !! p)))) (run_events 1 s)) ->
  wp (zk_exists p) Q s.
Proof.
  intros Hfail Hok. unfold zk_exists. apply wp_bind, wp_exists_stat; [done|].
  intros Hs. cbn [lift_post]. apply wp_ret.
  replace (bool_decide (is_Some (stat_of (zookeeper (run_events 1 s)) p
                                   <$> zookeeper (run_events 1 s) !! p)))
    with (bool_decide (is_Some (zookeeper (run_events 1 s) !! p))); [by apply Hok|].
  apply bool_decide_ext. by rewrite fmap_is_Some.
Qed.

Lemma wp_get p (Q : Result (Data * Stat) -> Storage -> Prop) s :
  (forall e, head (schedule s) = Some (Fail e) ->
     Q (Throw (KeeperException e)) (set_schedule (drop 1 (schedule s)) s)) ->
  (served s -> zookeeper (run_events 1 s) !! p = None ->
     Q (Throw (KeeperException ZNONODE)) (run_events 1 s)) ->
  (forall n, served s -> zookeeper (run_events 1 s) !! p = Some n ->
     Q (Ok (data n, stat_of (zookeeper (run_events 1 s)) p n)) (run_events 1 s)) ->
  wp (zk_get p) Q s.
Proof.
  intros Hfail Hnone Hsome. unfold zk_get. apply wp_bind, wp_tryGet; [done|].
  intros Hs. cbn [lift_post].
  destruct (zookeeper (run_events 1 s) !! p) as [n|] eqn:E; cbn [fmap option_fmap option_map].
  - by apply wp_ret, Hsome.
  - by apply wp_throw, Hnone.
Qed.

(** The state after the service has answered [code] to the write [ops]. *)
Definition recorded (code : Error) (ops : list Request) (s : Storage) : Storage :=
  match code with
  | ZOK => set_committed (committed s ++ ops) s
  | _ => s
  end.

Lemma wp_record code ops (Q : Result unit -> Storage -> Prop) s :
  Q (Ok tt) (recorded code ops s) -> wp (record code ops) Q s.
Proof. unfold wp, record, recorded. by destruct code. Qed.


Lemma wp_trySet p d v (Q : Result Error -> Storage -> Prop) s :
  (forall e, head (schedule s) = Some (Fail e) ->
     Q (Throw (KeeperException e)) (set_schedule (drop 1 (schedule s)) s)) ->
  (forall r t', served s ->
     apply_request (zookeeper (run_events 1 s)) (SetRequest p d v) = (r, t') ->
     Q (Ok (error r))
       (recorded (error r) [SetRequest p d v] (set_zookeeper t' (run_events 1 s)))) ->
  wp (zk_trySet p d v) Q s.
Proof.
  intros Hfail Hok. unfold zk_trySet. apply wp_bind, wp_request; [done|]. intros Hs.
  destruct (apply_request (zookeeper (run_events 1 s)) (SetRequest p d v)) as [r t'] eqn:E.
  cbn [fst snd lift_post]. apply wp_bind, wp_record. cbn [lift_post].
  by apply wp_ret, Hok.
Qed.

Lemma bind_ok {A B} (m : M A) (k : A -> M B) s a s1 :
  m s = (Ok a, s1) -> bind m k s = k a s1.
Proof. unfold bind. by intros ->. Qed.

Lemma bind_throw {A B} (m : M A) (k : A -> M B) s e s1 :
  m s = (Throw e, s1) -> bind m k s = (Throw e, s1).
Proof. unfold bind. by intros ->. Qed.

Lemma map_m_cons_ok {A B} (f : A -> M B) x l s y s1 ys s2 :
  f x s = (Ok y, s1) -> map_m f l s1 = (Ok ys, s2) ->
  map_m f (x :: l) s = (Ok (y :: ys), s2).
Proof.
  intros Hx Hl. cbn [map_m]. rewrite (bind_ok _ _ _ _ _ Hx).
  by rewrite (bind_ok _ _ _ _ _ Hl).
Qed.

Lemma set_parts_to_check_id s : set_parts_to_check (parts_to_check s) s = s.
Proof. by destruct s. Qed.

Lemma zk_tryMulti_served ops s code resps t' :
  ops <> [] -> served s ->
  multi (zookeeper (run_events 1 s)) ops = (code, resps, t') ->
  zk_tryMulti ops s
  = (Ok (code, resps), recorded code ops (set_zookeeper t' (run_events 1 s))).
Proof.
  intros Hne Hs Hm. unfold zk_tryMulti. destruct ops as [|op ops]; [done|].
  erewrite bind_ok; [|by apply request_served]. cbv beta. rewrite Hm. cbn [fst snd].
  unfold bind, record, recorded, modify, ret. by destruct code.
Qed.

Definition no_failure (ev : Event) : Prop :=
  match ev with
  | Fail _ => False
  | _ => True
  end.

Lemma served_no_failure s n :
  Forall no_failure (take (S n) (schedule s)) -> served s.
Proof.
  unfold served. destruct (schedule s) as [|ev sch]; cbn; [done|].
  intros H e [= ->]. by inversion H.
Qed.

Lemma no_failure_run_events s n :
  Forall no_failure (take (S n) (schedule s)) ->
  Forall no_failure (take n (schedule (run_events 1 s))).
Proof.
  unfold run_events. cbn. destruct (schedule s) as [|ev sch]; cbn.
  - by rewrite take_nil.
  - rewrite drop_0. by inversion 1.
Qed.

Lemma served_run_events n : forall s,
  Forall no_failure (take (S n) (schedule s)) -> served (run_events n s).
Proof.
  induction n as [|n IH]; intros s H.
  - rewrite run_events_0. by eapply served_no_failure.
  - replace (S n) with (1 + n)%nat by lia. rewrite <- run_events_add.
    apply IH. by apply no_failure_run_events.
Qed.

Lemma zk_exists_served p s :
  served s ->
  zk_exists p s = (Ok (bool_decide (is_Some (zookeeper (run_events 1 s) !! p))),
                   run_events 1 s).
Proof.
  intros Hs. unfold zk_exists, zk_exists_stat, bind. rewrite request_served by done.
  cbn [fst snd]. rewrite set_zookeeper_id. unfold ret. f_equal. f_equal.
  apply bool_decide_ext. by rewrite fmap_is_Some.
Qed.

Lemma zk_tryGet_served p s :
  served s ->
  zk_tryGet p s
  = (Ok ((fun n => (data n, stat_of (zookeeper (run_events 1 s)) p n))
           <$> zookeeper (run_events 1 s) !! p), run_events 1 s).
Proof.
  intros Hs. unfold zk_tryGet. rewrite request_served by done.
  cbn [fst snd]. by rewrite set_zookeeper_id.
Qed.


Lemma zk_trySet_served p d v s r t' :
  served s ->
  apply_request (zookeeper (run_events 1 s)) (SetRequest p d v) = (r, t') ->
  zk_trySet p d v s
  = (Ok (error r),
     recorded (error r) [SetRequest p d v] (set_zookeeper t' (run_events 1 s))).
Proof.
  intros Hs Hr. unfold zk_trySet.
  erewrite bind_ok; [|by apply request_served]. cbv beta. rewrite Hr. cbn [fst snd].
  unfold bind, record, recorded, modify, ret. by destruct (error r).
Qed.




#[global] Arguments wp : simpl never.

(** ** The coordination service *)

Lemma lookup_bump_cversion (a : Path) (t : Tree) (q : Path) :
  bump_cversion a t !! q =
    (fun n => {| data := data n; node_version := node_version n;
                 node_cversion := if bool_decide (a = q) then N.succ (node_cversion n)
                                  else node_cversion n;
                 node_ctime := node_ctime n |}) <$> t !! q.
Proof.
  unfold bump_cversion. rewrite lookup_alter.
  case_decide; case_bool_decide; try done; subst.
  - done.
  - by destruct (t !! q) as [[]|].
Qed.

Lemma lookup_bump_cversion_None (a : Path) (t : Tree) (q : Path) :
  bump_cversion a t !! q = None <-> t !! q = None.
Proof. rewrite lookup_bump_cversion. by destruct (t !! q). Qed.

Lemma version_ok_refl n : version_ok n (node_version n) = true.
Proof. unfold version_ok. rewrite Z.eqb_refl. apply orb_true_r. Qed.

Lemma multi_not_ok (t : Tree) ops code resps t' :
  multi t ops = (code, resps, t') -> code <> ZOK -> t' = t.
Proof.
  unfold multi. destruct (apply_requests t ops) as [[c r] t1].
  destruct c; intros [= <- <- <-]; congruence.
Qed.



Lemma apply_set (t : Tree) (p : Path) d v r t' :
  apply_request t (SetRequest p d v) = (r, t') ->
  match error r with
  | ZOK => exists n, t !! p = Some n /\ version_ok n v = true /\
             t' = <[p := {| data := d; node_version := node_version n + 1;
                            node_cversion := node_cversion n;
                            node_ctime := node_ctime n |}]> t
  | ZNONODE => t !! p = None /\ t' = t
  | ZBADVERSION => exists n, t !! p = Some n /\ version_ok n v = false /\ t' = t
  | _ => False
  end.
Proof.
  cbn. destruct (t !! p) as [n|] eqn:Hp.
  2:{ by intros [= <- <-]. }
  destruct (version_ok n v) eqn:Hv; cbn; intros [= <- <-]; cbn; eauto.
Qed.

Lemma multi_conflict (t : Tree) ops resps t' :
  multi t ops = (ZBADVERSION, resps, t') -> t' = t.
Proof. intros H. by eapply multi_not_ok. Qed.

(** ** What a method writes *)

(** Every write of the method that the service carries out satisfies [P]. *)
Definition writes {A} (P : Request -> Prop) (m : M A) : Prop :=
  forall s, exists l, committed (m s).2 = committed s ++ l /\ Forall P l.

Create HintDb writes discriminated.

Lemma writes_ret {A} P (a : A) : writes P (ret a).
Proof. intros s. exists []. by rewrite app_nil_r. Qed.

Lemma writes_throw {A} P e : writes P (@throw A e).
Proof. intros s. exists []. by rewrite app_nil_r. Qed.

Lemma writes_gets {A} P (f : Storage -> A) : writes P (gets f).
Proof. intros s. exists []. by rewrite app_nil_r. Qed.

Lemma writes_future_get {A} P (r : Result A) : writes P (future_get r).
Proof. intros s. exists []. by rewrite app_nil_r. Qed.

Lemma writes_modify P f :
  (forall s, committed (f s) = committed s) -> writes P (modify f).
Proof. intros Hf s. exists []. cbn. by rewrite app_nil_r. Qed.

Lemma writes_bind {A B} P (m : M A) (k : A -> M B) :
  writes P m -> (forall a, writes P (k a)) -> writes P (bind m k).
Proof.
  intros Hm Hk s. unfold bind. destruct (Hm s) as (l1 & E1 & H1).
  destruct (m s) as [[a|e|] s1]; cbn in *; eauto.
  destruct (Hk a s1) as (l2 & E2 & H2).
  exists (l1 ++ l2). rewrite E2, E1, app_assoc. split; [done|]. by apply Forall_app.
Qed.

Lemma writes_try_catch {A} P (m : M A) handler :
  writes P m -> (forall e, writes P (handler e)) -> writes P (try_catch m handler).
Proof.
  intros Hm Hh s. unfold try_catch. destruct (Hm s) as (l1 & E1 & H1).
  destruct (m s) as [[a|e|] s1]; cbn in *; eauto.
  destruct (Hh e s1) as (l2 & E2 & H2).
  exists (l1 ++ l2). rewrite E2, E1, app_assoc. split; [done|]. by apply Forall_app.
Qed.

Lemma writes_async {A} P (m : M A) : writes P m -> writes P (async m).
Proof.
  intros Hm s. unfold async. destruct (Hm s) as (l1 & E1 & H1).
  destruct (m s) as [r s1]; cbn in *; eauto.
Qed.

Lemma writes_when P b m : writes P m -> writes P (when b m).
Proof. destruct b; cbn; [done|]. intros _. apply writes_ret. Qed.

Lemma writes_for_each {A} P (l : list A) body :
  (forall x, writes P (body x)) -> writes P (for_each l body).
Proof.
  intros Hb. induction l as [|x l IH]; cbn [for_each].
  - apply writes_ret.
  - apply writes_bind; [apply Hb | by intros _].
Qed.

Lemma writes_map_m {A B} P (f : A -> M B) (l : list A) :
  (forall x, writes P (f x)) -> writes P (map_m f l).
Proof.
  intros Hf. induction l as [|x l IH]; cbn [map_m].
  - apply writes_ret.
  - apply writes_bind; [apply Hf|]. intros y.
    apply writes_bind; [apply IH|]. intros ys. apply writes_ret.
Qed.

Lemma writes_while_true {A} P fuel (body : M (LoopStep A)) :
  writes P body -> writes P (while_true fuel body).
Proof.
  intros Hb. induction fuel as [|fuel IH]; cbn [while_true].
  - intros s. exists []. by rewrite app_nil_r.
  - apply writes_bind; [done|]. intros [a|]; [apply writes_ret | done].
Qed.

Lemma writes_retry_loop {A} P (body : M (LoopStep A)) :
  writes P body -> writes P (retry_loop body).
Proof. intros Hb s. unfold retry_loop. by apply writes_while_true. Qed.

Lemma writes_request {A} (P : Request -> Prop) (f : Tree -> A * Tree) :
  writes P (request f).
Proof.
  intros s. exists []. rewrite app_nil_r. unfold request.
  destruct (schedule s) as [|[| g | e] sch]; cbn; try done; by destruct (f _).
Qed.

Lemma writes_record P code ops : Forall P ops -> writes P (record code ops).
Proof.
  intros Hops s. unfold record.
  destruct code; try (exists []; by rewrite app_nil_r).
  exists ops. done.
Qed.

#[global] Hint Resolve writes_ret writes_throw writes_gets writes_future_get
  writes_request writes_record : writes.

Lemma writes_exists_stat P p : writes P (zk_exists_stat p).
Proof. apply writes_request. Qed.

Lemma writes_exists P p : writes P (zk_exists p).
Proof. apply writes_bind; [apply writes_request|]. intros ?. apply writes_ret. Qed.

Lemma writes_tryGet P p : writes P (zk_tryGet p).
Proof. apply writes_request. Qed.

Lemma writes_get P p : writes P (zk_get p).
Proof.
  apply writes_bind; [apply writes_request|]. intros [x|]; auto with writes.
Qed.

Lemma writes_tryGetChildren P p : writes P (zk_tryGetChildren p).
Proof. apply writes_request. Qed.

Lemma writes_getChildren P p : writes P (zk_getChildren p).
Proof.
  apply writes_bind; [apply writes_request|]. intros [x|]; auto with writes.
Qed.

Lemma writes_tryMulti P ops : Forall P ops -> writes P (zk_tryMulti ops).
Proof.
  intros Hops. unfold zk_tryMulti. destruct ops as [|op ops]; [apply writes_ret|].
  apply writes_bind; [apply writes_request|]. intros [code resps].
  apply writes_bind; [by apply writes_record|]. intros _. apply writes_ret.
Qed.

Lemma writes_check_multi P code resps : writes P (check_multi code resps).
Proof. destruct code; cbn; auto with writes. Qed.

Lemma writes_multi P ops : Forall P ops -> writes P (zk_multi ops).
Proof.
  intros Hops. apply writes_bind; [by apply writes_tryMulti|]. intros [code resps].
  apply writes_bind; [apply writes_check_multi|]. intros _. apply writes_ret.
Qed.

Lemma writes_tryMultiNoThrow P ops : Forall P ops -> writes P (zk_tryMultiNoThrow ops).
Proof.
  intros Hops. apply writes_try_catch.
  - apply writes_bind; [by apply writes_tryMulti|]. intros [code resps]. apply writes_ret.
  - intros []; auto with writes.
Qed.

Lemma writes_trySet P p d v : P (SetRequest p d v) -> writes P (zk_trySet p d v).
Proof.
  intros HP. apply writes_bind; [apply writes_request|]. intros code.
  apply writes_bind; [apply writes_record; by constructor|]. intros _. apply writes_ret.
Qed.

Lemma writes_set P p d : P (SetRequest p d (-1)) -> writes P (zk_set p d).
Proof.
  intros HP. apply writes_bind; [by apply writes_trySet|].
  intros []; auto with writes.
Qed.

Lemma writes_create P p d mode : P (CreateRequest p d mode) -> writes P (zk_create p d mode).
Proof.
  intros HP. apply writes_bind; [apply writes_request|]. intros r.
  apply writes_bind; [apply writes_record; by constructor|]. intros _.
  destruct (error r); auto with writes.
Qed.

Lemma writes_removeChildren P p :
  (forall c v, P (RemoveRequest (p ++ [c]) v)) -> writes P (zk_removeChildren p).
Proof.
  intros HP. apply writes_bind; [apply writes_getChildren|]. intros [|c l].
  - apply writes_ret.
  - apply writes_bind; [|intros; apply writes_ret]. apply writes_multi.
    apply Forall_map, Forall_forall. intros x _. apply HP.
Qed.

#[global] Hint Resolve writes_exists_stat writes_exists writes_tryGet writes_get
  writes_tryGetChildren writes_getChildren writes_check_multi : writes.

Ltac writes_step :=
  first
    [ progress intros
    | apply writes_ret | apply writes_throw | apply writes_gets
    | apply writes_future_get
    | apply writes_exists | apply writes_exists_stat | apply writes_tryGet
    | apply writes_get | apply writes_getChildren | apply writes_tryGetChildren
    | apply writes_check_multi
    | apply writes_tryMulti | apply writes_multi | apply writes_tryMultiNoThrow
    | apply writes_trySet | apply writes_set | apply writes_create
    | apply writes_removeChildren
    | apply writes_modify; reflexivity
    | apply writes_bind | apply writes_try_catch | apply writes_async
    | apply writes_when | apply writes_for_each | apply writes_map_m
    | apply writes_retry_loop | apply writes_while_true
    | match goal with
      | |- writes _ (match ?x with _ => _ end) => destruct x
      end ].

Ltac solve_writes := repeat writes_step.


(** ** Quorum tracking *)





Lemma parse_added_parts_cases d :
  (exists old, parse_added_parts d = ret old) \/ parse_added_parts d = throw CANNOT_PARSE.
Proof. destruct d as [[|]| | | | | |]; cbn; eauto. Qed.







(** *** A run of [updateQuorum] *)

Definition node (d : Data) (v : Z) : ZNode :=
  {| data := d; node_version := v; node_cversion := 0; node_ctime := 0 |}.

Definition storage_of (t : Tree) (sch : list Event) (parts : list DataPart) : Storage :=
  {| zookeeper := t; schedule := sch; committed := []; data_parts := parts;
     detached := []; queue := []; parts_to_check := []; cancelled_merges := [];
     existing_nodes_cache := []; now := 1000 |}.

Definition part_5 : PartName :=
  {| partition_id := "p"; min_block := 5; max_block := 5; level := 0; mutation := 0 |}.

Definition entry_5 : ReplicatedMergeTreeQuorumEntry :=
  {| part_name := part_5; required_number_of_replicas := 2; replicas := {["r1"]} |}.

Definition quorum_tree (is_parallel : bool) : Tree :=
  list_to_map
    [([], node (Text "") 0);
     ([Name "quorum"], node (Text "") 0);
     ([Name "quorum"; Name "parallel"], node (Text "") 0);
     ([Name "quorum"; Name "last_part"], node (Text "") 3);
     (quorum_status_path part_5 is_parallel, node (QuorumStatus entry_5) 7)].

(** The second confirmation of an insert that is not parallel removes the
    entry and records the part. *)
Example updateQuorum_records_last_part :
  let s := storage_of (quorum_tree false) [] [] in
  let r := updateQuorum "r2" part_5 false s in
  r.1 = Ok tt /\
  zookeeper r.2 !! quorum_status_path part_5 false = None /\
  data <$> zookeeper r.2 !! quorum_last_part_path = Some (AddedParts {["p" := part_5]}) /\
  node_version <$> zookeeper r.2 !! quorum_last_part_path = Some 4.
Proof. vm_compute. repeat split; reflexivity. Qed.

(** A confirmation below the required number only registers the replica. *)
Example updateQuorum_registers_replica :
  let t := <[quorum_status_path part_5 false :=
               node (QuorumStatus {| part_name := part_5;
                                     required_number_of_replicas := 3;
                                     replicas := {["r1"]} |}) 7]> (quorum_tree false) in
  let r := updateQuorum "r2" part_5 false (storage_of t [] []) in
  r.1 = Ok tt /\
  (exists q, data <$> zookeeper r.2 !! quorum_status_path part_5 false
             = Some (QuorumStatus q) /\ "r2" ∈ replicas q /\ "r1" ∈ replicas q) /\
  zookeeper r.2 !! quorum_last_part_path = quorum_tree false !! quorum_last_part_path.
Proof.
  vm_compute. split; [reflexivity|]. split; [|reflexivity].
  eexists. split; [reflexivity|]. cbn. split; set_solver.
Qed.

(** Another replica confirms between the read and the write of this one: the
    write meets a conflict, the entry is read again and the second pass
    reaches the quorum. *)
Example updateQuorum_retries_after_conflict :
  let t := <[quorum_status_path part_5 false :=
               node (QuorumStatus {| part_name := part_5;
                                     required_number_of_replicas := 3;
                                     replicas := {["r1"]} |}) 7]> (quorum_tree false) in
  let other (t : Tree) : Tree :=
    <[quorum_status_path part_5 false :=
        node (QuorumStatus {| part_name := part_5;
                              required_number_of_replicas := 3;
                              replicas := {["r1"; "r3"]} |}) 8]> t in
  let r := updateQuorum "r2" part_5 false (storage_of t [Quiet; Interfere other] []) in
  r.1 = Ok tt /\
  zookeeper r.2 !! quorum_status_path part_5 false = None /\
  data <$> zookeeper r.2 !! quorum_last_part_path = Some (AddedParts {["p" := part_5]}).
Proof. vm_compute. repeat split; reflexivity. Qed.


(** ** Merge and mutation selection *)

Section Selection.

Variable replica_name : string.
Variable MAX_AGE : Z.

Definition part_path (n : PartName) : Path :=
  replica_path replica_name ++ [Name "parts"; Part n].

(** Whether each part is registered when the request about it is served:
    the request about the i-th part is the (i+1)-th of the method. *)
Fixpoint present_flags (parts : list DataPart) (s : Storage) : list bool :=
  match parts with
  | [] => []
  | part :: rest =>
      bool_decide (is_Some (zookeeper (run_events 1 s) !! part_path (name part)))
      :: present_flags rest (run_events 1 s)
  end.

(** The parts found absent that are older than the threshold. *)
Fixpoint stale_absent (parts : list DataPart) (flags : list bool) (t : Z)
  : list PartName :=
  match parts, flags with
  | part :: rest, found :: flags' =>
      (if negb found && (modification_time part + MAX_AGE <? t) then [name part] else [])
      ++ stale_absent rest flags' t
  | _, _ => []
  end.

Lemma length_present_flags parts s : length (present_flags parts s) = length parts.
Proof. revert s. induction parts as [|part rest IH]; intros s; cbn; auto. Qed.

Lemma async_exists_all parts : forall s,
  Forall no_failure (take (length parts) (schedule s)) ->
  map_m (fun part => async (zk_exists (part_path (name part)))) parts s
  = (Ok (map Ok (present_flags parts s)), run_events (length parts) s).
Proof.
  induction parts as [|part rest IH]; intros s Hs.
  - cbn. by rewrite run_events_0.
  - cbn [map_m length present_flags map]. unfold bind at 1. unfold async at 1.
    rewrite zk_exists_served by (by eapply served_no_failure).
    unfold bind at 1. rewrite IH by (by apply no_failure_run_events).
    rewrite run_events_add. reflexivity.
Qed.

Lemma check_part_ok part found s :
  check_part_in_zk MAX_AGE (part, Ok found) s
  = (Ok found,
     set_parts_to_check
       (parts_to_check s ++
        (if negb found && (modification_time part + MAX_AGE <? now s)
         then [name part] else [])) s).
Proof.
  unfold check_part_in_zk, future_get, bind, time, gets, when, enqueuePartForCheck, modify, ret.
  destruct found; cbn.
  - by rewrite app_nil_r, set_parts_to_check_id.
  - destruct (modification_time part + MAX_AGE <? now s) eqn:E; cbn; [done|].
    by rewrite app_nil_r, set_parts_to_check_id.
Qed.

Lemma check_parts_all parts : forall flags s,
  length flags = length parts ->
  map_m (check_part_in_zk MAX_AGE) (zip parts (map Ok flags)) s
  = (Ok flags,
     set_parts_to_check (parts_to_check s ++ stale_absent parts flags (now s)) s).
Proof.
  induction parts as [|part rest IH]; intros [|found flags] s Hlen; try done.
  - cbn. by rewrite app_nil_r, set_parts_to_check_id.
  - injection Hlen as Hlen.
    cbn [map zip zip_with stale_absent].
    erewrite map_m_cons_ok; [reflexivity|apply check_part_ok|].
    rewrite IH by done. cbn. by rewrite <- app_assoc.
Qed.

Lemma present_flags_all parts : forall s,
  forallb id (present_flags parts s) = true ->
  Forall (fun part =>
            exists k, (1 <= k <= length parts)%nat /\
              is_Some (zookeeper (run_events k s) !! part_path (name part))) parts.
Proof.
  induction parts as [|part rest IH]; intros s Hall; [constructor|].
  cbn in Hall. apply andb_prop in Hall as [H1 H2]. constructor.
  - exists 1%nat. cbn [length]. split; [lia|]. by apply bool_decide_eq_true in H1.
  - eapply Forall_impl; [apply (IH _ H2)|].
    intros p (k & Hk & Hp). exists (S k). cbn [length]. split; [lia|].
    by rewrite run_events_add in Hp.
Qed.

Definition after_checks (parts : list DataPart) (s : Storage) : Storage :=
  set_parts_to_check
    (parts_to_check s ++ stale_absent parts (present_flags parts s) (now s))
    (run_events (length parts) s).

Lemma createLogEntryToMergeParts_checks parts merged dedup log_version mtype s :
  Forall no_failure (take (length parts) (schedule s)) ->
  createLogEntryToMergeParts replica_name MAX_AGE parts merged dedup log_version mtype s
  = if forallb id (present_flags parts s)
    then createLogEntryToMergeParts_append replica_name parts merged dedup log_version mtype
           (after_checks parts s)
    else (Ok (CreateMergeEntryResult.MissingPart, None), after_checks parts s).
Proof.
  intros Hs. unfold createLogEntryToMergeParts.
  erewrite bind_ok; [|by apply async_exists_all].
  erewrite bind_ok; [|apply check_parts_all, length_present_flags].
  unfold after_checks. by destruct (forallb id (present_flags parts s)).
Qed.

Lemma createLogEntryToMutatePart_checks part mutation_version alter_ver log_version s :
  served s ->
  createLogEntryToMutatePart replica_name MAX_AGE part mutation_version alter_ver
    log_version s
  = if bool_decide (is_Some (zookeeper (run_events 1 s) !! part_path (name part)))
    then createLogEntryToMutatePart_append replica_name part mutation_version alter_ver
           log_version (run_events 1 s)
    else (Ok CreateMergeEntryResult.MissingPart, after_checks [part] s).
Proof.
  intros Hs. unfold createLogEntryToMutatePart.
  erewrite bind_ok; [|by apply zk_exists_served].
  unfold after_checks. cbn [present_flags stale_absent length].
  fold (part_path (name part)).
  destruct (bool_decide (is_Some (zookeeper (run_events 1 s) !! part_path (name part))));
    cbn [negb andb]; [done|].
  unfold bind, time, gets, when, enqueuePartForCheck, modify, ret. cbn.
  destruct (modification_time part + MAX_AGE <? now s); cbn; [done|].
  rewrite !app_nil_r. by destruct s.
Qed.

(** C5.  The requests about the source parts are served and at least one
    part is found absent: [createLogEntryToMergeParts] (and, for its one
    part, [createLogEntryToMutatePart]) answers MissingPart in the state in
    which only the reads have happened, with the absent parts older than
    the threshold queued for a check: nothing was written, so no entry is in
    the log.  Hence a result other than MissingPart means that every source
    part was found registered under the parts of this replica. *)
Theorem selection_verifies_source_parts
    parts merged dedup part mutation_version alter_ver log_version mtype s :
  Forall no_failure (take (length parts) (schedule s)) ->
  served s ->
  let merge :=
    createLogEntryToMergeParts replica_name MAX_AGE parts merged dedup log_version
      mtype s in
  let mutate :=
    createLogEntryToMutatePart replica_name MAX_AGE part mutation_version alter_ver
      log_version s in
  (forallb id (present_flags parts s) = false ->
     merge = (Ok (CreateMergeEntryResult.MissingPart, None), after_checks parts s))
  /\ (forall r e s', merge = (Ok (r, e), s') -> r <> CreateMergeEntryResult.MissingPart ->
       Forall (fun part =>
                 exists k, (1 <= k <= length parts)%nat /\
                   is_Some (zookeeper (run_events k s) !! part_path (name part))) parts)
  /\ (zookeeper (run_events 1 s) !! part_path (name part) = None ->
       mutate = (Ok CreateMergeEntryResult.MissingPart, after_checks [part] s))
  /\ (forall r s', mutate = (Ok r, s') -> r <> CreateMergeEntryResult.MissingPart ->
       is_Some (zookeeper (run_events 1 s) !! part_path (name part)))
  /\ committed (after_checks parts s) = committed s
  /\ zookeeper (after_checks parts s)
      = after_events (take (length parts) (schedule s)) (zookeeper s)
  /\ parts_to_check (after_checks parts s)
      = parts_to_check s ++ stale_absent parts (present_flags parts s) (now s).
Proof.
  intros Hs Hserved merge mutate. subst merge mutate.
  rewrite createLogEntryToMergeParts_checks by done.
  rewrite createLogEntryToMutatePart_checks by done.
  repeat split.
  - by intros ->.
  - intros r e s'. destruct (forallb id (present_flags parts s)) eqn:Hall.
    + intros _ _. by apply present_flags_all.
    + intros [= <- <- <-]. done.
  - intros ->. by rewrite bool_decide_false by (by intros [? ?]).
  - intros r s'. case_bool_decide as Hp; [done|]. by intros [= <- <-].
Qed.

Lemma createLogEntryToMergeParts_log_updated parts merged dedup log_version mtype s resps t' :
  Forall no_failure (take (S (length parts)) (schedule s)) ->
  forallb id (present_flags parts s) = true ->
  multi (zookeeper (run_events (S (length parts)) s))
    (log_append_ops (merge_entry replica_name parts merged dedup mtype (now s)) log_version)
  = (ZBADVERSION, resps, t') ->
  createLogEntryToMergeParts replica_name MAX_AGE parts merged dedup log_version mtype s
  = (Ok (CreateMergeEntryResult.LogUpdated, None), run_events 1 (after_checks parts s)).
Proof.
  intros Hs Hall Hm.
  rewrite createLogEntryToMergeParts_checks, Hall.
  2:{ replace (take (length parts) (schedule s))
        with (take (length parts) (take (S (length parts)) (schedule s))).
      - by apply Forall_take.
      - rewrite take_take. f_equal. lia. }
  unfold createLogEntryToMergeParts_append, time.
  erewrite bind_ok; [|reflexivity].
  assert (served (after_checks parts s)) as Hserved.
  { apply served_run_events in Hs. exact Hs. }
  assert (zookeeper (run_events 1 (after_checks parts s))
          = zookeeper (run_events (S (length parts)) s)) as Ht.
  { unfold after_checks. replace (S (length parts)) with (length parts + 1)%nat by lia.
    by rewrite <- run_events_add. }
  erewrite bind_ok.
  2:{ apply zk_tryMulti_served; [done|done|]. rewrite Ht. cbn [now after_checks].
      exact Hm. }
  apply multi_conflict in Hm as ->. cbn [recorded]. rewrite <- Ht, set_zookeeper_id.
  reflexivity.
Qed.

Lemma dropAllPartsInPartition_assign_conflict pid entry v info lock s resps t' :
  served s ->
  multi (zookeeper (run_events 1 s)) (drop_range_ops entry v lock)
  = (ZBADVERSION, resps, t') ->
  dropAllPartsInPartition_assign pid entry v info lock s
  = (Throw (DBException CANNOT_ASSIGN_ALTER), run_events 1 s).
Proof.
  intros Hs Hm. unfold dropAllPartsInPartition_assign.
  erewrite bind_ok; [|by apply zk_tryMulti_served].
  apply multi_conflict in Hm as ->. cbn [recorded]. by rewrite set_zookeeper_id.
Qed.

(** C6 (as amended).  A multi that loses a race on a version is answered
    ZBADVERSION and changes nothing.  In merge selection the method then
    returns LogUpdated, with no exception, in the state in which only the
    reads have happened.  In [dropAllPartsInPartition] the method throws
    CANNOT_ASSIGN_ALTER at once, without a second attempt: the state is the
    one in which the multi was refused. *)
Theorem version_conflict_outcomes
    parts merged dedup log_version mtype s resps t'
    pid entry v info lock s2 resps2 t2 :
  Forall no_failure (take (S (length parts)) (schedule s)) ->
  forallb id (present_flags parts s) = true ->
  multi (zookeeper (run_events (S (length parts)) s))
    (log_append_ops (merge_entry replica_name parts merged dedup mtype (now s)) log_version)
  = (ZBADVERSION, resps, t') ->
  served s2 ->
  multi (zookeeper (run_events 1 s2)) (drop_range_ops entry v lock)
  = (ZBADVERSION, resps2, t2) ->
  createLogEntryToMergeParts replica_name MAX_AGE parts merged dedup log_version mtype s
  = (Ok (CreateMergeEntryResult.LogUpdated, None), run_events 1 (after_checks parts s))
  /\ committed (run_events 1 (after_checks parts s)) = committed s
  /\ dropAllPartsInPartition_assign pid entry v info lock s2
     = (Throw (DBException CANNOT_ASSIGN_ALTER), run_events 1 s2)
  /\ committed (run_events 1 s2) = committed s2.
Proof.
  intros Hs Hall Hm Hs2 Hm2. repeat split.
  - by eapply createLogEntryToMergeParts_log_updated.
  - by eapply dropAllPartsInPartition_assign_conflict.
Qed.

End Selection.

(** ** Replay of a log entry *)

Definition part_producing (ty : LogEntryType) : Prop :=
  ty = GET_PART \/ ty = ATTACH_PART \/ ty = MERGE_PARTS \/ ty = MUTATE_PART.

(** The part of the working set that makes an entry a candidate for the
    skip: the part itself if it is PreCommitted, else an active part that
    covers it. *)
Definition existing_part (entry : LogEntry) (s : Storage) : option DataPart :=
  match find (fun d => bool_decide (name d = new_part_name entry)
                       && bool_decide (state d ∈ [PreCommitted])) (data_parts s) with
  | Some d => Some d
  | None =>
      find (fun d => bool_decide (state d = Committed)
                     && contains (name d) (new_part_name entry)) (data_parts s)
  end.

Section Replay.

Variable replica_name : string.
Variable use_minimalistic_part_header_in_zookeeper : bool.
Variable max_retries : nat.
Variable getColumnsHash : string -> string.
Variable shuffle : list Segment -> list Segment.
Variable executeReplaceRange_parts :
  LogEntry -> bool -> MergeTreePartInfo -> list PartName -> M bool.
Variable removePartProducingOpsInRange : MergeTreePartInfo -> LogEntry -> M unit.
Variable executeDropRange : LogEntry -> M unit.
Variable executeFetch : LogEntry -> M bool.
Variable executeMetadataAlter : LogEntry -> M bool.
Variable syncPinnedPartUUIDs : M unit.
Variable executeClonePartFromShard : LogEntry -> M unit.

Let execute := executeLogEntry replica_name use_minimalistic_part_header_in_zookeeper
  max_retries getColumnsHash shuffle executeReplaceRange_parts
  removePartProducingOpsInRange executeDropRange executeFetch executeMetadataAlter
  syncPinnedPartUUIDs executeClonePartFromShard.

Let execute_rest := executeLogEntry_execute replica_name
  use_minimalistic_part_header_in_zookeeper getColumnsHash shuffle executeFetch
  executeMetadataAlter syncPinnedPartUUIDs executeClonePartFromShard.

Let registered_path (d : DataPart) : Path :=
  replica_path replica_name ++ [Name "parts"; Part (name d)].

Lemma already_present_found entry d s :
  existing_part entry s = Some d -> served s ->
  already_present replica_name entry s
  = (Ok (bool_decide (is_Some (zookeeper (run_events 1 s) !! registered_path d))),
     run_events 1 s).
Proof.
  unfold existing_part, already_present, getPartIfExists, getActiveContainingPart.
  intros Hd Hs. unfold bind at 1. unfold gets at 1.
  destruct (find _ (data_parts s)) as [d'|] eqn:Hpre.
  - injection Hd as ->. unfold bind, ret at 1. by apply zk_exists_served.
  - unfold bind, gets. rewrite Hd. by apply zk_exists_served.
Qed.


Lemma executeLogEntry_part_producing entry s :
  part_producing (type entry) ->
  execute entry s
  = (let* skip := already_present replica_name entry in
     if skip then ret true else execute_rest entry) s.
Proof.
  unfold execute, executeLogEntry, part_producing.
  intros [H | [H | [H | H]]]; rewrite H; reflexivity.
Qed.

(** C1 (as amended).  A part-producing entry whose part the replica holds
    (PreCommitted, or covered by an active part) and has registered under
    its parts in the coordination service is skipped: [executeLogEntry]
    returns true after the one request that looks the part up, and the
    working set is as it was.  Replayed in the state so reached, with the
    part still registered, the entry is skipped again: the working set
    after two replays is the one after one. *)
Theorem executeLogEntry_skips_registered_part entry d s :
  part_producing (type entry) ->
  existing_part entry s = Some d ->
  served s ->
  is_Some (zookeeper (run_events 1 s) !! registered_path d) ->
  execute entry s = (Ok true, run_events 1 s)
  /\ data_parts (execute entry s).2 = data_parts s
  /\ (served (run_events 1 s) ->
      is_Some (zookeeper (run_events 2 s) !! registered_path d) ->
      execute entry (execute entry s).2 = (Ok true, run_events 2 s)
      /\ data_parts (execute entry (execute entry s).2).2
         = data_parts (execute entry s).2).
Proof.
  intros Hty Hd Hs Hreg.
  assert (forall s0, existing_part entry s0 = Some d -> served s0 ->
            is_Some (zookeeper (run_events 1 s0) !! registered_path d) ->
            execute entry s0 = (Ok true, run_events 1 s0)) as Hskip.
  { intros s0 Hd0 Hs0 Hreg0. rewrite executeLogEntry_part_producing by done.
    erewrite bind_ok; [|by apply already_present_found].
    by rewrite bool_decide_true. }
  rewrite (Hskip s) by done. cbn [snd]. split; [done|]. split; [done|].
  intros Hs1 Hreg1. rewrite Hskip; rewrite ?run_events_add; done.
Qed.

(** C9.  The skip needs the node: a part-producing entry whose part (or a
    part covering it) is in the working set but is not registered under the
    parts of this replica is not skipped.  [executeLogEntry] goes on as for
    a part it does not have: a GET_PART entry without a quorum is fetched,
    and a MERGE_PARTS or MUTATE_PART entry is refused with LOGICAL_ERROR,
    since those are carried out elsewhere. *)
Theorem executeLogEntry_needs_registered_part entry d s :
  part_producing (type entry) ->
  existing_part entry s = Some d ->
  served s ->
  zookeeper (run_events 1 s) !! registered_path d = None ->
  execute entry s = execute_rest entry (run_events 1 s)
  /\ (type entry = GET_PART -> quorum entry = 0%N ->
      execute entry s = executeFetch entry (run_events 1 s))
  /\ (type entry = MERGE_PARTS \/ type entry = MUTATE_PART -> quorum entry = 0%N ->
      execute entry s = (Throw (DBException LOGICAL_ERROR), run_events 1 s)).
Proof.
  intros Hty Hd Hs Hreg.
  assert (execute entry s = execute_rest entry (run_events 1 s)) as Heq.
  { rewrite executeLogEntry_part_producing by done.
    erewrite bind_ok; [|by apply already_present_found].
    rewrite bool_decide_false; [done|]. rewrite Hreg. by intros [? ?]. }
  split; [done|]. rewrite Heq. unfold execute_rest, executeLogEntry_execute. split.
  - intros -> ->. reflexivity.
  - intros [-> | ->] ->; reflexivity.
Qed.



End Replay.

(** ** The checksum check at commit *)

Section Commit.

Variable replica_name : string.
Variable use_minimalistic_part_header_in_zookeeper : bool.
Variable getColumnsHash : string -> string.
Variable shuffle : list Segment -> list Segment.




End Commit.

(** ** Repair of a lost replica *)

Section Clone.

Variable replica_name : string.
Variable detach_old_local_parts_when_cloning_replica : bool.
Variable are_restoring_replica : bool.
Variable max_retries : nat.
Variable metadata_version : Z.









Definition post_writes {A} (Q : Result A -> list Request -> Prop) (m : M A) : Prop :=
  forall s, exists l, committed (m s).2 = committed s ++ l /\ Q (m s).1 l.







End Clone.

(** ** Block numbers and drop ranges *)



Lemma parent_snoc (p : Path) x : parent (p ++ [x]) = p.
Proof. unfold parent. apply removelast_last. Qed.


(** The counter of a node never goes back while the node stays. *)
Lemma counter_monotone (t : Tree) req (p : Path) n n' :
  t !! p = Some n -> (apply_request t req).2 !! p = Some n' ->
  (node_cversion n <= node_cversion n')%N.
Proof.
  intros Hn. destruct req as [q d mode | q v | q d v | q v]; cbn [apply_request].
  - destruct (t !! parent q); [|cbn; intros; simplify_eq; lia].
    destruct (t !! actual_path t q mode) eqn:Hq; [cbn; intros; simplify_eq; lia|].
    cbn [snd]. rewrite lookup_insert_ne by (intros Heq; rewrite Heq in Hq; congruence).
    rewrite lookup_bump_cversion, Hn. cbn. intros [= <-]. cbn.
    case_bool_decide; lia.
  - destruct (t !! q) as [m|] eqn:Hq; [|cbn; intros; simplify_eq; lia].
    destruct (negb _); [cbn; intros; simplify_eq; lia|].
    case_bool_decide; [cbn; intros; simplify_eq; lia|].
    cbn. rewrite lookup_bump_cversion.
    destruct (decide (q = p)) as [->|Hne].
    + by rewrite lookup_delete_eq.
    + rewrite lookup_delete_ne, Hn by done. cbn. intros [= <-]. cbn.
      case_bool_decide; lia.
  - destruct (t !! q) as [m|] eqn:Hq; [|cbn; intros; simplify_eq; lia].
    destruct (negb _); [cbn; intros; simplify_eq; lia|]. cbn.
    destruct (decide (q = p)) as [->|Hne].
    + rewrite lookup_insert_eq. intros [= <-]. cbn. simplify_eq. lia.
    + rewrite lookup_insert_ne by done. intros. simplify_eq. lia.
  - destruct (t !! q) as [m|] eqn:Hq; [|cbn; intros; simplify_eq; lia].
    destruct (negb _); cbn; intros; simplify_eq; lia.
Qed.



(** *** The history of writes together with the result *)

Definition hp {A} (m : M A) (Q : Result A -> Storage -> list Request -> Prop)
    (s : Storage) : Prop :=
  exists l, committed (m s).2 = committed s ++ l /\ Q (m s).1 (m s).2 l.

Lemma hp_bind {A B} (m : M A) (k : A -> M B)
    (Q1 : Result A -> Storage -> list Request -> Prop)
    (Q : Result B -> Storage -> list Request -> Prop) s :
  hp m Q1 s ->
  (forall a s1 l1, Q1 (Ok a) s1 l1 -> hp (k a) (fun r s' l2 => Q r s' (l1 ++ l2)) s1) ->
  (forall e s1 l1, Q1 (Throw e) s1 l1 -> Q (Throw e) s1 l1) ->
  (forall s1 l1, Q1 OutOfFuel s1 l1 -> Q OutOfFuel s1 l1) ->
  hp (bind m k) Q s.
Proof.
  intros (l1 & E1 & H1) Hk He Ho. unfold hp, bind.
  destruct (m s) as [[a|e|] s1]; cbn in *; eauto.
  destruct (Hk a s1 l1 H1) as (l2 & E2 & H2).
  exists (l1 ++ l2). by rewrite E2, E1, app_assoc.
Qed.

Lemma hp_writes {A} P (m : M A) s :
  writes P m -> hp m (fun _ _ l => Forall P l) s.
Proof. intros H. apply H. Qed.


Lemma hp_ret {A} (a : A) (Q : Result A -> Storage -> list Request -> Prop) s :
  Q (Ok a) s [] -> hp (ret a) Q s.
Proof. intros H. exists []. cbn. by rewrite app_nil_r. Qed.

Section Drop.

Variable replica_name : string.














End Drop.

(** ** Replace ranges *)






Section ReplaceRange.

Variable replica_name : string.
Variable max_retries : nat.
Variable executeReplaceRange_parts :
  LogEntry -> bool -> MergeTreePartInfo -> list PartName -> M bool.
Variable removePartProducingOpsInRange : MergeTreePartInfo -> LogEntry -> M unit.

Lemma tryRemoveParts_attempt_nil s :
  tryRemoveParts_attempt replica_name [] s = (Ok true, s).
Proof. done. Qed.

Lemma tryRemovePartsFromZooKeeperWithRetries_nil s :
  tryRemovePartsFromZooKeeperWithRetries replica_name max_retries [] s = (Ok true, s).
Proof. unfold tryRemovePartsFromZooKeeperWithRetries. by destruct max_retries. Qed.









End ReplaceRange.


(** ** Runs on a small table *)

Definition committed_part (p : PartName) : DataPart :=
  {| name := p; state := Committed; columns := "c"; part_checksums := "k";
     modification_time := 0 |}.

Definition entry_of (ty : LogEntryType) (p : PartName) (q : N) : LogEntry :=
  {| znode_name := None; type := ty; source_replica := "r2";
     new_part_name := p; part_checksum := "k"; source_parts := [];
     merge_type := MERGE_REGULAR; deduplicate := false; quorum := q;
     detach := false; create_time := 0; alter_version := -1; block_id := "";
     metadata_str := ""; columns_str := ""; replace_range_entry := None |}.

(** The table of replica r1, with the part p_5_5_0 registered or not and
    listed among the failed parts of the quorum or not. *)
Definition replica_tree (registered failed : bool) : Tree :=
  list_to_map
    ([([], node (Text "") 0);
      ([Name "replicas"], node (Text "") 0);
      ([Name "replicas"; Name "r1"], node (Text "") 0);
      ([Name "replicas"; Name "r1"; Name "parts"], node (Text "") 0);
      ([Name "quorum"], node (Text "") 0);
      ([Name "quorum"; Name "failed_parts"], node (Text "") 0)]
     ++ (if registered
         then [([Name "replicas"; Name "r1"; Name "parts"; Part part_5], node (Text "") 0)]
         else [])
     ++ (if failed
         then [([Name "quorum"; Name "failed_parts"; Part part_5], node (Text "") 0)]
         else [])).

(** A fetch that only leaves a trace: the part is queued for a check. *)
Definition traced_fetch (entry : LogEntry) : M bool :=
  enqueuePartForCheck (new_part_name entry) ;; ret true.

Definition run_entry : LogEntry -> M bool :=
  executeLogEntry "r1" false 0 id id
    (fun _ _ _ _ => ret true) (fun _ _ => ret tt) (fun _ => ret tt)
    traced_fetch (fun _ => ret true) (ret tt) (fun _ => ret tt).



(** A table with three block numbers given out in partition p (or none). *)
Definition partition_tree (allocated : N) : Tree :=
  list_to_map
    [([], node (Text "") 0);
     ([Name "alter_partition_version"], node (Text "") 4);
     ([Name "block_numbers"], node (Text "") 0);
     ([Name "block_numbers"; Name "p"],
      {| data := Text ""; node_version := 0; node_cversion := allocated;
         node_ctime := 0 |});
     ([Name "temp"], node (Text "") 0);
     ([Name "log"], node (Text "") 0);
     ([Name "blocks"], node (Text "") 0)].

(** Another ALTER PARTITION moves the version. *)
Definition other_alter (t : Tree) : Tree :=
  <[[Name "alter_partition_version"] := node (Text "") 5]> t.


Definition held_5 : DataPart := committed_part part_5.

Lemma triple_eta {A B C} (x : A * B * C) (a : A) : x.1.1 = a -> x = (a, x.1.2, x.2).
Proof. destruct x as [[? ?] ?]. cbn. by intros ->. Qed.

Lemma served_quiet t parts : served (storage_of t [] parts).
Proof. intros e. discriminate. Qed.

(** C1, witness: a GET_PART entry for a part that is held and registered
    is skipped, twice. *)
Lemma executeLogEntry_skips_registered_part_run :
  let s := storage_of (replica_tree true false) [] [held_5] in
  let e := entry_of GET_PART part_5 0 in
  part_producing (type e)
  /\ existing_part e s = Some held_5
  /\ served s
  /\ is_Some (zookeeper (run_events 1 s)
              !! (replica_path "r1" ++ [Name "parts"; Part (name held_5)]))
  /\ run_entry e s = (Ok true, run_events 1 s)
  /\ data_parts (run_entry e s).2 = data_parts s
  /\ run_entry e (run_entry e s).2 = (Ok true, run_events 2 s).
Proof.
  intros s e.
  assert (part_producing (type e)) as H1 by (by left).
  assert (existing_part e s = Some held_5) as H2 by reflexivity.
  assert (served s) as H3 by apply served_quiet.
  assert (is_Some (zookeeper (run_events 1 s)
            !! (replica_path "r1" ++ [Name "parts"; Part (name held_5)]))) as H4
    by (vm_compute; eexists; reflexivity).
  destruct (executeLogEntry_skips_registered_part "r1" false 0 id id
              (fun _ _ _ _ => ret true) (fun _ _ => ret tt) (fun _ => ret tt)
              traced_fetch (fun _ => ret true) (ret tt) (fun _ => ret tt)
              e held_5 s H1 H2 H3 H4) as (R1 & R2 & R3).
  refine (conj H1 (conj H2 (conj H3 (conj H4 (conj R1 (conj R2 _)))))).
  apply R3; [apply served_quiet | exact H4].
Defined.

(** C1, counterexample.  The replica holds the part (it is Committed in the
    working set) but has no node for it under its parts.  A MERGE_PARTS
    entry for the part is not answered with success: [executeLogEntry]
    throws LOGICAL_ERROR.  A GET_PART entry reaches the fetch. *)
Lemma executeLogEntry_held_part_not_skipped :
  let s := storage_of (replica_tree false false) [] [held_5] in
  existing_part (entry_of MERGE_PARTS part_5 0) s = Some held_5
  /\ (run_entry (entry_of MERGE_PARTS part_5 0) s).1 = Throw (DBException LOGICAL_ERROR)
  /\ (run_entry (entry_of GET_PART part_5 0) s).1 = Ok true
  /\ parts_to_check s = []
  /\ parts_to_check (run_entry (entry_of GET_PART part_5 0) s).2 = [part_5].
Proof. vm_compute. repeat split; reflexivity. Qed.

(** C9, witness: the part is held but not registered; a GET_PART entry
    without a quorum reaches the fetch. *)
Lemma executeLogEntry_needs_registered_part_run :
  let s := storage_of (replica_tree false false) [] [held_5] in
  let e := entry_of GET_PART part_5 0 in
  part_producing (type e)
  /\ existing_part e s = Some held_5
  /\ served s
  /\ zookeeper (run_events 1 s)
     !! (replica_path "r1" ++ [Name "parts"; Part (name held_5)]) = None
  /\ run_entry e s = traced_fetch e (run_events 1 s).
Proof.
  intros s e.
  assert (part_producing (type e)) as H1 by (by left).
  assert (existing_part e s = Some held_5) as H2 by reflexivity.
  assert (served s) as H3 by apply served_quiet.
  assert (zookeeper (run_events 1 s)
          !! (replica_path "r1" ++ [Name "parts"; Part (name held_5)]) = None) as H4
    by (vm_compute; reflexivity).
  destruct (executeLogEntry_needs_registered_part "r1" false 0 id id
              (fun _ _ _ _ => ret true) (fun _ _ => ret tt) (fun _ => ret tt)
              traced_fetch (fun _ => ret true) (ret tt) (fun _ => ret tt)
              e held_5 s H1 H2 H3 H4) as (R1 & R2 & R3).
  refine (conj H1 (conj H2 (conj H3 (conj H4 _)))).
  apply R2; reflexivity.
Defined.



(** C5, witness: the one source part is not registered; nothing is
    written, the answer is MissingPart and the part, older than the
    threshold, is queued for a check. *)
Lemma selection_verifies_source_parts_run :
  let s := storage_of (replica_tree false false) [] [held_5] in
  let merge := createLogEntryToMergeParts "r1" 300 [held_5] part_5 false 0 MERGE_REGULAR s in
  Forall no_failure (take (length [held_5]) (schedule s))
  /\ served s
  /\ merge = (Ok (CreateMergeEntryResult.MissingPart, None), after_checks "r1" 300 [held_5] s)
  /\ committed (after_checks "r1" 300 [held_5] s) = committed s
  /\ parts_to_check (after_checks "r1" 300 [held_5] s) = [part_5].
Proof.
  intros s merge.
  assert (Forall no_failure (take (length [held_5]) (schedule s))) as H1 by constructor.
  assert (served s) as H2 by apply served_quiet.
  destruct (selection_verifies_source_parts "r1" 300 [held_5] part_5 false held_5 0 0 0
              MERGE_REGULAR s H1 H2) as (R1 & _ & _ & _ & R5 & _ & R7).
  refine (conj H1 (conj H2 (conj (R1 eq_refl) (conj R5 _)))).
  rewrite R7. reflexivity.
Defined.

(** The table of r1 with the part registered and the log at version 3. *)
Definition log_tree : Tree :=
  <[[Name "log"] := node (Text "") 3]> (replica_tree true false).

Definition lock_3 : EphemeralLockInZooKeeper :=
  {| lock_path := [Name "block_numbers"; Name "p"; Sequential "block-" 3];
     holder_path := [Name "temp"; Sequential "abandonable_lock-" 0] |}.

(** C6, witness: the log has moved on from version 2, and another ALTER
    PARTITION has moved alter_partition_version on from version 4. *)
Lemma version_conflict_outcomes_run :
  let s := storage_of log_tree [] [held_5] in
  let ops := log_append_ops (merge_entry "r1" [held_5] part_5 false MERGE_REGULAR (now s)) 2 in
  let m := multi (zookeeper (run_events 2 s)) ops in
  let s2 := storage_of (other_alter (partition_tree 3)) [] [] in
  let e2 := entry_of DROP_RANGE part_5 0 in
  let m2 := multi (zookeeper (run_events 1 s2)) (drop_range_ops e2 4 lock_3) in
  Forall no_failure (take 2 (schedule s))
  /\ forallb id (present_flags "r1" [held_5] s) = true
  /\ m = (ZBADVERSION, m.1.2, m.2)
  /\ served s2
  /\ m2 = (ZBADVERSION, m2.1.2, m2.2)
  /\ createLogEntryToMergeParts "r1" 300 [held_5] part_5 false 2 MERGE_REGULAR s
     = (Ok (CreateMergeEntryResult.LogUpdated, None),
        run_events 1 (after_checks "r1" 300 [held_5] s))
  /\ dropAllPartsInPartition_assign "p" e2 4 part_5 lock_3 s2
     = (Throw (DBException CANNOT_ASSIGN_ALTER), run_events 1 s2).
Proof.
  intros s ops m s2 e2 m2.
  assert (Forall no_failure (take 2 (schedule s))) as H1 by constructor.
  assert (forallb id (present_flags "r1" [held_5] s) = true) as H2 by reflexivity.
  assert (m = (ZBADVERSION, m.1.2, m.2)) as H3
    by (apply triple_eta; vm_compute; reflexivity).
  assert (served s2) as H4 by apply served_quiet.
  assert (m2 = (ZBADVERSION, m2.1.2, m2.2)) as H5
    by (apply triple_eta; vm_compute; reflexivity).
  destruct (version_conflict_outcomes "r1" 300 [held_5] part_5 false 2 MERGE_REGULAR s
              m.1.2 m.2 "p" e2 4 part_5 lock_3 s2 m2.1.2 m2.2 H1 H2 H3 H4 H5)
    as (R1 & _ & R3 & _).
  exact (conj H1 (conj H2 (conj H3 (conj H4 (conj H5 (conj R1 R3)))))).
Defined.

(** C6, counterexample.  ALTER ... DROP PARTITION p reads version 4 of
    alter_partition_version; another ALTER PARTITION moves it before the
    multi is served.  [dropAllPartsInPartition] does not read again and does
    not try again: it throws CANNOT_ASSIGN_ALTER, and no entry is in the
    log. *)
Lemma dropAllPartsInPartition_conflict_is_thrown :
  let s := storage_of (partition_tree 3)
             [Quiet; Quiet; Quiet; Quiet; Quiet; Interfere other_alter] [] in
  let r := dropAllPartsInPartition "r1" "p" (entry_of EMPTY no_part_name 0) false s in
  r.1 = Throw (DBException CANNOT_ASSIGN_ALTER)
  /\ schedule r.2 = []
  /\ children (zookeeper r.2) [Name "log"] = [].
Proof. vm_compute. repeat split; reflexivity. Qed.



(** A run of ALTER ... DROP PARTITION p with three block numbers given out
    before: the delimiting number is 3 and the entry drops the blocks 0 to
    2.  With no block number given out the answer is false and nothing is
    in the log. *)
Example dropAllPartsInPartition_run :
  let e := entry_of EMPTY no_part_name 0 in
  let r := dropAllPartsInPartition "r1" "p" e false (storage_of (partition_tree 3) [] []) in
  let r0 := dropAllPartsInPartition "r1" "p" e false (storage_of (partition_tree 0) [] []) in
  (exists e', r.1 = Ok (true, e')
     /\ type e' = DROP_RANGE
     /\ new_part_name e' = {| partition_id := "p"; min_block := 0; max_block := 2;
                              level := MAX_LEVEL; mutation := MAX_BLOCK_NUMBER |}
     /\ data <$> zookeeper r.2 !! [Name "log"; Sequential "log-" 0] = Some (Entry (set_znode_name None e')))
  /\ cancelled_merges r.2 = [("p", 2)]
  /\ r0.1 = Ok (false, e)
  /\ children (zookeeper r0.2) [Name "log"] = [].
Proof.
  vm_compute. split; [|repeat split; reflexivity].
  eexists. repeat split; reflexivity.
Qed.

(** * Further properties of the replica *)

(** ** What a method leaves alone *)

(** The part of the state that is the replica's own: everything but the
    coordination tree, the schedule of its events and the history of the
    writes. *)
Definition local_of (s : Storage) :=
  (data_parts s, detached s, queue s, parts_to_check s, cancelled_merges s,
   existing_nodes_cache s, now s).

Definition keeps_local {A} (m : M A) : Prop :=
  forall s, local_of (m s).2 = local_of s.

Lemma keeps_ret {A} (a : A) : keeps_local (ret a).
Proof. done. Qed.

Lemma keeps_throw {A} e : keeps_local (@throw A e).
Proof. done. Qed.

Lemma keeps_gets {A} (f : Storage -> A) : keeps_local (gets f).
Proof. done. Qed.

Lemma keeps_future_get {A} (r : Result A) : keeps_local (future_get r).
Proof. done. Qed.

Lemma keeps_bind {A B} (m : M A) (k : A -> M B) :
  keeps_local m -> (forall a, keeps_local (k a)) -> keeps_local (bind m k).
Proof.
  intros Hm Hk s. unfold bind. specialize (Hm s).
  destruct (m s) as [[a|e|] s1]; cbn in *; try done.
  by rewrite Hk.
Qed.

Lemma keeps_try_catch {A} (m : M A) handler :
  keeps_local m -> (forall e, keeps_local (handler e)) -> keeps_local (try_catch m handler).
Proof.
  intros Hm Hh s. unfold try_catch. specialize (Hm s).
  destruct (m s) as [[a|e|] s1]; cbn in *; try done.
  by rewrite Hh.
Qed.

Lemma keeps_async {A} (m : M A) : keeps_local m -> keeps_local (async m).
Proof. intros Hm s. unfold async. specialize (Hm s). by destruct (m s). Qed.

Lemma keeps_map_m {A B} (f : A -> M B) (l : list A) :
  (forall x, keeps_local (f x)) -> keeps_local (map_m f l).
Proof.
  intros Hf. induction l as [|x l IH]; cbn [map_m]; [apply keeps_ret|].
  apply keeps_bind; [apply Hf|]. intros y.
  apply keeps_bind; [apply IH|]. intros ys. apply keeps_ret.
Qed.

Lemma keeps_while_true {A} fuel (body : M (LoopStep A)) :
  keeps_local body -> keeps_local (while_true fuel body).
Proof.
  intros Hb. induction fuel as [|fuel IH]; cbn [while_true]; [done|].
  apply keeps_bind; [done|]. intros [a|]; [apply keeps_ret | apply IH].
Qed.

Lemma keeps_retry_loop {A} (body : M (LoopStep A)) :
  keeps_local body -> keeps_local (retry_loop body).
Proof. intros Hb s. unfold retry_loop. by apply keeps_while_true. Qed.

Lemma keeps_request {A} (f : Tree -> A * Tree) : keeps_local (request f).
Proof.
  intros s. unfold request.
  destruct (schedule s) as [|[|g|e] sch]; try destruct (f _); done.
Qed.

Lemma keeps_record code ops : keeps_local (record code ops).
Proof. intros s. unfold record. by destruct code. Qed.

Lemma keeps_exists_stat p : keeps_local (zk_exists_stat p).
Proof. apply keeps_request. Qed.

Lemma keeps_exists p : keeps_local (zk_exists p).
Proof. apply keeps_bind; [apply keeps_request|]. intros. apply keeps_ret. Qed.

Lemma keeps_tryGet p : keeps_local (zk_tryGet p).
Proof. apply keeps_request. Qed.

Lemma keeps_get p : keeps_local (zk_get p).
Proof. apply keeps_bind; [apply keeps_request|]. by intros [x|]. Qed.

Lemma keeps_tryGetChildren p : keeps_local (zk_tryGetChildren p).
Proof. apply keeps_request. Qed.

Lemma keeps_getChildren p : keeps_local (zk_getChildren p).
Proof. apply keeps_bind; [apply keeps_request|]. by intros [x|]. Qed.

Lemma keeps_tryMulti ops : keeps_local (zk_tryMulti ops).
Proof.
  destruct ops as [|op ops]; [done|]. unfold zk_tryMulti.
  apply keeps_bind; [apply keeps_request|]. intros [code resps].
  apply keeps_bind; [apply keeps_record|]. intros. apply keeps_ret.
Qed.

Lemma keeps_check_multi code resps : keeps_local (check_multi code resps).
Proof. by destruct code. Qed.

Lemma keeps_multi ops : keeps_local (zk_multi ops).
Proof.
  apply keeps_bind; [apply keeps_tryMulti|]. intros [code resps].
  apply keeps_bind; [apply keeps_check_multi|]. intros. apply keeps_ret.
Qed.

Lemma keeps_tryMultiNoThrow ops : keeps_local (zk_tryMultiNoThrow ops).
Proof.
  apply keeps_try_catch.
  - apply keeps_bind; [apply keeps_tryMulti|]. intros [code resps]. apply keeps_ret.
  - by intros [].
Qed.

Lemma keeps_trySet p d v : keeps_local (zk_trySet p d v).
Proof.
  apply keeps_bind; [apply keeps_request|]. intros code.
  apply keeps_bind; [apply keeps_record|]. intros. apply keeps_ret.
Qed.

Lemma keeps_set p d : keeps_local (zk_set p d).
Proof. apply keeps_bind; [apply keeps_trySet|]. by intros []. Qed.

Lemma keeps_create p d mode : keeps_local (zk_create p d mode).
Proof.
  apply keeps_bind; [apply keeps_request|]. intros r.
  apply keeps_bind; [apply keeps_record|]. intros. by destruct (error r).
Qed.

Ltac keeps_step :=
  first
    [ progress intros
    | apply keeps_ret | apply keeps_throw | apply keeps_gets | apply keeps_future_get
    | apply keeps_exists | apply keeps_exists_stat | apply keeps_tryGet
    | apply keeps_get | apply keeps_getChildren | apply keeps_tryGetChildren
    | apply keeps_check_multi | apply keeps_tryMulti | apply keeps_multi
    | apply keeps_tryMultiNoThrow | apply keeps_trySet | apply keeps_set
    | apply keeps_create
    | apply keeps_bind | apply keeps_try_catch | apply keeps_async
    | apply keeps_map_m | apply keeps_retry_loop | apply keeps_while_true
    | match goal with
      | |- keeps_local (match ?x with _ => _ end) => destruct x
      end ].

Ltac solve_keeps := repeat keeps_step.

(** A method that never writes. *)
Abbreviation only_reads m := (writes (fun _ => False) m) (only parsing).

Lemma only_reads_committed {A} (m : M A) s :
  only_reads m -> committed (m s).2 = committed s.
Proof.
  intros H. destruct (H s) as (l & -> & Hl).
  destruct l as [|x l]; [by rewrite app_nil_r|]. by inversion Hl.
Qed.

(** A method that does not run out of fuel: it has no loop, or its loops
    end. *)
Definition finishes {A} (m : M A) : Prop := forall s, (m s).1 <> OutOfFuel.

Lemma finishes_ret {A} (a : A) : finishes (ret a).
Proof. done. Qed.

Lemma finishes_throw {A} e : finishes (@throw A e).
Proof. done. Qed.

Lemma finishes_gets {A} (f : Storage -> A) : finishes (gets f).
Proof. done. Qed.

Lemma finishes_modify f : finishes (modify f).
Proof. done. Qed.

Lemma finishes_bind {A B} (m : M A) (k : A -> M B) :
  finishes m -> (forall a, finishes (k a)) -> finishes (bind m k).
Proof.
  intros Hm Hk s. unfold bind. specialize (Hm s).
  destruct (m s) as [[a|e|] s1]; cbn in *; try done. apply Hk.
Qed.

Lemma finishes_try_catch {A} (m : M A) handler :
  finishes m -> (forall e, finishes (handler e)) -> finishes (try_catch m handler).
Proof.
  intros Hm Hh s. unfold try_catch. specialize (Hm s).
  destruct (m s) as [[a|e|] s1]; cbn in *; try done. apply Hh.
Qed.

Lemma finishes_async {A} (m : M A) : finishes (async m).
Proof. intros s. unfold async. by destruct (m s). Qed.

Lemma finishes_map_m {A B} (f : A -> M B) (l : list A) :
  (forall x, finishes (f x)) -> finishes (map_m f l).
Proof.
  intros Hf. induction l as [|x l IH]; cbn [map_m]; [done|].
  apply finishes_bind; [apply Hf|]. intros y.
  apply finishes_bind; [apply IH|]. by intros ys.
Qed.

Lemma finishes_for_each {A} (l : list A) body :
  (forall x, finishes (body x)) -> finishes (for_each l body).
Proof.
  intros Hb. induction l as [|x l IH]; cbn [for_each]; [done|].
  apply finishes_bind; [apply Hb | by intros _].
Qed.

Lemma finishes_request {A} (f : Tree -> A * Tree) : finishes (request f).
Proof.
  intros s. unfold request.
  destruct (schedule s) as [|[|g|e] sch]; try destruct (f _); done.
Qed.

Lemma finishes_record code ops : finishes (record code ops).
Proof. intros s. unfold record. by destruct code. Qed.

Lemma finishes_exists_stat p : finishes (zk_exists_stat p).
Proof. apply finishes_request. Qed.

Lemma finishes_exists p : finishes (zk_exists p).
Proof. apply finishes_bind; [apply finishes_request|]. by intros. Qed.

Lemma finishes_tryGet p : finishes (zk_tryGet p).
Proof. apply finishes_request. Qed.

Lemma finishes_get p : finishes (zk_get p).
Proof. apply finishes_bind; [apply finishes_request|]. by intros [x|]. Qed.

Lemma finishes_tryGetChildren p : finishes (zk_tryGetChildren p).
Proof. apply finishes_request. Qed.

Lemma finishes_getChildren p : finishes (zk_getChildren p).
Proof. apply finishes_bind; [apply finishes_request|]. by intros [x|]. Qed.

Lemma finishes_tryMulti ops : finishes (zk_tryMulti ops).
Proof.
  destruct ops as [|op ops]; [done|]. unfold zk_tryMulti.
  apply finishes_bind; [apply finishes_request|]. intros [code resps].
  apply finishes_bind; [apply finishes_record|]. by intros.
Qed.

Lemma finishes_check_multi code resps : finishes (check_multi code resps).
Proof. by destruct code. Qed.

Lemma finishes_multi ops : finishes (zk_multi ops).
Proof.
  apply finishes_bind; [apply finishes_tryMulti|]. intros [code resps].
  apply finishes_bind; [apply finishes_check_multi|]. by intros.
Qed.

Lemma finishes_tryMultiNoThrow ops : finishes (zk_tryMultiNoThrow ops).
Proof.
  apply finishes_try_catch.
  - apply finishes_bind; [apply finishes_tryMulti|]. by intros [code resps].
  - by intros [].
Qed.

Lemma finishes_trySet p d v : finishes (zk_trySet p d v).
Proof.
  apply finishes_bind; [apply finishes_request|]. intros code.
  apply finishes_bind; [apply finishes_record|]. by intros.
Qed.

Lemma finishes_set p d : finishes (zk_set p d).
Proof. apply finishes_bind; [apply finishes_trySet|]. by intros []. Qed.

Lemma finishes_create p d mode : finishes (zk_create p d mode).
Proof.
  apply finishes_bind; [apply finishes_request|]. intros r.
  apply finishes_bind; [apply finishes_record|]. intros. by destruct (error r).
Qed.

Ltac finishes_step :=
  first
    [ progress intros
    | apply finishes_ret | apply finishes_throw | apply finishes_gets
    | apply finishes_modify
    | apply finishes_exists | apply finishes_exists_stat | apply finishes_tryGet
    | apply finishes_get | apply finishes_getChildren | apply finishes_tryGetChildren
    | apply finishes_check_multi | apply finishes_tryMulti | apply finishes_multi
    | apply finishes_tryMultiNoThrow | apply finishes_trySet | apply finishes_set
    | apply finishes_create
    | apply finishes_bind | apply finishes_try_catch | apply finishes_async
    | apply finishes_map_m | apply finishes_for_each
    | match goal with
      | |- finishes (match ?x with _ => _ end) => destruct x
      end ].

Ltac solve_finishes := repeat finishes_step.

(** ** The cache of the nodes that exist *)

Lemma existsNodeCached_hit p s :
  p ∈ existing_nodes_cache s -> existsNodeCached p s = (Ok true, s).
Proof.
  intros Hin. unfold existsNodeCached, bind, gets. cbn. by rewrite bool_decide_true.
Qed.




(** ** Removal of parts from the coordination tree *)

Lemma writes_map_m_in {A B} P (f : A -> M B) (l : list A) :
  (forall x, x ∈ l -> writes P (f x)) -> writes P (map_m f l).
Proof.
  induction l as [|x l IH]; intros Hf; cbn [map_m]; [apply writes_ret|].
  apply writes_bind; [apply Hf, list_elem_of_here|]. intros y.
  apply writes_bind; [|intros; apply writes_ret].
  apply IH. intros z Hz. by apply Hf, list_elem_of_further.
Qed.

Section RemoveParts.

Variable replica_name : string.
Variable max_retries : nat.

(** The removal of the node of one of the parts, or of the checksums or
    columns under it, whatever the version. *)
Definition removes_part_node (part_names : list PartName) (r : Request) : Prop :=
  exists p, p ∈ part_names /\
    let part_path := replica_path replica_name ++ [Name "parts"; Part p] in
    r = RemoveRequest (part_path ++ [Name "checksums"]) (-1)
    \/ r = RemoveRequest (part_path ++ [Name "columns"]) (-1)
    \/ r = RemoveRequest part_path (-1).

Lemma removePartFromZooKeeper_removes part_names p has_children :
  p ∈ part_names ->
  Forall (removes_part_node part_names) (removePartFromZooKeeper replica_name p has_children).
Proof.
  intros Hp. unfold removePartFromZooKeeper. apply Forall_app. split.
  - destruct has_children; repeat constructor; exists p; split; auto.
  - repeat constructor. exists p. split; auto.
Qed.

Lemma writes_tryRemoveParts_attempt_own part_names :
  writes (removes_part_node part_names) (tryRemoveParts_attempt replica_name part_names).
Proof.
  unfold tryRemoveParts_attempt. apply writes_try_catch.
  - apply writes_bind; [solve_writes|]. intros exists_futures.
    apply writes_bind.
    + apply writes_map_m_in. intros [p future] Hin.
      apply elem_of_zip_l in Hin.
      apply writes_bind; [apply writes_future_get|]. intros [stat|]; [|apply writes_ret].
      apply writes_bind; [|intros; apply writes_ret].
      apply writes_tryMultiNoThrow. by apply removePartFromZooKeeper_removes.
    + intros remove_futures. solve_writes.
  - solve_writes.
Qed.

Lemma keeps_tryRemoveParts_attempt part_names :
  keeps_local (tryRemoveParts_attempt replica_name part_names).
Proof. unfold tryRemoveParts_attempt. solve_keeps. Qed.

Lemma finishes_future_get {A} (r : Result A) : r <> OutOfFuel -> finishes (future_get r).
Proof. by intros H s. Qed.

Lemma async_outcome {A} (m : M A) s r s' :
  finishes m -> async m s = (Ok r, s') -> r <> OutOfFuel.
Proof.
  intros Hm. unfold async. specialize (Hm s). destruct (m s) as [r0 s0].
  by intros [= <- <-].
Qed.

Lemma finishes_tryRemoveParts_attempt part_names :
  finishes (tryRemoveParts_attempt replica_name part_names).
Proof.
  unfold tryRemoveParts_attempt. apply finishes_try_catch; [|solve_finishes].
  intros s. unfold bind at 1.
  pose proof (finishes_map_m
                (fun part_name =>
                   async (zk_exists_stat
                            (replica_path replica_name ++ [Name "parts"; Part part_name])))
                part_names (fun x => finishes_async _) s) as Hm.
  destruct (map_m _ part_names s) as [[futures|e|] s1] eqn:Hfut; cbn [fst] in *; try done.
  assert (Forall (fun f => f <> OutOfFuel) futures) as Hall.
    { clear -Hfut. revert s futures s1 Hfut.
      induction part_names as [|p l IH]; intros s futures s1; cbn [map_m].
      - intros [= <- <-]. constructor.
      - unfold bind at 1.
        destruct (async _ s) as [[f|e|] s0] eqn:Ha; try done.
        unfold bind at 1.
        destruct (map_m _ l s0) as [[fs|e|] s2] eqn:Hl; try done.
        intros [= <- <-]. constructor; [|by eapply IH].
        eapply async_outcome; [|exact Ha]. apply finishes_exists_stat. }
    revert s1 Hfut. generalize s. clear s.
    intros _ s1 _. revert s1.
    change (finishes
      (let* remove_futures :=
         map_m (fun '(part_name, future) =>
                  let* exists_resp := future_get future in
                  match exists_resp with
                  | Some stat =>
                      let ops := removePartFromZooKeeper replica_name part_name
                                   (bool_decide (0 < numChildren stat)%nat) in
                      let* response := zk_tryMultiNoThrow ops in
                      ret (Some response)
                  | None => ret None
                  end)
           (zip part_names futures) in
       let* failures :=
         map_m (fun response =>
                  match response with
                  | None | Some ZOK | Some ZNONODE => ret false
                  | Some code =>
                      if isHardwareError code then ret true
                      else throw (KeeperException code)
                  end) remove_futures in
       ret (negb (existsb id failures)))).
    apply finishes_bind; [|solve_finishes].
    assert (forall l, Forall (fun x : PartName * Result (option Stat) => x.2 <> OutOfFuel) l ->
              finishes (map_m (fun '(part_name, future) =>
                  let* exists_resp := future_get future in
                  match exists_resp with
                  | Some stat =>
                      let ops := removePartFromZooKeeper replica_name part_name
                                   (bool_decide (0 < numChildren stat)%nat) in
                      let* response := zk_tryMultiNoThrow ops in
                      ret (Some response)
                  | None => ret None
                  end) l)) as Hmap.
    { induction l as [|[p f] l IH]; intros Hl; cbn [map_m]; [done|].
      inversion Hl as [|? ? Hf Hl']; subst. cbn in Hf.
      apply finishes_bind.
      - apply finishes_bind; [by apply finishes_future_get|]. solve_finishes.
      - intros y. apply finishes_bind; [by apply IH|]. solve_finishes. }
    apply Hmap. clear -Hall. revert part_names.
    induction Hall as [|f fs Hf Hfs IH]; intros [|p l]; cbn; try constructor; try done.
Qed.

(** X2.  [tryRemovePartsFromZooKeeperWithRetries] writes nothing but
    removals, with any version, of the nodes of the parts it was given
    under the parts of this replica (and of their checksums and columns);
    it leaves the working set and the rest of the replica's own state as
    they were; given no part it answers true without a request. *)
Theorem tryRemoveParts_removes_only_given_parts part_names s :
  let r := tryRemovePartsFromZooKeeperWithRetries replica_name max_retries part_names s in
  (exists l, committed r.2 = committed s ++ l
             /\ Forall (removes_part_node part_names) l)
  /\ local_of r.2 = local_of s
  /\ (part_names = [] -> r = (Ok true, s))
  /\ (max_retries <> 0%nat -> r.1 <> OutOfFuel).
Proof.
  cbv zeta. split; [|split; [|split]].
  - revert s. change (writes (removes_part_node part_names)
      (tryRemovePartsFromZooKeeperWithRetries replica_name max_retries part_names)).
    unfold tryRemovePartsFromZooKeeperWithRetries. destruct max_retries as [|n].
    + apply writes_retry_loop, writes_bind; [apply writes_tryRemoveParts_attempt_own|].
      intros []; apply writes_ret.
    + generalize (S n). intros k. induction k as [|k IH]; cbn [tryRemoveParts_loop].
      * apply writes_ret.
      * apply writes_bind; [apply writes_tryRemoveParts_attempt_own|].
        intros []; [apply writes_ret | apply IH].
  - revert s. change (keeps_local
      (tryRemovePartsFromZooKeeperWithRetries replica_name max_retries part_names)).
    unfold tryRemovePartsFromZooKeeperWithRetries. destruct max_retries as [|n].
    + apply keeps_retry_loop, keeps_bind; [apply keeps_tryRemoveParts_attempt|].
      intros []; apply keeps_ret.
    + generalize (S n). intros k. induction k as [|k IH]; cbn [tryRemoveParts_loop].
      * apply keeps_ret.
      * apply keeps_bind; [apply keeps_tryRemoveParts_attempt|].
        intros []; [apply keeps_ret | apply IH].
  - intros ->. apply tryRemovePartsFromZooKeeperWithRetries_nil.
  - intros Hmax. revert s. change (finishes
      (tryRemovePartsFromZooKeeperWithRetries replica_name max_retries part_names)).
    unfold tryRemovePartsFromZooKeeperWithRetries. destruct max_retries as [|n]; [done|].
    generalize (S n). intros k. induction k as [|k IH]; cbn [tryRemoveParts_loop].
    + apply finishes_ret.
    + apply finishes_bind; [apply finishes_tryRemoveParts_attempt|].
      intros []; [apply finishes_ret | apply IH].
Qed.

End RemoveParts.

(** ** The commit of a part that has become obsolete *)

Section CommitMore.

Variable replica_name : string.
Variable use_minimalistic_part_header_in_zookeeper : bool.
Variable getColumnsHash : string -> string.
Variable shuffle : list Segment -> list Segment.

Lemma check_replicas_reads local part_name sequential replicas :
  forall added absent,
  only_reads (check_replicas replica_name getColumnsHash local part_name sequential
                replicas added absent)
  /\ keeps_local (check_replicas replica_name getColumnsHash local part_name sequential
                    replicas added absent)
  /\ finishes (check_replicas replica_name getColumnsHash local part_name sequential
                 replicas added absent).
Proof.
  induction replicas as [|r replicas IH]; intros added absent; cbn [check_replicas].
  - split; [apply writes_ret | split; [apply keeps_ret | apply finishes_ret]].
  - split; [|split].
    + apply writes_bind; [apply writes_tryGet|]. intros [[d st]|]; [|apply IH].
      apply writes_bind.
      { unfold read_replica_part_header, parse_header. solve_writes. }
      intros [h|]; [|apply IH].
      case_bool_decide; [apply writes_throw|].
      apply writes_bind; [unfold checkEqual; case_bool_decide; solve_writes|].
      intros _. destruct sequential; [apply writes_ret | apply IH].
    + apply keeps_bind; [apply keeps_tryGet|]. intros [[d st]|]; [|apply IH].
      apply keeps_bind.
      { unfold read_replica_part_header, parse_header. solve_keeps. }
      intros [h|]; [|apply IH].
      case_bool_decide; [apply keeps_throw|].
      apply keeps_bind; [unfold checkEqual; case_bool_decide; solve_keeps|].
      intros _. destruct sequential; [apply keeps_ret | apply IH].
    + apply finishes_bind; [apply finishes_tryGet|]. intros [[d st]|]; [|apply IH].
      apply finishes_bind.
      { unfold read_replica_part_header, parse_header. solve_finishes. }
      intros [h|]; [|apply IH].
      case_bool_decide; [apply finishes_throw|].
      apply finishes_bind; [unfold checkEqual; case_bool_decide; solve_finishes|].
      intros _. destruct sequential; [apply finishes_ret | apply IH].
Qed.

Lemma checkPartChecksumsAndAddCommitOps_reads part part_name sequential :
  only_reads (checkPartChecksumsAndAddCommitOps replica_name
                use_minimalistic_part_header_in_zookeeper getColumnsHash shuffle
                part part_name sequential)
  /\ keeps_local (checkPartChecksumsAndAddCommitOps replica_name
                    use_minimalistic_part_header_in_zookeeper getColumnsHash shuffle
                    part part_name sequential)
  /\ finishes (checkPartChecksumsAndAddCommitOps replica_name
                 use_minimalistic_part_header_in_zookeeper getColumnsHash shuffle
                 part part_name sequential).
Proof.
  unfold checkPartChecksumsAndAddCommitOps. split; [|split].
  - apply writes_bind; [apply writes_getChildren|]. intros replicas.
    apply writes_bind; [apply check_replicas_reads|]. intros [added absent].
    destruct (negb added); apply writes_ret.
  - apply keeps_bind; [apply keeps_getChildren|]. intros replicas.
    apply keeps_bind; [apply check_replicas_reads|]. intros [added absent].
    destruct (negb added); apply keeps_ret.
  - apply finishes_bind; [apply finishes_getChildren|]. intros replicas.
    apply finishes_bind; [apply check_replicas_reads|]. intros [added absent].
    destruct (negb added); apply finishes_ret.
Qed.

(** X3.  The check of the checksums against the other replicas only reads:
    it sends no write and leaves the replica's own state alone.  With an
    empty transaction (the part has become obsolete)
    [checkPartChecksumsAndCommit] does that check once and stops: nothing
    is written, nothing is committed to the working set, and the answer is
    the empty list unless the check throws. *)
Theorem checkPartChecksumsAndCommit_obsolete_part part s :
  let r := checkPartChecksumsAndCommit replica_name
             use_minimalistic_part_header_in_zookeeper getColumnsHash shuffle
             [] part s in
  committed r.2 = committed s
  /\ local_of r.2 = local_of s
  /\ (r.1 = Ok [] \/ exists e, r.1 = Throw e).
Proof.
  cbv zeta. unfold checkPartChecksumsAndCommit, retry_loop. cbn [while_true].
  unfold checkPartChecksumsAndCommit_body.
  destruct (checkPartChecksumsAndAddCommitOps_reads part (name part) true)
    as (Hr & Hk & Hf).
  pose proof (only_reads_committed _ s Hr) as Hc. specialize (Hk s). specialize (Hf s).
  rewrite bool_decide_true by done. unfold bind.
  destruct (checkPartChecksumsAndAddCommitOps _ _ _ _ _ _ _ s) as [[[ops absent]|e|] s1];
    cbn in *; [eauto | eauto | done].
Qed.

End CommitMore.

(** ** The part an ATTACH_PART entry finds under detached/ *)

Section Attach.

(** X4.  [attachPartHelperFoundValidPart] changes nothing.  The part it
    answers is made from a directory under detached/ whose name parses to
    the partition of the entry, that loads, and whose total checksum is the
    one the entry asks for; it carries the name of the entry, not that of
    the directory.  When it answers none, no directory is like that. *)
Theorem attachPartHelperFoundValidPart_matches_entry entry s :
  let r := attachPartHelperFoundValidPart entry s in
  r.2 = s
  /\ match r.1 with
     | Ok (Some part) =>
         name part = new_part_name entry
         /\ state part = Temporary
         /\ exists d info,
              d ∈ detached s
              /\ detached_name d = Some info
              /\ partition_id info = partition_id (new_part_name entry)
              /\ loads d = true
              /\ total_checksum_hex d = part_checksum entry
              /\ part_checksums part = detached_checksums d
              /\ modification_time part = last_modified d
     | Ok None =>
         Forall (fun d => valid_detached_part entry d = false) (detached s)
     | _ => False
     end.
Proof.
  cbv zeta. unfold attachPartHelperFoundValidPart, bind, gets. cbn [fst snd].
  destruct (find (valid_detached_part entry) (detached s)) as [d|] eqn:Hfind; cbn.
  - split; [done|]. split; [done|]. split; [done|].
    apply find_some in Hfind as [Hin Hvalid].
    unfold valid_detached_part in Hvalid.
    destruct (detached_name d) as [info|] eqn:Hname; [|done].
    apply andb_true_iff in Hvalid as [Hvalid Hsum].
    apply andb_true_iff in Hvalid as [Hpid Hloads].
    apply bool_decide_eq_true in Hpid, Hsum.
    exists d, info. repeat split; try done. by apply list_elem_of_In.
  - split; [done|]. apply Forall_forall. intros d Hd.
    apply list_elem_of_In in Hd.
    pose proof (find_none _ _ Hfind d Hd) as H. done.
Qed.

End Attach.

(** ** The replica a lost replica is cloned from *)

(** The lag of a replica that answered everything and is not lost. *)
Definition candidate_lag (max_log_entry : Z)
    (answer : Segment * Result (option (Data * Stat)) * Result (option (Data * Stat))
              * Result (option (Data * Stat))) : option Z :=
  match answer with
  | (_, Ok (Some (is_lost_data, _)), Ok (Some (log_pointer_data, _)), Ok (Some (_, queue_stat))) =>
      if negb (String.eqb (text_of is_lost_data) "0") then None
      else
        match (if is_empty log_pointer_data then Some 0
               else Z.of_N <$> parse_number (text_of log_pointer_data)) with
        | Some source_log_pointer =>
            Some (wrap (wrap (max_log_entry - source_log_pointer)
                        + Z.of_nat (numChildren queue_stat)))
        | None => None
        end
  | _ => None
  end.

(** What [choose_source_replica] has in hand: either what it was given, or
    a replica of the list that is not lost, with its lag. *)
Definition chosen_from
    (answers : list (Segment * Result (option (Data * Stat))
                     * Result (option (Data * Stat)) * Result (option (Data * Stat))))
    (max_log_entry lag0 : Z) (src0 : option Segment) (stat0 : Stat)
    (src : option Segment) (stat : Stat) (lag : Z) : Prop :=
  (src = src0 /\ stat = stat0 /\ lag = lag0
   \/ exists name0 d f2 f3,
        (name0, Ok (Some (d, stat)), f2, f3) ∈ answers
        /\ src = Some name0
        /\ text_of d = "0"
        /\ candidate_lag max_log_entry (name0, Ok (Some (d, stat)), f2, f3) = Some lag
        /\ lag < lag0)
  /\ lag <= lag0
  /\ Forall (fun a => forall l, candidate_lag max_log_entry a = Some l -> lag <= l) answers.

Lemma choose_source_replica_least answers : forall max_log lag0 src0 stat0 s,
  match choose_source_replica answers max_log lag0 src0 stat0 s with
  | (Ok (src, stat), s') =>
      s' = s /\ exists lag, chosen_from answers max_log lag0 src0 stat0 src stat lag
  | (_, s') => s' = s
  end.
Proof.
  induction answers as [|[[[name0 f1] f2] f3] answers IH];
    intros max_log lag0 src0 stat0 s; cbn [choose_source_replica].
  - cbn. split; [done|]. exists lag0. split; [by left|]. split; [lia|constructor].
  - unfold bind at 1. unfold future_get at 1. destruct f1 as [a1|e|]; try done.
    unfold bind at 1. unfold future_get at 1. destruct f2 as [a2|e|]; try done.
    unfold bind at 1. unfold future_get at 1. destruct f3 as [a3|e|]; try done.
    (* the replica is passed over *)
    assert (candidate_lag max_log (name0, Ok a1, Ok a2, Ok a3) = None \/
            (exists l, candidate_lag max_log (name0, Ok a1, Ok a2, Ok a3) = Some l
                       /\ lag0 <= l) ->
            match choose_source_replica answers max_log lag0 src0 stat0 s with
            | (Ok (src, stat), s') =>
                s' = s /\ exists lag,
                  chosen_from ((name0, Ok a1, Ok a2, Ok a3) :: answers)
                    max_log lag0 src0 stat0 src stat lag
            | (_, s') => s' = s
            end) as Hskip.
    { intros Hcand. specialize (IH max_log lag0 src0 stat0 s).
      destruct (choose_source_replica answers max_log lag0 src0 stat0 s)
        as [[[src stat]|e|] s']; try done.
      destruct IH as [-> (lag & Hfrom & Hle & Hall)]. split; [done|].
      exists lag. split; [|split; [done|]].
      - destruct Hfrom as [?|(n & d & g2 & g3 & Hin & ?)]; [by left|].
        right. exists n, d, g2, g3. split; [|done]. by apply list_elem_of_further.
      - constructor; [|done]. intros l Hl.
        destruct Hcand as [Hnone | (l' & Hl' & Hge)]; [congruence|].
        assert (l = l') by congruence. lia. }
    (* the replica is taken *)
    assert (forall d st l,
              a1 = Some (d, st) -> text_of d = "0" ->
              candidate_lag max_log (name0, Ok a1, Ok a2, Ok a3) = Some l ->
              l < lag0 ->
              match choose_source_replica answers max_log l (Some name0) st s with
              | (Ok (src, stat), s') =>
                  s' = s /\ exists lag,
                    chosen_from ((name0, Ok a1, Ok a2, Ok a3) :: answers)
                      max_log lag0 src0 stat0 src stat lag
              | (_, s') => s' = s
              end) as Htake.
    { intros d st l -> Hd Hl Hlt. specialize (IH max_log l (Some name0) st s).
      destruct (choose_source_replica answers max_log l (Some name0) st s)
        as [[[src stat]|e|] s']; try done.
      destruct IH as [-> (lag & Hfrom & Hle & Hall)]. split; [done|].
      exists lag. split; [|split; [lia|]].
      - right. destruct Hfrom as [(-> & -> & ->)|(n & d' & g2 & g3 & Hin & ? & ? & ? & ?)].
        + exists name0, d, (Ok a2), (Ok a3). split; [apply list_elem_of_here|done].
        + exists n, d', g2, g3. split; [by apply list_elem_of_further|].
          repeat split; try done. lia.
      - constructor; [|done]. intros l' Hl'. assert (l' = l) by congruence. lia. }
    destruct a1 as [[d1 st1]|]; [|by apply Hskip; left].
    destruct a2 as [[d2 st2]|]; [|by apply Hskip; left].
    destruct a3 as [[d3 st3]|]; [|by apply Hskip; left].
    destruct (negb (String.eqb (text_of d1) "0")) eqn:Hlost.
    { apply Hskip. left. cbn. by rewrite Hlost. }
    apply negb_false_iff, String.eqb_eq in Hlost.
    unfold bind at 1.
    destruct (is_empty d2) eqn:Hempty.
    + cbn [ret].
      assert (candidate_lag max_log (name0, Ok (Some (d1, st1)), Ok (Some (d2, st2)),
                                     Ok (Some (d3, st3)))
              = Some (wrap (wrap (max_log - 0) + Z.of_nat (numChildren st3)))) as Hc.
      { cbn. rewrite Hlost. cbn. by rewrite Hempty. }
      destruct (_ <? _) eqn:Hlt.
      * apply Z.ltb_lt in Hlt. by eapply Htake.
      * apply Z.ltb_ge in Hlt. apply Hskip. right. eauto.
    + destruct (parse_number (text_of d2)) as [n|] eqn:Hparse; [|done]. cbn [ret].
      assert (candidate_lag max_log (name0, Ok (Some (d1, st1)), Ok (Some (d2, st2)),
                                     Ok (Some (d3, st3)))
              = Some (wrap (wrap (max_log - Z.of_N n) + Z.of_nat (numChildren st3)))) as Hc.
      { cbn. rewrite Hlost. cbn. rewrite Hempty, Hparse. done. }
      destruct (_ <? _) eqn:Hlt.
      * apply Z.ltb_lt in Hlt. by eapply Htake.
      * apply Z.ltb_ge in Hlt. apply Hskip. right. eauto.
Qed.

(** X5.  The replica that [cloneReplicaIfNeeded] clones from is chosen among
    the replicas that answered all three reads and are not lost (is_lost
    holds "0"): it is one whose lag (the entries of the log it has not
    pulled plus the size of its queue) is below the bound it started from
    and is the least among them, and the version of its is_lost node is
    the one that is handed on.  The choice sends no request. *)
Theorem choose_source_replica_not_lost_least_lag answers max_log_entry s :
  match choose_source_replica answers max_log_entry size_t_max None default_stat s with
  | (Ok (Some source_replica, source_is_lost_stat), s') =>
      s' = s
      /\ exists lag d f2 f3,
           (source_replica, Ok (Some (d, source_is_lost_stat)), f2, f3) ∈ answers
           /\ text_of d = "0"
           /\ candidate_lag max_log_entry
                (source_replica, Ok (Some (d, source_is_lost_stat)), f2, f3) = Some lag
           /\ lag < size_t_max
           /\ Forall (fun a => forall l, candidate_lag max_log_entry a = Some l -> lag <= l)
                answers
  | (Ok (None, _), s') =>
      s' = s
      /\ Forall (fun a => forall l, candidate_lag max_log_entry a = Some l -> size_t_max <= l)
           answers
  | (_, s') => s' = s
  end.
Proof.
  pose proof (choose_source_replica_least answers max_log_entry size_t_max None
                default_stat s) as H.
  destruct (choose_source_replica answers max_log_entry size_t_max None default_stat s)
    as [[[[src|] stat]|e|] s']; try done.
  - destruct H as [-> (lag & [Hfrom [Hle Hall]])]. split; [done|].
    destruct Hfrom as [(? & _)|(n & d & g2 & g3 & Hin & [= ->] & Hd & Hlag & Hlt)]; [done|].
    by exists lag, d, g2, g3.
  - destruct H as [-> (lag & [Hfrom [Hle Hall]])]. split; [done|].
    destruct Hfrom as [(_ & _ & ->)|(n & d & g2 & g3 & Hin & ? & _)]; done.
Qed.

Section Healthy.

Variable replica_name : string.
Variable detach_old_local_parts_when_cloning_replica : bool.
Variable are_restoring_replica : bool.
Variable max_retries : nat.
Variable metadata_version : Z.

(** X6.  A replica whose is_lost node holds "0" is not repaired:
    [cloneReplicaIfNeeded] returns after the one read; nothing is written,
    and the queue, the parts and the rest of the replica's state are as
    they were. *)
Theorem cloneReplicaIfNeeded_leaves_healthy_replica s n :
  served s ->
  zookeeper (run_events 1 s) !! is_lost_path replica_name = Some n ->
  text_of (data n) = "0" ->
  let r := cloneReplicaIfNeeded replica_name detach_old_local_parts_when_cloning_replica
             are_restoring_replica max_retries metadata_version s in
  r = (Ok tt, run_events 1 s)
  /\ committed r.2 = committed s
  /\ local_of r.2 = local_of s.
Proof.
  intros Hs Hn Hzero r.
  assert (r = (Ok tt, run_events 1 s)) as ->; [|done].
  unfold r, cloneReplicaIfNeeded.
  erewrite bind_ok; [|by apply zk_tryGet_served].
  rewrite Hn. cbn [fmap option_fmap option_map]. by rewrite Hzero.
Qed.

End Healthy.

(** A replica r1 that is not lost. *)
Definition healthy_tree : Tree :=
  <[[Name "replicas"; Name "r1"; Name "is_lost"] := node (Text "0") 0]>
    (replica_tree true false).

Lemma cloneReplicaIfNeeded_leaves_healthy_replica_run :
  let s := storage_of healthy_tree [] [held_5] in
  let n := node (Text "0") 0 in
  served s
  /\ zookeeper (run_events 1 s) !! is_lost_path "r1" = Some n
  /\ text_of (data n) = "0"
  /\ cloneReplicaIfNeeded "r1" true false 0 0 s = (Ok tt, run_events 1 s).
Proof.
  intros s n.
  assert (served s) as H1 by apply served_quiet.
  assert (zookeeper (run_events 1 s) !! is_lost_path "r1" = Some n) as H2
    by (vm_compute; reflexivity).
  assert (text_of (data n) = "0") as H3 by reflexivity.
  refine (conj H1 (conj H2 (conj H3 _))).
  exact (proj1 (cloneReplicaIfNeeded_leaves_healthy_replica "r1" true false 0 0 s n
                  H1 H2 H3)).
Defined.

(** * Facts about the path of the table *)

Lemma back_cons a (s : string) : s <> EmptyString -> back (String a s) = back s.
Proof. by destruct s. Qed.

Lemma pop_back_cons a (s : string) :
  s <> EmptyString -> pop_back (String a s) = String a (pop_back s).
Proof. by destruct s. Qed.

Lemma snoc_not_empty (s : string) c : s +:+ String c EmptyString <> EmptyString.
Proof. by destruct s. Qed.

Lemma back_snoc (s : string) c : back (s +:+ String c EmptyString) = Some c.
Proof.
  induction s as [|a s IH]; [done|].
  change (back (String a (s +:+ String c EmptyString)) = Some c).
  rewrite back_cons; [done|apply snoc_not_empty].
Qed.

Lemma pop_back_snoc (s : string) c : pop_back (s +:+ String c EmptyString) = s.
Proof.
  induction s as [|a s IH]; [done|].
  change (pop_back (String a (s +:+ String c EmptyString)) = String a s).
  rewrite pop_back_cons; [by rewrite IH|apply snoc_not_empty].
Qed.

Lemma pop_back_front (s : string) :
  pop_back s <> EmptyString -> front (pop_back s) = front s.
Proof. destruct s as [|a [|b s]]; done. Qed.

Lemma pop_back_empty (s : string) :
  pop_back s = EmptyString -> s = EmptyString \/ exists c, s = String c EmptyString.
Proof. destruct s as [|a [|b s]]; eauto; done. Qed.

(** X7.  A normalised path is empty or begins with a slash.  It is empty
    exactly for the empty path and for the path that is one slash.  One
    slash at the end makes no difference (a second one would): the path
    with a slash added normalises as the path itself does.  A path that
    begins with a slash and does not end with one is left as it is. *)
Theorem normalizeZooKeeperPath_shape (p : string) :
  (normalizeZooKeeperPath p = EmptyString
   \/ front (normalizeZooKeeperPath p) = Some "/"%char)
  /\ (normalizeZooKeeperPath p = EmptyString <-> p = EmptyString \/ p = "/"%string)
  /\ (back p <> Some "/"%char ->
      normalizeZooKeeperPath (p +:+ "/") = normalizeZooKeeperPath p)
  /\ (front p = Some "/"%char -> back p <> Some "/"%char -> normalizeZooKeeperPath p = p).
Proof.
  split; [|split; [|split]].
  - unfold normalizeZooKeeperPath.
    set (q := if bool_decide (p <> EmptyString) && bool_decide (back p = Some "/"%char)
              then pop_back p else p).
    destruct (bool_decide (q <> EmptyString) && bool_decide (front q <> Some "/"%char))
      eqn:H; [by right|].
    apply andb_false_iff in H as [H|H]; apply bool_decide_eq_false in H.
    + left. destruct (decide (q = EmptyString)) as [|Hq]; [done|]. by destruct H.
    + right. destruct (decide (front q = Some "/"%char)) as [|Hq]; [done|]. by destruct H.
  - unfold normalizeZooKeeperPath. split.
    + destruct (bool_decide (p <> "") && bool_decide (back p = Some "/"%char)) eqn:Hb.
      * apply andb_true_iff in Hb as [Hne Hback].
        apply bool_decide_eq_true in Hne, Hback.
        destruct (bool_decide (pop_back p <> "") && _) eqn:Hf; [done|].
        intros Hpop. apply pop_back_empty in Hpop as [?|[c ->]]; [by left|].
        right. cbn in Hback. by injection Hback as ->.
      * destruct (bool_decide (p <> "") && bool_decide (front p <> _)) eqn:Hf; [done|].
        auto.
    + by intros [-> | ->].
  - intros Hback. unfold normalizeZooKeeperPath.
    rewrite back_snoc, pop_back_snoc.
    rewrite (bool_decide_true (Some "/"%char = Some "/"%char)) by done.
    rewrite (bool_decide_false (back p = Some "/"%char)) by done.
    rewrite andb_true_r, andb_false_r.
    rewrite (bool_decide_true (p +:+ "/" <> "")); [done|]. by destruct p.
  - intros Hfront Hback. unfold normalizeZooKeeperPath.
    rewrite (bool_decide_false (back p = Some "/"%char)) by done.
    rewrite andb_false_r.
    rewrite (bool_decide_false (front p <> Some "/"%char)); [|by intros H; apply H].
    by rewrite andb_false_r.
Qed.

Lemma append_nil_l (x : string) : EmptyString +:+ x = x.
Proof. reflexivity. Qed.

Lemma append_cons a (s x : string) : String a s +:+ x = String a (s +:+ x).
Proof. reflexivity. Qed.

Lemma string_find_app (name rest : string) c :
  string_find c name = None ->
  string_find c (name +:+ String c rest) = Some (String.length name).
Proof.
  induction name as [|a name IH].
  - intros _. rewrite append_nil_l. cbn [string_find String.length].
    by rewrite Ascii.eqb_refl.
  - rewrite append_cons. cbn [string_find String.length].
    destruct (Ascii.eqb a c); [done|]. intros H.
    destruct (string_find c name); [done|]. by rewrite IH.
Qed.

Lemma substring_prefix (name rest : string) :
  String.substring 0 (String.length name) (name +:+ rest) = name.
Proof.
  induction name as [|a name IH].
  - rewrite append_nil_l. by destruct rest.
  - rewrite append_cons. cbn [String.substring String.length]. by rewrite IH.
Qed.

Lemma substring_all (s : string) n :
  (String.length s <= n)%nat -> String.substring 0 n s = s.
Proof.
  revert n. induction s as [|a s IH]; intros [|n] Hn;
    cbn [String.substring String.length] in *; try done; try lia.
  rewrite IH; [done|lia].
Qed.

Lemma substring_suffix (name rest : string) c n :
  (String.length rest <= n)%nat ->
  String.substring (String.length name + 1) n (name +:+ String c rest) = rest.
Proof.
  intros Hn. induction name as [|a name IH].
  - rewrite append_nil_l. cbn [String.length Nat.add String.substring].
    by apply substring_all.
  - rewrite append_cons. cbn [String.length Nat.add String.substring]. exact IH.
Qed.

Lemma length_append (s x : string) :
  String.length (s +:+ x) = (String.length s + String.length x)%nat.
Proof.
  induction s as [|a s IH]; [done|]. rewrite append_cons. cbn [String.length].
  by rewrite IH.
Qed.

(** X8.  The name and the path are taken apart at the first colon: for a
    name that is not empty and holds no colon, the path made of the name,
    a colon and the rest gives back the name, and the rest normalised.  A
    path without a colon that is not empty belongs to the service called
    "default", and is normalised whole. *)
Theorem extractZooKeeper_name_and_path (name rest : string) :
  name <> EmptyString ->
  string_find ":" name = None ->
  extractZooKeeperName (name +:+ String ":" rest) = Some name
  /\ extractZooKeeperPath (name +:+ String ":" rest) = Some (normalizeZooKeeperPath rest)
  /\ extractZooKeeperName name = Some "default"%string
  /\ extractZooKeeperPath name = Some (normalizeZooKeeperPath name).
Proof.
  intros Hne Hfind.
  assert (name +:+ String ":" rest <> EmptyString) as Hne'
    by (destruct name; [done|by rewrite append_cons]).
  unfold extractZooKeeperName, extractZooKeeperPath.
  rewrite !(bool_decide_false (_ = EmptyString)) by done.
  rewrite string_find_app, Hfind by done.
  rewrite substring_prefix, (bool_decide_false (name = EmptyString)) by done.
  repeat split.
  rewrite substring_suffix; [done|].
  rewrite length_append. cbn [String.length]. lia.
Qed.

Lemma extractZooKeeper_name_and_path_run :
  "aux"%string <> EmptyString
  /\ string_find ":" "aux" = None
  /\ extractZooKeeperName "aux:/clickhouse/tables/t/" = Some "aux"%string
  /\ extractZooKeeperPath "aux:/clickhouse/tables/t/" = Some "/clickhouse/tables/t"%string.
Proof.
  assert ("aux"%string <> EmptyString) as H1 by discriminate.
  assert (string_find ":" "aux" = None) as H2 by reflexivity.
  destruct (extractZooKeeper_name_and_path "aux" "/clickhouse/tables/t/" H1 H2)
    as (R1 & R2 & _).
  exact (conj H1 (conj H2 (conj R1 R2))).
Defined.

(** X9.  [extractZooKeeperName] throws exactly for the empty path and for a
    path that begins with a colon; [extractZooKeeperPath] throws exactly
    for the empty path.  A name that is answered is never empty. *)
Theorem extractZooKeeper_throws (path : string) :
  (extractZooKeeperName path = None
   <-> path = EmptyString \/ front path = Some ":"%char)
  /\ (extractZooKeeperPath path = None <-> path = EmptyString)
  /\ extractZooKeeperName path <> Some EmptyString.
Proof.
  unfold extractZooKeeperName, extractZooKeeperPath. split; [|split].
  - case_bool_decide as Hp; [by split; auto|].
    destruct path as [|a path]; [done|]. cbn [string_find front].
    destruct (Ascii.eqb a ":") eqn:Ha.
    + apply Ascii.eqb_eq in Ha as ->. cbn. split; auto.
    + assert (a <> ":"%char) as Hne by (by apply Ascii.eqb_neq).
      destruct (string_find ":" path) as [pos|]; cbn.
      * split; [done|]. intros [?|[= ?]]; done.
      * split; [done|]. intros [?|[= ?]]; done.
  - case_bool_decide; [done|]. destruct (string_find ":" path); by split.
  - case_bool_decide; [done|].
    destruct (string_find ":" path) as [pos|]; [|done].
    by case_bool_decide; [|intros [= ?]].
Qed.

(** * Facts about the delay of the replica *)


(** X10.  For times that are not negative the absolute delay lies between
    0 and the clock.  It is the clock itself for a replica that has never
    updated its queue, the age of the oldest insert that is not processed
    when there is one, and 0 when the queue is empty and the last update of
    the queue has come to its end. *)
Theorem getAbsoluteDelay_bounds
    (min_unprocessed_insert_time queue_update_start_time queue_update_finish_time
     current_time : Z) :
  0 <= current_time ->
  0 <= min_unprocessed_insert_time ->
  0 <= queue_update_start_time ->
  let delay := getAbsoluteDelay min_unprocessed_insert_time queue_update_start_time
                 queue_update_finish_time current_time in
  0 <= delay <= current_time
  /\ (queue_update_finish_time = 0 -> delay = current_time)
  /\ (queue_update_finish_time <> 0 -> 0 < min_unprocessed_insert_time <= current_time ->
      delay = current_time - min_unprocessed_insert_time)
  /\ (queue_update_finish_time <> 0 -> min_unprocessed_insert_time = 0 ->
      queue_update_start_time <= queue_update_finish_time -> delay = 0).
Proof.
  intros Hnow Hmin Hstart delay. unfold delay, getAbsoluteDelay.
  destruct (Z.eqb_spec queue_update_finish_time 0) as [Hf|Hf];
    destruct (Z.eqb_spec min_unprocessed_insert_time 0) as [Hm|Hm]; cbn [negb];
    destruct (Z.ltb_spec min_unprocessed_insert_time current_time);
    destruct (Z.ltb_spec queue_update_finish_time queue_update_start_time);
    destruct (Z.ltb_spec queue_update_start_time current_time);
    repeat split; intros; lia.
Qed.

Lemma getAbsoluteDelay_bounds_run :
  0 <= 1000 /\ 0 <= 400 /\ 0 <= 990
  /\ getAbsoluteDelay 400 990 995 1000 = 600
  /\ 0 <= getAbsoluteDelay 400 990 995 1000 <= 1000.
Proof.
  assert (0 <= 1000) as H1 by lia.
  assert (0 <= 400) as H2 by lia.
  assert (0 <= 990) as H3 by lia.
  destruct (getAbsoluteDelay_bounds 400 990 995 1000 H1 H2 H3) as (R1 & _ & R3 & _).
  refine (conj H1 (conj H2 (conj H3 (conj _ R1)))).
  apply R3; lia.
Defined.

(** What a method answers when it answers. *)
Definition ensures {A} (P : A -> Prop) (m : M A) : Prop :=
  forall s, match (m s).1 with Ok a => P a | _ => True end.

Lemma ensures_ret {A} (P : A -> Prop) a : P a -> ensures P (ret a).
Proof. by intros H s. Qed.

Lemma ensures_throw {A} (P : A -> Prop) e : ensures P (@throw A e).
Proof. by intros s. Qed.

Lemma ensures_bind {A B} (P : B -> Prop) (m : M A) (k : A -> M B) :
  (forall a, ensures P (k a)) -> ensures P (bind m k).
Proof.
  intros Hk s. unfold bind. destruct (m s) as [[a|e|] s1]; cbn; try done. apply Hk.
Qed.

Section DelayBounds.

Variable replica_name : string.
Variable min_relative_delay_to_measure : N.
Variable min_unprocessed_insert_time queue_update_start_time queue_update_finish_time : Z.
Variable assertNotReadonly : M unit.




End DelayBounds.

(** * Facts about the last parts written with a quorum *)

(** What a pass of [cleanLastPartNode] that ends the loop has done, for
    the node [n] of the last parts that it read and the tree [t_write]
    that the service held at its write: nothing, when the map read has
    nothing for the partition or the node has gone since; else one set of
    the node, checked against the version read, with the map read less
    the partition. *)
Definition clears_partition (partition_id : string) (n : ZNode) (t_write : Tree)
    (l : list Request) : Prop :=
  exists m,
    parse_added_parts (data n) = ret m
    /\ match m !! partition_id with
       | None => l = []
       | Some _ =>
           (l = [] /\ t_write !! quorum_last_part_path = None)
           \/ (l = [SetRequest quorum_last_part_path
                      (AddedParts (delete partition_id m)) (node_version n)]
               /\ exists n2, t_write !! quorum_last_part_path = Some n2
                             /\ version_ok n2 (node_version n) = true)
       end.

(** The trees are those that the service holds at the requests of the
    call, counted from its first. *)
Definition cleanLastPartNode_outcome (pid : string) (s s' : Storage) : Prop :=
  exists k n l,
    zookeeper (run_events (S k) s) !! quorum_last_part_path = Some n
    /\ committed s' = committed s ++ l
    /\ clears_partition pid n (zookeeper (run_events (S (S k)) s)) l.

Definition cleanLastPartNode_body_post (pid : string) (s : Storage)
    (r : Result (LoopStep unit)) (s' : Storage) : Prop :=
  local_of s' = local_of s
  /\ match r with
     | OutOfFuel => False
     | Throw _ => committed s' = committed s
     | Ok Continue => schedule s <> [] /\ exists k, (1 <= k)%nat /\ s' = run_events k s
     | Ok (Break _) => cleanLastPartNode_outcome pid s s'
     end.

Lemma local_of_run_events k s : local_of (run_events k s) = local_of s.
Proof. done. Qed.

Lemma cleanLastPartNode_body_spec pid s :
  wp (cleanLastPartNode_body pid) (cleanLastPartNode_body_post pid s) s.
Proof.
  unfold cleanLastPartNode_body.
  apply wp_bind, wp_get; [done|done|]. intros n Hs Hn. cbn [lift_post].
  apply wp_bind.
  destruct (parse_added_parts_cases (data n)) as [[m Hparse] | ->]; [|done].
  rewrite Hparse. apply wp_ret. cbn [lift_post].
  case_bool_decide as Hm.
  { apply wp_ret. split; [done|]. exists 0%nat, n, []. split; [done|].
    split; [by rewrite app_nil_r|]. exists m. split; [done|]. by rewrite Hm. }
  apply wp_bind, wp_trySet; [done|]. intros r t' Hs1 Hset. cbn [lift_post].
  rewrite run_events_add in *. cbn [Nat.add] in *.
  pose proof (apply_set _ _ _ _ _ _ Hset) as Hc.
  destruct (m !! pid) as [old|] eqn:Hold; [|done].
  destruct (error r); try done; apply wp_ret; (split; [done|]).
  - exists 0%nat, n, [SetRequest quorum_last_part_path (AddedParts (delete pid m))
                       (node_version n)].
    split; [done|]. split; [done|]. exists m. split; [done|]. rewrite Hold. right.
    split; [done|]. destruct Hc as (n2 & Hn2 & Hv & _). by exists n2.
  - exists 0%nat, n, []. split; [done|]. split; [by rewrite app_nil_r|].
    exists m. split; [done|]. rewrite Hold. left. by destruct Hc.
  - destruct Hc as (n2 & Hn2 & Hv & ->). cbn [recorded]. rewrite set_zookeeper_id. split.
    + intros Hnil. rewrite !run_events_nil in * by done.
      assert (n2 = n) as -> by congruence.
      cbn in Hv. by rewrite version_ok_refl in Hv.
    + exists 2%nat. split; [lia|done].
Qed.

Lemma cleanLastPartNode_outcome_shift pid k s s' :
  cleanLastPartNode_outcome pid (run_events k s) s' -> cleanLastPartNode_outcome pid s s'.
Proof.
  intros (j & n & l & Hn & Hc & Hl). rewrite !run_events_add in *.
  exists (k + j)%nat, n, l. by rewrite <- !Nat.add_succ_r.
Qed.

Lemma cleanLastPartNode_loop_spec pid fuel : forall s,
  (length (schedule s) < fuel)%nat ->
  wp (while_true fuel (cleanLastPartNode_body pid))
    (fun r s' =>
       local_of s' = local_of s
       /\ match r with
          | OutOfFuel => False
          | Throw _ => committed s' = committed s
          | Ok _ => cleanLastPartNode_outcome pid s s'
          end) s.
Proof.
  induction fuel as [|fuel IH]; intros s Hfuel; [lia|].
  cbn [while_true]. apply wp_bind.
  eapply wp_mono; [|apply cleanLastPartNode_body_spec].
  intros [[[]|]|e|] s1; cbn [cleanLastPartNode_body_post lift_post]; try done.
  intros [Hk (Hne & k & Hk1 & ->)].
  eapply wp_mono; [|apply IH].
  - intros [[]|e|] s2; try done.
    intros [Hk2 Hout]. split; [done|]. by apply cleanLastPartNode_outcome_shift in Hout.
  - rewrite length_schedule_run_events.
    destruct (schedule s); [done|]. cbn [length] in *. lia.
Qed.

(** X12.  [cleanLastPartNode] comes to an end and writes at most once.
    When it returns, its last pass read quorum/last_part at some request
    of the call and found the map of the last parts there: with nothing
    for the partition in it, nothing was written; else the one write is
    a set of quorum/last_part, checked against the version of the node
    that was read, with that map less the partition (or nothing, the node
    having gone at the write).  Passes that lose the race, and a method
    that throws, write nothing.  The replica's own state is as it was. *)
Theorem cleanLastPartNode_clears_partition pid s :
  let r := cleanLastPartNode pid s in
  r.1 <> OutOfFuel
  /\ local_of r.2 = local_of s
  /\ exists l, committed r.2 = committed s ++ l
               /\ match r.1 with
                  | Ok _ =>
                      exists k n,
                        zookeeper (run_events (S k) s) !! quorum_last_part_path = Some n
                        /\ clears_partition pid n (zookeeper (run_events (S (S k)) s)) l
                  | _ => l = []
                  end.
Proof.
  cbv zeta. unfold cleanLastPartNode, retry_loop.
  pose proof (cleanLastPartNode_loop_spec pid (S (length (schedule s))) s
                ltac:(lia)) as H.
  unfold wp in H.
  destruct (while_true _ _ s) as [[[]|e|] s']; cbn in *.
  - destruct H as [Hk (k & n & l & Hn & Hc & Hl)]. repeat split; try done.
    exists l. split; [done|]. by exists k, n.
  - destruct H as [Hk Hc]. repeat split; try done. exists []. by rewrite app_nil_r.
  - by destruct H.
Qed.

Lemma served_of_quiet s : schedule s = [] -> served s.
Proof. intros H e. by rewrite H. Qed.

Lemma zk_get_quiet p s n :
  schedule s = [] -> zookeeper s !! p = Some n ->
  zk_get p s = (Ok (data n, stat_of (zookeeper s) p n), s).
Proof.
  intros Hq Hn. unfold zk_get.
  erewrite bind_ok; [|by apply zk_tryGet_served, served_of_quiet].
  rewrite run_events_nil by done. by rewrite Hn.
Qed.

(** What [partIsLastQuorumPart] answers from a node of the last parts. *)
Definition is_last_part_in (d : Data) (part_info : MergeTreePartInfo) : bool :=
  match d with
  | AddedParts m => bool_decide (m !! partition_id part_info = Some part_info)
  | _ => false
  end.

Lemma partIsLastQuorumPart_quiet part_info s n :
  schedule s = [] -> zookeeper s !! quorum_last_part_path = Some n ->
  (exists m, data n = AddedParts m) \/ data n = Text "" ->
  partIsLastQuorumPart part_info s = (Ok (is_last_part_in (data n) part_info), s).
Proof.
  intros Hq Hn Hd. unfold partIsLastQuorumPart.
  erewrite bind_ok; [|by apply zk_get_quiet]. cbv beta iota.
  destruct Hd as [[m ->] | ->]; cbn; [|done].
  destruct (m !! partition_id part_info) as [p|] eqn:Hp; cbn.
  - unfold ret. f_equal. f_equal. apply bool_decide_ext.
    split; [by intros ->|by intros [= ->]].
  - by rewrite bool_decide_false.
Qed.

(** X13.  With no other client at work, and quorum/last_part holding the
    last parts (or nothing yet): [cleanLastPartNode] returns, and
    afterwards [partIsLastQuorumPart] answers false for every part of the
    partition, and for the parts of the other partitions what it
    answered before. *)
Theorem cleanLastPartNode_forgets_partition pid part_info s n :
  schedule s = [] ->
  zookeeper s !! quorum_last_part_path = Some n ->
  (exists m, data n = AddedParts m) \/ data n = Text "" ->
  let r := cleanLastPartNode pid s in
  r.1 = Ok tt
  /\ (partIsLastQuorumPart part_info r.2).1
     = Ok (if bool_decide (partition_id part_info = pid) then false
           else is_last_part_in (data n) part_info).
Proof.
  intros Hq Hn Hd r. unfold r, cleanLastPartNode, retry_loop. rewrite Hq.
  cbn [length while_true].
  assert (exists s', cleanLastPartNode_body pid s = (Ok (Break tt), s')
            /\ (partIsLastQuorumPart part_info s').1
               = Ok (if bool_decide (partition_id part_info = pid) then false
                     else is_last_part_in (data n) part_info))
    as (s' & Hbody & Hlook); [|by rewrite (bind_ok _ _ _ _ _ Hbody)].
  unfold cleanLastPartNode_body.
  erewrite bind_ok; [|by apply zk_get_quiet]. cbv beta iota.
  assert (exists m, parse_added_parts (data n) = ret m
                    /\ forall p, is_last_part_in (data n) p
                                 = bool_decide (m !! partition_id p = Some p))
    as (m & Hparse & Hlast).
  { destruct Hd as [[m ->] | ->]; [by exists m|]. exists ∅. split; [done|].
    intros p. cbn. by rewrite lookup_empty, bool_decide_false. }
  rewrite Hparse. unfold bind at 1. cbn [ret fst snd].
  case_bool_decide as Hm.
  - eexists. split; [done|].
    erewrite partIsLastQuorumPart_quiet by done. cbn [fst]. f_equal.
    destruct (decide (partition_id part_info = pid)) as [Hpid|Hpid].
    + rewrite (bool_decide_true (partition_id part_info = pid)) by done.
      rewrite Hlast. apply bool_decide_eq_false. by rewrite Hpid, Hm.
    + by rewrite (bool_decide_false (partition_id part_info = pid)) by done.
  - destruct (apply_request (zookeeper (run_events 1 s))
                (SetRequest quorum_last_part_path (AddedParts (delete pid m))
                   (version (stat_of (zookeeper s) quorum_last_part_path n))))
      as [resp t'] eqn:Hset.
    erewrite bind_ok;
      [|by apply zk_trySet_served; [apply served_of_quiet|exact Hset]].
    pose proof (apply_set _ _ _ _ _ _ Hset) as Hc.
    rewrite run_events_nil in * by done.
    destruct (error resp) eqn:Herr; try done.
    + destruct Hc as (n2 & Hn2 & Hv & ->).
      eexists. split; [done|].
      rewrite (partIsLastQuorumPart_quiet part_info _
                 {| data := AddedParts (delete pid m);
                    node_version := node_version n2 + 1;
                    node_cversion := node_cversion n2;
                    node_ctime := node_ctime n2 |}).
      * cbn [fst]. f_equal. cbn [data is_last_part_in].
        destruct (decide (partition_id part_info = pid)) as [Hpid|Hpid].
        -- rewrite (bool_decide_true (partition_id part_info = pid)) by done.
           apply bool_decide_eq_false. by rewrite Hpid, lookup_delete_eq.
        -- rewrite (bool_decide_false (partition_id part_info = pid)) by done.
           rewrite Hlast. apply bool_decide_ext. by rewrite lookup_delete_ne.
      * done.
      * cbn. apply lookup_insert_eq.
      * left. by eexists.
    + destruct Hc as [Hnone _]. congruence.
    + destruct Hc as (n2 & Hn2 & Hv & _).
      assert (n2 = n) as -> by congruence.
      cbn in Hv. by rewrite version_ok_refl in Hv.
Qed.

Lemma multi_remove_set_served (t : Tree) (p q : Path) v d v2 n m :
  p <> q ->
  t !! p = Some n -> version_ok n v = true -> children t p = [] ->
  t !! q = Some m -> version_ok m v2 = true ->
  exists resps t' m',
    multi t [RemoveRequest p v; SetRequest q d v2] = (ZOK, resps, t')
    /\ t' !! p = None /\ t' !! q = Some m' /\ data m' = d.
Proof.
  intros Hpq Hn Hv Hch Hm Hv2. unfold multi. cbn [apply_requests apply_request].
  rewrite Hn, Hv. cbn [negb]. rewrite Hch, bool_decide_false by (by intros H; apply H).
  cbn [error].
  assert (bump_cversion (parent p) (delete p t) !! q
          = Some {| data := data m; node_version := node_version m;
                    node_cversion := if bool_decide (parent p = q)
                                     then N.succ (node_cversion m) else node_cversion m;
                    node_ctime := node_ctime m |}) as Hq.
  { rewrite lookup_bump_cversion, lookup_delete_ne, Hm by done. done. }
  rewrite Hq. unfold version_ok in *. cbn [node_version]. rewrite Hv2. cbn [negb error].
  eexists _, _, _. split; [done|]. split; [|split].
  - rewrite lookup_insert_ne by done.
    apply lookup_bump_cversion_None, lookup_delete_eq.
  - apply lookup_insert_eq.
  - done.
Qed.

(** X14.  With no other client at work: when this replica's confirmation
    completes the quorum of an insert that is not parallel, [updateQuorum]
    returns with the entry of the quorum removed, and from then on
    [partIsLastQuorumPart] answers true for the part: what the one has
    recorded is what the other looks up. *)
Theorem updateQuorum_then_partIsLastQuorumPart me p s ns q nl :
  schedule s = [] ->
  zookeeper s !! quorum_status_path p false = Some ns ->
  data ns = QuorumStatus q ->
  part_name q = p ->
  (required_number_of_replicas q <= size ({[me]} ∪ replicas q))%nat ->
  children (zookeeper s) (quorum_status_path p false) = [] ->
  zookeeper s !! quorum_last_part_path = Some nl ->
  (exists m, data nl = AddedParts m) \/ data nl = Text "" ->
  let r := updateQuorum me p false s in
  r.1 = Ok tt
  /\ zookeeper r.2 !! quorum_status_path p false = None
  /\ (partIsLastQuorumPart p r.2).1 = Ok true.
Proof.
  intros Hq Hns Hdata Hname Hreq Hch Hnl Hd r.
  unfold r, updateQuorum, retry_loop. rewrite Hq. cbn [length while_true].
  assert (exists s', updateQuorum_body me p false s = (Ok (Break tt), s')
            /\ zookeeper s' !! quorum_status_path p false = None
            /\ (partIsLastQuorumPart p s').1 = Ok true)
    as (s' & Hbody & Hgone & Hlook); [|by rewrite (bind_ok _ _ _ _ _ Hbody)].
  unfold updateQuorum_body.
  erewrite bind_ok; [|by apply zk_tryGet_served, served_of_quiet].
  rewrite run_events_nil by done. rewrite Hns. cbn [fmap option_fmap option_map].
  rewrite Hdata. unfold parse_quorum_entry. unfold bind at 1. cbn [ret fst snd].
  rewrite bool_decide_false by (by intros H; apply H).
  rewrite bool_decide_true by done. cbn [negb].
  assert (exists old, parse_added_parts (data nl) = ret old) as [old Hold].
  { destruct Hd as [[m ->] | ->]; by eexists. }
  erewrite (bind_ok (bind (zk_get _) _)).
  2:{ erewrite bind_ok; [|by apply zk_get_quiet].
      cbv beta iota. rewrite Hold. unfold bind, ret. cbn [fst snd]. reflexivity. }
  cbv beta.
  destruct (multi_remove_set_served (zookeeper s) (quorum_status_path p false)
              quorum_last_part_path
              (version (stat_of (zookeeper s) (quorum_status_path p false) ns))
              (AddedParts (<[partition_id p := p]> old))
              (version (stat_of (zookeeper s) quorum_last_part_path nl)) ns nl)
    as (resps & t' & m' & Hmulti & Hgone & Hm' & Hdata');
    try done; try apply version_ok_refl.
  erewrite bind_ok.
  2:{ apply zk_tryMulti_served; [done|by apply served_of_quiet|].
      rewrite run_events_nil by done. exact Hmulti. }
  cbv beta iota. cbn [after_write recorded].
  eexists. split; [done|]. cbn [zookeeper set_committed set_zookeeper].
  split; [done|].
  rewrite (partIsLastQuorumPart_quiet p _ m').
  - rewrite Hdata'. cbn. f_equal. apply bool_decide_eq_true. apply lookup_insert_eq.
  - by rewrite run_events_nil.
  - done.
  - left. by eexists.
Qed.

(** * Facts about the replica to fetch a part from *)

Section FindReplicaFacts.

Variable replica_name : string.
Variable shuffle : list Segment -> list Segment.

(** A replica that was seen to have the part, and to be active if that
    was asked for, at some of the first [k] requests after [s]. *)
Definition seen_with_part (part_name : PartName) (active : bool) (replica : Segment)
    (s : Storage) (k : nat) : Prop :=
  (exists i, (1 <= i <= k)%nat
     /\ is_Some (zookeeper (run_events i s)
                 !! (replicas_path ++ [replica; Name "parts"; Part part_name])))
  /\ (active = true ->
      exists i, (1 <= i <= k)%nat
        /\ is_Some (zookeeper (run_events i s)
                    !! (replicas_path ++ [replica; Name "is_active"]))).

Lemma seen_with_part_shift part_name active replica s j k :
  seen_with_part part_name active replica (run_events j s) k ->
  seen_with_part part_name active replica s (j + k).
Proof.
  intros [(i & Hi & Hpart) Hact]. split.
  - exists (j + i)%nat. rewrite run_events_add in Hpart. split; [lia|done].
  - intros Ha. destruct (Hact Ha) as (i' & Hi' & Hnode).
    exists (j + i')%nat. rewrite run_events_add in Hnode. split; [lia|done].
Qed.

Lemma findReplicaHavingPart_loop_spec part_name active replicas : forall s,
  wp (findReplicaHavingPart_loop replica_name part_name active replicas)
    (fun r s' =>
       local_of s' = local_of s /\ committed s' = committed s
       /\ match r with
          | Ok (Some replica) =>
              replica ∈ replicas /\ replica <> Name replica_name
              /\ exists k, seen_with_part part_name active replica s k
          | Ok None | Throw _ => True
          | OutOfFuel => False
          end) s.
Proof.
  induction replicas as [|replica rest IH]; intros s; cbn [findReplicaHavingPart_loop].
  - by apply wp_ret.
  - assert (forall j,
      wp (findReplicaHavingPart_loop replica_name part_name active rest)
        (fun r s' =>
           local_of s' = local_of s /\ committed s' = committed s
           /\ match r with
              | Ok (Some replica') =>
                  replica' ∈ replica :: rest /\ replica' <> Name replica_name
                  /\ exists k, seen_with_part part_name active replica' s k
              | Ok None | Throw _ => True
              | OutOfFuel => False
              end) (run_events j s)) as Hrest.
    { intros j. eapply wp_mono; [|apply IH].
      intros [[replica'|]|e|] s'; cbn; try done.
      intros (Hk & Hc & Hin & Hne & k & Hseen). repeat split; try done.
      - by apply list_elem_of_further.
      - exists (j + k)%nat. by apply seen_with_part_shift. }
    case_bool_decide as Hself.
    { specialize (Hrest 0%nat). by rewrite run_events_0 in Hrest. }
    unfold checkReplicaHavePart.
    apply wp_bind, wp_exists; [done|]. intros Hs. cbn [lift_post].
    case_bool_decide as Hpart.
    + destruct active; cbn [negb].
      * apply wp_bind, wp_exists; [done|]. intros Hs1. cbn [lift_post].
        rewrite run_events_add. cbn [Nat.add].
        case_bool_decide as Hact.
        -- apply wp_ret. repeat split; try done; [apply list_elem_of_here|].
           exists 2%nat. split.
           ++ exists 1%nat. split; [lia|done].
           ++ intros _. exists 2%nat. split; [lia|done].
        -- apply Hrest.
      * apply wp_bind, wp_ret. cbn [lift_post]. apply wp_ret.
        repeat split; try done; [apply list_elem_of_here|].
        exists 1%nat. split; [|done]. exists 1%nat. split; [lia|done].
    + apply wp_bind, wp_ret. cbn [lift_post]. apply Hrest.
Qed.

(** X15.  [findReplicaHavingPart] only reads.  The replica it answers is
    never this replica; it is one of the children of replicas/ that were
    listed, and it was seen to have the part under its parts (and, when an
    active replica is asked for, to have its is_active node) at a request
    of this call. *)
Theorem findReplicaHavingPart_finds_other_replica part_name active s :
  let r := findReplicaHavingPart replica_name shuffle part_name active s in
  local_of r.2 = local_of s
  /\ committed r.2 = committed s
  /\ match r.1 with
     | Ok (Some replica) =>
         replica <> Name replica_name
         /\ replica ∈ shuffle (children (zookeeper (run_events 1 s)) replicas_path)
         /\ exists k, seen_with_part part_name active replica s k
     | Ok None | Throw _ => True
     | OutOfFuel => False
     end.
Proof.
  cbv zeta. unfold findReplicaHavingPart.
  change (wp (let* replicas := zk_getChildren replicas_path in
              findReplicaHavingPart_loop replica_name part_name active (shuffle replicas))
            (fun r s' =>
               local_of s' = local_of s /\ committed s' = committed s
               /\ match r with
                  | Ok (Some replica) =>
                      replica <> Name replica_name
                      /\ replica ∈ shuffle (children (zookeeper (run_events 1 s))
                                              replicas_path)
                      /\ exists k, seen_with_part part_name active replica s k
                  | Ok None | Throw _ => True
                  | OutOfFuel => False
                  end) s).
  apply wp_bind. unfold zk_getChildren.
  apply wp_bind, wp_request; [done|]. intros Hs. cbn [fst snd lift_post].
  rewrite set_zookeeper_id.
  destruct (zookeeper (run_events 1 s) !! replicas_path) as [n|];
    cbn [fmap option_fmap option_map]; [|done].
  apply wp_ret. cbn [lift_post].
  eapply wp_mono; [|apply findReplicaHavingPart_loop_spec].
  intros [[replica|]|e|] s'; cbn; try done.
  intros (Hk & Hc & Hin & Hne & k & Hseen). repeat split; try done.
  exists (1 + k)%nat. by apply seen_with_part_shift.
Qed.

End FindReplicaFacts.

(** * Removal of one part, and the fetch that replaces it *)

Lemma apply_requests_app_ok (t : Tree) ops1 ops2 resps t' :
  apply_requests t (ops1 ++ ops2) = (ZOK, resps, t') ->
  exists resps1 t1 resps2,
    apply_requests t ops1 = (ZOK, resps1, t1)
    /\ apply_requests t1 ops2 = (ZOK, resps2, t')
    /\ resps = resps1 ++ resps2.
Proof.
  revert t resps t'. induction ops1 as [|r ops1 IH]; intros t resps t'; cbn [app].
  - intros H. by eexists [], t, resps.
  - cbn [apply_requests]. destruct (apply_request t r) as [resp t0].
    destruct (error resp) eqn:Herr; try (by intros [= ? ? ?]).
    destruct (apply_requests t0 (ops1 ++ ops2)) as [[code resps'] t2] eqn:Happ.
    intros [= -> <- ->].
    apply IH in Happ as (resps1 & t1 & resps2 & H1 & H2 & ->).
    rewrite H1. by eexists _, _, _.
Qed.

Lemma apply_create_persistent_sequential (t : Tree) (dir : Path) prefix d r t' :
  apply_request t (CreateRequest (dir ++ [Name prefix]) d PersistentSequential) = (r, t') ->
  error r = ZOK ->
  exists par,
    t !! dir = Some par
    /\ path_created r = dir ++ [Sequential prefix (node_cversion par)]
    /\ t' !! path_created r = Some (new_node d).
Proof.
  cbn [apply_request]. unfold actual_path. rewrite parent_snoc, last_snoc.
  destruct (t !! dir) as [par|] eqn:Hpar; [|by intros [= <- <-]].
  destruct (t !! (dir ++ [Sequential prefix (node_cversion par)])) eqn:Hq;
    [by intros [= <- <-]|].
  intros [= <- <-] _. exists par. cbn. repeat split.
  by rewrite lookup_insert_eq.
Qed.

Lemma parent_ne (p : Path) : p <> [] -> parent p <> p.
Proof.
  intros Hp Heq. apply (f_equal length) in Heq. unfold parent in Heq.
  destruct (exists_last Hp) as (l & x & ->).
  rewrite removelast_last, length_app in Heq. cbn in Heq. lia.
Qed.

Lemma remove_last_gone (t : Tree) ops (p : Path) v resps t' :
  p <> [] ->
  multi t (ops ++ [RemoveRequest p v]) = (ZOK, resps, t') -> t' !! p = None.
Proof.
  intros Hp. unfold multi.
  destruct (apply_requests t (ops ++ [RemoveRequest p v])) as [[code resps0] t0] eqn:Happ.
  destruct code; intros [= <- <-]; try done.
  apply apply_requests_app_ok in Happ as (resps1 & t1 & resps2 & _ & Hlast & _).
  cbn [apply_requests apply_request] in Hlast.
  destruct (t1 !! p) as [n|]; [|done].
  destruct (negb _); [done|]. case_bool_decide; [done|].
  cbn in Hlast. injection Hlast as _ <-.
  apply lookup_bump_cversion_None, lookup_delete_eq.
Qed.

Section RemovePartFacts.

Variable replica_name : string.

Lemma hp_multi ops s :
  ops <> [] ->
  hp (zk_multi ops)
    (fun r s' l =>
       local_of s' = local_of s
       /\ match r with
          | Ok resps =>
              l = ops
              /\ exists t', multi (zookeeper (run_events 1 s)) ops = (ZOK, resps, t')
                            /\ zookeeper s' = t'
          | Throw _ => l = []
          | OutOfFuel => False
          end) s.
Proof.
  intros Hne. unfold hp, zk_multi. destruct (served_dec s) as [Hs | [e He]].
  - destruct (multi (zookeeper (run_events 1 s)) ops) as [[code resps] t'] eqn:Hm.
    erewrite bind_ok; [|by apply zk_tryMulti_served].
    destruct code; cbn; try (exists []; by rewrite app_nil_r).
    exists ops. repeat split; try done. by exists t'.
  - erewrite bind_throw.
    2:{ unfold zk_tryMulti. destruct ops as [|op ops]; [done|].
        erewrite bind_throw; [done|by apply request_failed]. }
    exists []. cbn. by rewrite app_nil_r.
Qed.

Lemma removePartFromZooKeeper_not_nil part_name has_children :
  removePartFromZooKeeper replica_name part_name has_children <> [].
Proof. unfold removePartFromZooKeeper. by destruct has_children. Qed.

(** X16.  [removePartFromZooKeeper] of a part name sends nothing when the
    part has no node under the parts of this replica; else it sends one
    multi that removes the node, with its checksums and columns when it
    has children.  When the multi is carried out the node is gone; when
    it is refused the method throws and nothing is written. *)
Theorem removePartFromZooKeeper_by_name_removes_node part_name s :
  let r := removePartFromZooKeeper_by_name replica_name part_name s in
  let part_path := replica_path replica_name ++ [Name "parts"; Part part_name] in
  local_of r.2 = local_of s
  /\ exists l, committed r.2 = committed s ++ l
      /\ match r.1 with
         | Ok _ =>
             (l = [] /\ zookeeper (run_events 1 s) !! part_path = None)
             \/ ((exists has_children,
                    l = removePartFromZooKeeper replica_name part_name has_children)
                 /\ zookeeper r.2 !! part_path = None)
         | Throw _ => l = []
         | OutOfFuel => False
         end.
Proof.
  cbv zeta. unfold removePartFromZooKeeper_by_name.
  destruct (served_dec s) as [Hs | [e He]].
  2:{ erewrite bind_throw; [|by apply request_failed].
      split; [done|]. exists []. cbn. by rewrite app_nil_r. }
  erewrite bind_ok; [|by apply request_served]. cbn [fst snd].
  rewrite set_zookeeper_id.
  destruct (zookeeper (run_events 1 s) !! _) as [n|] eqn:Hn;
    cbn [fmap option_fmap option_map].
  2:{ split; [done|]. exists []. cbn. rewrite app_nil_r. split; [done|]. by left. }
  set (ops := removePartFromZooKeeper replica_name part_name _).
  destruct (hp_multi ops (run_events 1 s)) as (l & Hc & Hk & Hl);
    [apply removePartFromZooKeeper_not_nil|].
  destruct (zk_multi ops (run_events 1 s)) as [[resps|e|] s1] eqn:Hmulti;
    cbn [fst snd] in *; [| |done].
  - rewrite (bind_ok _ _ _ _ _ Hmulti). unfold ret. cbn [fst snd].
    split; [exact Hk|]. exists l. split; [exact Hc|]. right.
    destruct Hl as (-> & t' & Hm & Ht'). split; [by eexists|].
    rewrite Ht'. unfold ops, removePartFromZooKeeper in Hm.
    eapply remove_last_gone; [|exact Hm]. by destruct (replica_path _).
  - rewrite (bind_throw _ _ _ _ _ Hmulti). cbn [fst snd].
    split; [exact Hk|]. exists l. split; [exact Hc|done].
Qed.

(** X17.  [removePartAndEnqueueFetch] sends one multi, made from what its
    one read found: when the part has a node under the parts of this
    replica, the removal of that node (with its checksums and columns when
    it has children), and in every case the creation under queue/ of a
    GET_PART entry for the part, from no particular replica, whose
    creation time is that of the node found, in seconds rounded towards
    zero (0 when there was no node).  So the part is never removed without
    the fetch being queued: either the whole multi is carried out, and
    the entry handed to the queue carries the name of the node that was
    made, or nothing is written and the method throws. *)
Theorem removePartAndEnqueueFetch_is_atomic part_name s :
  let r := removePartAndEnqueueFetch_multi replica_name part_name s in
  let part_path := replica_path replica_name ++ [Name "parts"; Part part_name] in
  let t := zookeeper (run_events 1 s) in
  let removal :=
    match t !! part_path with
    | Some _ =>
        removePartFromZooKeeper replica_name part_name
          (bool_decide (0 < length (children t part_path))%nat)
    | None => []
    end in
  let part_create_time :=
    match t !! part_path with
    | Some n => node_ctime n ÷ 1000
    | None => 0
    end in
  local_of r.2 = local_of s
  /\ exists l, committed r.2 = committed s ++ l
      /\ match r.1 with
         | Ok log_entry =>
             l = removal
                 ++ [CreateRequest (replica_path replica_name
                                    ++ [Name "queue"; Name "queue-"])
                       (Entry (fetch_entry part_name part_create_time))
                       PersistentSequential]
             /\ log_entry = set_znode_name (znode_name log_entry)
                              (fetch_entry part_name part_create_time)
             /\ exists n, znode_name log_entry = Some (Sequential "queue-" n)
                          /\ data <$> zookeeper r.2
                               !! (replica_path replica_name
                                   ++ [Name "queue"; Sequential "queue-" n])
                             = Some (Entry (fetch_entry part_name part_create_time))
         | Throw _ => l = []
         | OutOfFuel => False
         end.
Proof.
  cbv zeta. unfold removePartAndEnqueueFetch_multi.
  destruct (served_dec s) as [Hs | [e He]].
  2:{ erewrite bind_throw; [|by apply request_failed].
      split; [done|]. exists []. cbn. by rewrite app_nil_r. }
  erewrite bind_ok; [|by apply request_served]. cbn [fst snd].
  rewrite set_zookeeper_id.
  set (part_path := replica_path replica_name ++ [Name "parts"; Part part_name]).
  set (tree := zookeeper (run_events 1 s)).
  set (removal := match tree !! part_path with
                  | Some _ =>
                      removePartFromZooKeeper replica_name part_name
                        (bool_decide (0 < length (children tree part_path))%nat)
                  | None => []
                  end).
  set (t := match tree !! part_path with
            | Some n => node_ctime n ÷ 1000
            | None => 0
            end).
  assert (match stat_of tree part_path <$> tree !! part_path with
          | Some stat =>
              (ctime stat ÷ 1000,
               removePartFromZooKeeper replica_name part_name
                 (bool_decide (0 < numChildren stat)%nat))
          | None => (0, [])
          end = (t, removal)) as ->.
  { unfold t, removal. by destruct (tree !! part_path). }
  set (ops := removal ++ [_]).
  destruct (hp_multi ops (run_events 1 s)) as (l & Hc & Hk & Hl);
    [subst ops; by destruct removal|].
  destruct (zk_multi ops (run_events 1 s)) as [[resps|e|] s1] eqn:Hmulti;
    cbn [fst snd] in *; [| |done].
  2:{ rewrite (bind_throw _ _ _ _ _ Hmulti). cbn [fst snd].
      split; [exact Hk|]. exists l. split; [exact Hc|done]. }
  rewrite (bind_ok _ _ _ _ _ Hmulti). unfold ret. cbn [fst snd].
  split; [exact Hk|]. exists l. split; [exact Hc|].
  destruct Hl as (-> & t' & Hm & Ht').
  split; [done|].
  unfold multi in Hm.
  destruct (apply_requests _ ops) as [[code resps0] t0] eqn:Happ.
  destruct code; try done. injection Hm as -> ->.
  apply apply_requests_app_ok in Happ as (resps1 & t1 & resps2 & _ & Hlast & ->).
  cbn [apply_requests] in Hlast.
  destruct (apply_request t1 _) as [resp t2] eqn:Hcreate.
  destruct (error resp) eqn:Herr; try done. injection Hlast as <- <-.
  change (replica_path replica_name ++ [Name "queue"; Name "queue-"])
    with ((replica_path replica_name ++ [Name "queue"]) ++ [Name "queue-"]) in Hcreate.
  rewrite <- app_assoc in Hcreate. cbn [app] in Hcreate.
  replace (replica_path replica_name ++ [Name "queue"; Name "queue-"])
    with ((replica_path replica_name ++ [Name "queue"]) ++ [Name "queue-"]) in Hcreate
    by (by rewrite <- app_assoc).
  apply apply_create_persistent_sequential in Hcreate as (par & Hpar & Hpath & Hnode);
    [|done].
  assert (last (resps1 ++ [resp]) = Some resp) as -> by apply last_snoc.
  cbn [fmap option_fmap option_map default id]. rewrite Hpath.
  assert (last ((replica_path replica_name ++ [Name "queue"])
                ++ [Sequential "queue-" (node_cversion par)])
          = Some (Sequential "queue-" (node_cversion par))) as -> by apply last_snoc.
  cbn [set_znode_name znode_name].
  split; [done|]. exists (node_cversion par). split; [done|].
  rewrite Ht'. rewrite Hpath in Hnode.
  rewrite <- app_assoc in Hnode. cbn [app] in Hnode. by rewrite Hnode.
Qed.

End RemovePartFacts.

(** * Block numbers and the blocks of deduplication *)

(** X18.  An insert whose block is known already gets no block number: when
    the node of the block id exists, the multi that would make the holder
    of the lock is refused at its first request, and [allocateBlockNumber]
    answers that there is no lock.  Nothing is written. *)
Theorem allocateBlockNumber_duplicate_block pid (block_id_path : Path) s :
  partition_path pid ∈ existing_nodes_cache s ->
  served s ->
  is_Some (zookeeper (run_events 1 s) !! parent block_id_path) ->
  is_Some (zookeeper (run_events 1 s) !! block_id_path) ->
  allocateBlockNumber pid (Some block_id_path) s = (Ok None, run_events 1 s)
  /\ committed (run_events 1 s) = committed s.
Proof.
  intros Hcache Hs [par Hpar] [n Hn]. split; [|done].
  unfold allocateBlockNumber.
  erewrite bind_ok; [|by apply existsNodeCached_hit]. cbn [negb].
  unfold bind at 1. cbn [ret fst snd].
  unfold try_catch, EphemeralLockInZooKeeper_create.
  set (ops := [CreateRequest block_id_path (Text "") Persistent;
               RemoveRequest block_id_path (-1)] ++ _).
  assert (multi (zookeeper (run_events 1 s)) ops
          = (ZNODEEXISTS,
             {| error := ZNODEEXISTS; path_created := [] |}
             :: map (fun _ => not_reached) (tail ops),
             zookeeper (run_events 1 s))) as Hmulti.
  { unfold multi, ops. cbn [app apply_requests apply_request actual_path].
    rewrite Hpar, Hn. done. }
  assert (zk_multi ops (run_events 0 s)
          = (Throw (KeeperMultiException ZNODEEXISTS 0), run_events 1 s)) as Hm.
  { unfold zk_multi. rewrite run_events_0.
    erewrite bind_ok; [|by apply zk_tryMulti_served].
    cbn [check_multi recorded]. unfold bind, throw. cbn [fst snd failed_op_index error].
    rewrite (bool_decide_false (ZNODEEXISTS = ZOK)) by done.
    by rewrite set_zookeeper_id. }
  rewrite run_events_0 in Hm.
  erewrite bind_throw;
    [|erewrite bind_throw; [done|erewrite bind_throw; [done|exact Hm]]].
  cbv iota. rewrite bool_decide_true by done. cbn [andb].
  rewrite bool_decide_true; [done|by split].
Qed.

Lemma ensures_bind_with {A B} (Q : A -> Prop) (P : B -> Prop) (m : M A) (k : A -> M B) :
  ensures Q m -> (forall a, Q a -> ensures P (k a)) -> ensures P (bind m k).
Proof.
  intros Hm Hk s. unfold bind. specialize (Hm s).
  destruct (m s) as [[a|e|] s1]; cbn in *; try done. by apply Hk.
Qed.

Lemma ensures_map_m {A B} (R : B -> Prop) (f : A -> M B) (l : list A) :
  (forall x, x ∈ l -> ensures R (f x)) -> ensures (Forall R) (map_m f l).
Proof.
  induction l as [|x l IH]; intros Hf; cbn [map_m]; [by apply ensures_ret|].
  eapply ensures_bind_with; [apply Hf, list_elem_of_here|]. intros y Hy.
  eapply ensures_bind_with.
  - apply IH. intros z Hz. by apply Hf, list_elem_of_further.
  - intros ys Hys. apply ensures_ret. by constructor.
Qed.

Lemma writes_bind_with {A B} P (Q : A -> Prop) (m : M A) (k : A -> M B) :
  writes P m -> ensures Q m -> (forall a, Q a -> writes P (k a)) -> writes P (bind m k).
Proof.
  intros Hm Hq Hk s. unfold bind. destruct (Hm s) as (l1 & E1 & H1). specialize (Hq s).
  destruct (m s) as [[a|e|] s1]; cbn in *; eauto.
  destruct (Hk a Hq s1) as (l2 & E2 & H2).
  exists (l1 ++ l2). rewrite E2, E1, app_assoc. split; [done|]. by apply Forall_app.
Qed.

(** The removal, whatever the version, of the node of a block of the
    partition under blocks/. *)
Definition removes_block (pid : string) (r : Request) : Prop :=
  exists block_id,
    startsWith block_id (pid +:+ "_") = true
    /\ r = RemoveRequest ((zookeeper_path ++ [Name "blocks"]) ++ [block_id]) (-1).

Lemma getClearBlocksInPartitionOps_removes pid lo hi :
  ensures (Forall (removes_block pid)) (getClearBlocksInPartitionOps pid lo hi)
  /\ only_reads (getClearBlocksInPartitionOps pid lo hi)
  /\ keeps_local (getClearBlocksInPartitionOps pid lo hi).
Proof.
  unfold getClearBlocksInPartitionOps. split; [|split].
  - apply ensures_bind. intros [blocks|]; [|apply ensures_throw].
    eapply ensures_bind_with.
    + apply (ensures_map_m
               (fun y : Path * Result (option (Data * Stat)) =>
                  exists b, startsWith b (pid +:+ "_") = true
                            /\ y.1 = (zookeeper_path ++ [Name "blocks"]) ++ [b])).
      intros b Hb. apply list_elem_of_filter in Hb as [Hb _].
      apply ensures_bind. intros future. apply ensures_ret. by exists b.
    + intros get_futures Hfutures.
      eapply ensures_bind_with.
      * apply (ensures_map_m (Forall (removes_block pid))).
        intros [path future] Hin.
        eapply Forall_forall in Hfutures as (b & Hb & Hpath); [|exact Hin].
        cbn in Hpath. subst path.
        apply ensures_bind. intros [[d st]|]; [|by apply ensures_ret].
        assert (Forall (removes_block pid)
                  [RemoveRequest ((zookeeper_path ++ [Name "blocks"]) ++ [b]) (-1)])
          as Hone by (repeat constructor; by exists b).
        destruct (tryParsePartName d); [destruct (_ && _)|]; by apply ensures_ret.
      * intros ops Hops. apply ensures_ret.
        induction Hops as [|x l Hx Hl IH]; [done|]. cbn. by apply Forall_app.
  - solve_writes.
  - solve_keeps.
Qed.

(** X19.  [clearBlocksInPartition] removes nothing but nodes of blocks of
    the partition: every write is the removal of a child of blocks/ whose
    name begins with the id of the partition and an underscore.  The
    replica's own state is left alone. *)
Theorem clearBlocksInPartition_removes_only_own_blocks pid lo hi s :
  let r := clearBlocksInPartition pid lo hi s in
  local_of r.2 = local_of s
  /\ exists l, committed r.2 = committed s ++ l /\ Forall (removes_block pid) l.
Proof.
  cbv zeta. destruct (getClearBlocksInPartitionOps_removes pid lo hi) as (He & Hr & Hk).
  split.
  - revert s. change (keeps_local (clearBlocksInPartition pid lo hi)).
    unfold clearBlocksInPartition. solve_keeps.
  - revert s. change (writes (removes_block pid) (clearBlocksInPartition pid lo hi)).
    unfold clearBlocksInPartition.
    eapply writes_bind_with; [|exact He|].
    + intros s. destruct (Hr s) as (l & E & Hl). exists l. split; [done|].
      destruct l; [done|by inversion Hl].
    + intros ops Hops. apply writes_bind; [by apply writes_tryMulti|].
      intros. apply writes_ret.
Qed.

(** * The log entry of a merge or a mutation *)

Lemma hp_tryMulti ops s :
  ops <> [] ->
  hp (zk_tryMulti ops)
    (fun r s' l =>
       local_of s' = local_of s
       /\ match r with
          | Ok (ZOK, resps) =>
              l = ops
              /\ exists t', multi (zookeeper (run_events 1 s)) ops = (ZOK, resps, t')
                            /\ zookeeper s' = t'
          | Ok _ | Throw _ => l = []
          | OutOfFuel => False
          end) s.
Proof.
  intros Hne. unfold hp. destruct (served_dec s) as [Hs | [e He]].
  - destruct (multi (zookeeper (run_events 1 s)) ops) as [[code resps] t'] eqn:Hm.
    rewrite (zk_tryMulti_served _ _ _ _ _ Hne Hs Hm).
    destruct code; cbn; try (exists []; by rewrite app_nil_r).
    exists ops. repeat split; try done. by exists t'.
  - unfold zk_tryMulti. destruct ops as [|op ops]; [done|].
    erewrite bind_throw; [|by apply request_failed].
    exists []. cbn. by rewrite app_nil_r.
Qed.

(** The node that a multi beginning with the creation of a log entry has
    made for it. *)
Lemma log_append_created (t : Tree) entry log_version resps t' :
  multi t (log_append_ops entry log_version) = (ZOK, resps, t') ->
  exists n,
    last (default [] (path_created <$> head resps)) = Some (Sequential "log-" n)
    /\ data <$> t' !! (log_path ++ [Sequential "log-" n]) = Some (Entry entry).
Proof.
  unfold multi, log_append_ops. cbn [apply_requests].
  destruct (apply_request t _) as [resp t1] eqn:Hcreate.
  destruct (error resp) eqn:Herr; try done.
  apply apply_create_persistent_sequential in Hcreate as (par & Hpar & Hpath & Hnode);
    [|done].
  destruct (apply_request t1 _) as [resp2 t2] eqn:Hset.
  pose proof (apply_set _ _ _ _ _ _ Hset) as Hc.
  destruct (error resp2) eqn:Herr2; try done.
  intros [= <- <-]. exists (node_cversion par).
  cbn [head fmap option_fmap option_map default id]. rewrite Hpath.
  split; [apply last_snoc|].
  destruct Hc as (n2 & Hn2 & Hv & ->).
  rewrite lookup_insert_ne.
  - rewrite Hpath in Hnode. by rewrite Hnode.
  - intros Heq. apply (f_equal length) in Heq. rewrite length_app in Heq. cbn in Heq. lia.
Qed.

Section SelectionMore.

Variable replica_name : string.
Variable MAX_AGE : Z.

Lemma createLogEntryToMergeParts_append_writes parts merged dedup log_version mtype s :
  hp (createLogEntryToMergeParts_append replica_name parts merged dedup log_version mtype)
    (fun r s' l =>
       match r with
       | Ok (CreateMergeEntryResult.Ok, out) =>
           let entry := merge_entry replica_name parts merged dedup mtype (now s) in
           l = log_append_ops entry log_version
           /\ exists n,
                out = Some (set_znode_name (Some (Sequential "log-" n)) entry)
                /\ data <$> zookeeper s' !! (log_path ++ [Sequential "log-" n])
                   = Some (Entry entry)
       | Ok (_, out) => l = [] /\ out = None
       | Throw _ => l = []
       | OutOfFuel => False
       end) s.
Proof.
  unfold createLogEntryToMergeParts_append.
  unfold bind at 1, time, gets. cbn [fst snd].
  eapply hp_bind; [by apply hp_tryMulti| |..].
  - intros [code resps] s1 l1 [Hk Hl].
    destruct code; cbn [check_multi]; subst;
      try (exists []; cbn; by rewrite ?app_nil_r).
    destruct Hl as (-> & t' & Hm & Ht'). apply hp_ret. rewrite app_nil_r.
    split; [done|]. apply log_append_created in Hm as (n & Hlast & Hnode).
    exists n. rewrite Hlast, Ht'. done.
  - by intros e s1 l1 [_ ?].
  - by intros s1 l1 [_ ?].
Qed.

(** X20.  [createLogEntryToMergeParts] writes by one multi only, and the
    answers say whether it went through.  With the answer Ok the multi
    that appends the entry and checks the version of the log was carried
    out: the entry is a MERGE_PARTS entry of this replica for the merged
    name, with the names of the parts in their order as its sources, and
    the entry handed back carries the name of the node made for it in the
    log, which holds it.  With MissingPart, LogUpdated or an exception
    nothing was written. *)
Theorem createLogEntryToMergeParts_appends_iff_ok parts merged dedup log_version mtype s :
  let r := createLogEntryToMergeParts replica_name MAX_AGE parts merged dedup
             log_version mtype s in
  exists l, committed r.2 = committed s ++ l
    /\ match r.1 with
       | Ok (CreateMergeEntryResult.Ok, out) =>
           exists t n,
             let entry := merge_entry replica_name parts merged dedup mtype t in
             l = log_append_ops entry log_version
             /\ type entry = MERGE_PARTS
             /\ source_parts entry = map name parts
             /\ new_part_name entry = merged
             /\ out = Some (set_znode_name (Some (Sequential "log-" n)) entry)
             /\ data <$> zookeeper r.2 !! (log_path ++ [Sequential "log-" n])
                = Some (Entry entry)
       | Ok (_, out) => l = [] /\ out = None
       | Throw _ | OutOfFuel => l = []
       end.
Proof.
  cbv zeta. unfold createLogEntryToMergeParts.
  change (hp (let* exists_futures :=
                map_m (fun part =>
                         async (zk_exists (replica_path replica_name
                                           ++ [Name "parts"; Part (name part)]))) parts in
              let* in_zk := map_m (check_part_in_zk MAX_AGE) (zip parts exists_futures) in
              if negb (forallb id in_zk)
              then ret (CreateMergeEntryResult.MissingPart, None)
              else createLogEntryToMergeParts_append replica_name parts merged dedup
                     log_version mtype)
            (fun r s' l =>
               match r with
               | Ok (CreateMergeEntryResult.Ok, out) =>
                   exists t n,
                     let entry := merge_entry replica_name parts merged dedup mtype t in
                     l = log_append_ops entry log_version
                     /\ type entry = MERGE_PARTS
                     /\ source_parts entry = map name parts
                     /\ new_part_name entry = merged
                     /\ out = Some (set_znode_name (Some (Sequential "log-" n)) entry)
                     /\ data <$> zookeeper s' !! (log_path ++ [Sequential "log-" n])
                        = Some (Entry entry)
               | Ok (_, out) => l = [] /\ out = None
               | Throw _ | OutOfFuel => l = []
               end) s).
  eapply hp_bind; [apply (hp_writes (fun _ => False)); solve_writes | |..].
  - intros futures s1 l1 Hl1.
    assert (l1 = []) as -> by (destruct l1; [done|by inversion Hl1]).
    eapply hp_bind.
    + apply (hp_writes (fun _ => False)). apply writes_map_m. intros [part future].
      unfold check_part_in_zk, enqueuePartForCheck, time. solve_writes.
    + intros in_zk s2 l2 Hl2.
      assert (l2 = []) as -> by (destruct l2; [done|by inversion Hl2]).
      destruct (negb _); [by apply hp_ret|].
      destruct (createLogEntryToMergeParts_append_writes parts merged dedup
                  log_version mtype s2) as (l & Hc & Hl).
      exists l. split; [done|]. cbn [app].
      destruct (createLogEntryToMergeParts_append _ _ _ _ _ _ s2).1
        as [[[] out]|e|]; try done.
      destruct Hl as (-> & n & -> & Hnode). by exists (now s2), n.
    + intros e s2 l2 Hl2. by destruct l2; [|inversion Hl2].
    + intros s2 l2 Hl2. by destruct l2; [|inversion Hl2].
  - intros e s1 l1 Hl1. by destruct l1; [|inversion Hl1].
  - intros s1 l1 Hl1. by destruct l1; [|inversion Hl1].
Qed.

End SelectionMore.

(** * Runs of the further methods *)

(** Replica a is active and has inserts of time 900 to process. *)
Definition delays_tree : Tree :=
  list_to_map
    [([], node (Text "") 0);
     ([Name "replicas"], node (Text "") 0);
     ([Name "replicas"; Name "r1"], node (Text "") 0);
     ([Name "replicas"; Name "a"], node (Text "") 0);
     ([Name "replicas"; Name "a"; Name "is_active"], node (Text "") 0);
     ([Name "replicas"; Name "a"; Name "min_unprocessed_insert_time"],
      node (Text "900") 0)].


(** The replica is 600 behind; replica a, the only other one that is
    active, is 100 behind: the relative delay is 500. *)
Example getReplicaDelays_run :
  (getReplicaDelays "r1" 0 400 990 995 (ret tt) (storage_of delays_tree [] [])).1
  = Ok (600, 500).
Proof. vm_compute. reflexivity. Qed.

(** A delay of 600 is below a least delay to measure of 700: the other
    replicas are not asked. *)
Example getReplicaDelays_below_threshold :
  getReplicaDelays "r1" 700 400 990 995 (ret tt) (storage_of delays_tree [] [])
  = (Ok (600, 0), storage_of delays_tree [] []).
Proof. reflexivity. Qed.

(** The greatest setting is -1 as a [time_t]: no delay is below it, and
    the relative delay is measured. *)
Example getReplicaDelays_greatest_threshold :
  to_time_t (Z.of_N 18446744073709551615) = -1
  /\ (getReplicaDelays "r1" 18446744073709551615 400 990 995 (ret tt)
        (storage_of delays_tree [] [])).1
     = Ok (600, 500).
Proof. split; vm_compute; reflexivity. Qed.

(** The last parts written with a quorum: p_5_5_0 in partition p. *)
Definition last_parts_tree : Tree :=
  <[quorum_last_part_path := node (AddedParts {["p" := part_5]}) 3]> (quorum_tree false).

Lemma cleanLastPartNode_forgets_partition_run :
  let s := storage_of last_parts_tree [] [] in
  let n := node (AddedParts {["p" := part_5]}) 3 in
  schedule s = []
  /\ zookeeper s !! quorum_last_part_path = Some n
  /\ ((exists m, data n = AddedParts m) \/ data n = Text "")
  /\ (partIsLastQuorumPart part_5 s).1 = Ok true
  /\ (cleanLastPartNode "p" s).1 = Ok tt
  /\ (partIsLastQuorumPart part_5 (cleanLastPartNode "p" s).2).1 = Ok false.
Proof.
  intros s n.
  assert (schedule s = []) as H1 by reflexivity.
  assert (zookeeper s !! quorum_last_part_path = Some n) as H2 by (vm_compute; reflexivity).
  assert ((exists m, data n = AddedParts m) \/ data n = Text "") as H3
    by (left; eexists; reflexivity).
  destruct (cleanLastPartNode_forgets_partition "p" part_5 s n H1 H2 H3) as [R1 R2].
  refine (conj H1 (conj H2 (conj H3 (conj _ (conj R1 R2))))).
  vm_compute. reflexivity.
Defined.

Lemma updateQuorum_then_partIsLastQuorumPart_run :
  let s := storage_of (quorum_tree false) [] [] in
  let ns := node (QuorumStatus entry_5) 7 in
  let nl := node (Text "") 3 in
  schedule s = []
  /\ zookeeper s !! quorum_status_path part_5 false = Some ns
  /\ data ns = QuorumStatus entry_5
  /\ part_name entry_5 = part_5
  /\ (required_number_of_replicas entry_5 <= size ({["r2"]} ∪ replicas entry_5))%nat
  /\ children (zookeeper s) (quorum_status_path part_5 false) = []
  /\ zookeeper s !! quorum_last_part_path = Some nl
  /\ ((exists m, data nl = AddedParts m) \/ data nl = Text "")
  /\ (partIsLastQuorumPart part_5 s).1 = Ok false
  /\ (updateQuorum "r2" part_5 false s).1 = Ok tt
  /\ (partIsLastQuorumPart part_5 (updateQuorum "r2" part_5 false s).2).1 = Ok true.
Proof.
  intros s ns nl.
  assert (schedule s = []) as H1 by reflexivity.
  assert (zookeeper s !! quorum_status_path part_5 false = Some ns) as H2
    by (vm_compute; reflexivity).
  assert (data ns = QuorumStatus entry_5) as H3 by reflexivity.
  assert (part_name entry_5 = part_5) as H4 by reflexivity.
  assert (required_number_of_replicas entry_5 <= size ({["r2"]} ∪ replicas entry_5))%nat
    as H5 by (vm_compute; lia).
  assert (children (zookeeper s) (quorum_status_path part_5 false) = []) as H6
    by (vm_compute; reflexivity).
  assert (zookeeper s !! quorum_last_part_path = Some nl) as H7 by (vm_compute; reflexivity).
  assert ((exists m, data nl = AddedParts m) \/ data nl = Text "") as H8 by (by right).
  destruct (updateQuorum_then_partIsLastQuorumPart "r2" part_5 s ns entry_5 nl
              H1 H2 H3 H4 H5 H6 H7 H8) as (R1 & _ & R3).
  refine (conj H1 (conj H2 (conj H3 (conj H4 (conj H5 (conj H6 (conj H7 (conj H8
            (conj _ (conj R1 R3)))))))))).
  vm_compute. reflexivity.
Defined.

(** The partition p is known to the cache and the block p_17 has been
    inserted before. *)
Definition known_block : Path := [Name "blocks"; Name "p_17"].

Definition duplicate_state : Storage :=
  {| zookeeper := <[known_block := node (Text "") 0]> (partition_tree 3);
     schedule := []; committed := []; data_parts := [];
     detached := []; queue := []; parts_to_check := []; cancelled_merges := [];
     existing_nodes_cache := [partition_path "p"]; now := 1000 |}.

Lemma allocateBlockNumber_duplicate_block_run :
  let s := duplicate_state in
  partition_path "p" ∈ existing_nodes_cache s
  /\ served s
  /\ is_Some (zookeeper (run_events 1 s) !! parent known_block)
  /\ is_Some (zookeeper (run_events 1 s) !! known_block)
  /\ allocateBlockNumber "p" (Some known_block) s = (Ok None, run_events 1 s)
  /\ committed (run_events 1 s) = committed s.
Proof.
  intros s.
  assert (partition_path "p" ∈ existing_nodes_cache s) as H1 by apply list_elem_of_here.
  assert (served s) as H2 by (intros e; discriminate).
  assert (is_Some (zookeeper (run_events 1 s) !! parent known_block)) as H3
    by (exists (node (Text "") 0); vm_compute; reflexivity).
  assert (is_Some (zookeeper (run_events 1 s) !! known_block)) as H4
    by (exists (node (Text "") 0); vm_compute; reflexivity).
  split; [exact H1|]. split; [exact H2|]. split; [exact H3|]. split; [exact H4|].
  exact (allocateBlockNumber_duplicate_block "p" known_block s H1 H2 H3 H4).
Defined.
